(** * MIDI note and chord file generators: a shallow embedding

    The repository is a family of Python scripts that resolve note names
    to MIDI numbers, build a one-track event list and save it under a
    numbered file name.  This development embeds the scripts as Rocq
    functions and proves (or refutes on concrete inputs) the properties
    stated about them.

    Conventions of the embedding
    - Python [int] is [Z]; [//] and [%] with a positive divisor are
      [Z.div] and [Z.modulo] (both floor).
    - Python [str] is [string], restricted to ASCII characters; the
      regular expression class [\d] is therefore the ten ASCII digits.
    - Exceptions are values of [exn]; a computation is a function from
      the world (working directory, directories, files, console) to a
      result and a new world.
    - The console keeps one notice per modelled [print]; report lines
      that format floating point numbers (frequency, bars, seconds) are
      left out of the console model. *)

From Stdlib Require Import ZArith String Ascii List Bool Lia.
From Stdlib Require Import DecimalString DecimalPos Sorting.Sorted Permutation.
From stdpp Require Import base tactics option list strings gmap.

Open Scope string_scope.
Open Scope Z_scope.

(** ** Python built-ins used by the scripts *)

Module Py.

Definition ord (c : ascii) : Z := Z.of_N (N_of_ascii c).

(** [\d] on ASCII text. *)
Definition is_digit (c : ascii) : bool := (48 <=? ord c) && (ord c <=? 57).

Definition digit_value (c : ascii) : Z := ord c - 48.

(** [[A-G]] *)
Definition is_A_to_G (c : ascii) : bool := (65 <=? ord c) && (ord c <=? 71).

(** The longest prefix of digits and what follows it: the greedy [\d*]. *)
Fixpoint span_digits (s : string) : string * string :=
  match s with
  | String c s' =>
      if is_digit c
      then let '(ds, rest) := span_digits s' in (String c ds, rest)
      else (EmptyString, s)
  | EmptyString => (EmptyString, EmptyString)
  end.

Fixpoint all_digits (s : string) : bool :=
  match s with
  | String c s' => is_digit c && all_digits s'
  | EmptyString => true
  end.

Fixpoint int_digits (acc : Z) (s : string) : Z :=
  match s with
  | String c s' => int_digits (acc * 10 + digit_value c) s'
  | EmptyString => acc
  end.

(** A Python exception.  [ValueError] carries which check raised it in
    place of the formatted message. *)
Inductive value_error :=
| InvalidNoteFormat (s : string)
| InvalidNoteName (s : string)
| OutOfRange (name : string) (midi : Z)
| ChordNoteOutOfRange (note_name : string)
| InvalidTriadType (s : string)
| InvalidKeySignature (s : string)
| InvalidRangeFormat
| InvalidChordNoteName (s : string)
| NotInList (s : string)
| InvalidLiteral (s : string)
| DataByteOutOfRange (v : Z).

Inductive exn :=
| ValueError (e : value_error)
| IndexError
| NameError
| ZeroDivisionError
| OverflowError.

Inductive result (A : Type) :=
| Ok (a : A)
| Raise (e : exn).
Arguments Ok {A} a.
Arguments Raise {A} e.

(** [int(s)] on the texts the scripts pass to it, a group [-?\d+] of a
    match or a single character: digits with an optional minus sign
    convert, anything else raises [ValueError]. *)
Definition int (s : string) : result Z :=
  match s with
  | String "-" ds =>
      if all_digits ds && negb (String.eqb ds "")
      then Ok (- int_digits 0 ds) else Raise (ValueError (InvalidLiteral s))
  | _ =>
      if all_digits s && negb (String.eqb s "")
      then Ok (int_digits 0 s) else Raise (ValueError (InvalidLiteral s))
  end.

(** [str(n)] for an integer. *)
Definition str (n : Z) : string := NilZero.string_of_int (Z.to_int n).

Fixpoint zeros (n : nat) : string :=
  match n with
  | O => EmptyString
  | S n' => String "0" (zeros n')
  end.

Definition zfill (width : nat) (s : string) : string :=
  zeros (width - String.length s) +:+ s.

(** [f"{n:0Wd}"]: the sign counts in the width. *)
Definition format_0d (width : nat) (n : Z) : string :=
  if n <? 0 then String "-" (zfill (width - 1) (str (- n)))
  else zfill width (str n).

(** [l.index(x)] *)
Fixpoint index_from (i : Z) (x : string) (l : list string) : result Z :=
  match l with
  | y :: l' => if String.eqb y x then Ok i else index_from (i + 1) x l'
  | [] => Raise (ValueError (NotInList x))
  end.
Definition index (l : list string) (x : string) : result Z := index_from 0 x l.

(** [l[i]] for [0 <= i]. *)
Definition nth_str (l : list string) (i : Z) : string :=
  nth (Z.to_nat i) l EmptyString.

(** [s.replace(c, t)] for a one-character pattern. *)
Fixpoint replace (c : ascii) (t : string) (s : string) : string :=
  match s with
  | String d s' =>
      if Ascii.eqb d c then t +:+ replace c t s' else String d (replace c t s')
  | EmptyString => EmptyString
  end.

Definition lower_char (c : ascii) : ascii :=
  if (65 <=? ord c) && (ord c <=? 90)
  then ascii_of_N (N_of_ascii c + 32) else c.

(** [s.lower()] *)
Fixpoint lower (s : string) : string :=
  match s with
  | String c s' => String (lower_char c) (lower s')
  | EmptyString => EmptyString
  end.

(** [s.startswith(p)] *)
Definition startswith (p s : string) : bool := String.prefix p s.

(** [s[i:]] for [0 <= i]. *)
Fixpoint drop_str (n : nat) (s : string) : string :=
  match n, s with
  | O, _ => s
  | S n', String _ s' => drop_str n' s'
  | S _, EmptyString => EmptyString
  end.

(** [range(a, b)] *)
Definition range (a b : Z) : list Z :=
  map (fun i => a + Z.of_nat i) (seq 0 (Z.to_nat (b - a))).

(** [enumerate(l, start)] *)
Fixpoint enumerate {A} (start : Z) (l : list A) : list (Z * A) :=
  match l with
  | x :: l' => (start, x) :: enumerate (start + 1) l'
  | [] => []
  end.

(** [l.sort(key=...)]: Python's sort is stable, and so is insertion
    after the last element whose key is not larger.  Any two stable
    sorts return the same list. *)
Fixpoint insert_by {A} (key : A -> Z) (x : A) (l : list A) : list A :=
  match l with
  | y :: l' => if key x <? key y then x :: y :: l' else y :: insert_by key x l'
  | [] => [x]
  end.

Definition sort_by {A} (key : A -> Z) (l : list A) : list A :=
  fold_left (fun acc x => insert_by key x acc) l [].

End Py.
Export Py.

(** ** Results and the world *)

#[global] Instance result_ret : MRet result := fun _ a => Ok a.
#[global] Instance result_bind : MBind result := fun _ _ f r =>
  match r with
  | Ok a => f a
  | Raise e => Raise e
  end.

(** A MIDI message as [mido] holds it; [time] is the delta time in ticks. *)
Inductive message :=
| track_name (name : string) (time : Z)
| set_tempo (tempo : Z) (time : Z)
| time_signature (numerator denominator clocks_per_click
                  notated_32nd_notes_per_beat : Z) (time : Z)
| note_on (note velocity time : Z)
| note_off (note velocity time : Z)
| end_of_track (time : Z).

Definition MidiTrack := list message.
(** A [MidiFile] is its list of tracks. *)
Definition MidiFile := list MidiTrack.

(** A path name is relative to the working directory or absolute. *)
Inductive pathname :=
| Rel (parts : list string)
| Abs (parts : list string).

(** One modelled [print].  [Detail] is an indented report line, given by
    its caption and the value it shows.  The console of the model holds
    the lines of these kinds: the report per entry, the skip and failure
    notices and the summary.  The banners, the headers the drivers print
    before their loops, the frequency line and the blank lines are left
    out. *)
Inductive notice :=
| Created (filename : string)
| Detail (caption value : string)
| Skipping (label : string) (e : value_error)
| Failed (label : string) (e : exn)
| Summary (created_count : Z).

Record world := World {
  cwd : list string;
  dirs : gset (list string);
  files : gmap (list string) MidiFile;
  console : list notice
}.

(** A script fragment: it may change the world and return or raise. *)
Definition M (A : Type) : Type := world -> result A * world.

#[global] Instance M_ret : MRet M := fun _ a w => (Ok a, w).
#[global] Instance M_bind : MBind M := fun _ _ f m w =>
  match m w with
  | (Ok a, w') => f a w'
  | (Raise e, w') => (Raise e, w')
  end.

Definition lift {A} (r : result A) : M A := fun w => (r, w).
Definition raise {A} (e : value_error) : M A := lift (Raise (ValueError e)).

(** [try: m  except ValueError as e: h e]; other exceptions pass. *)
Definition try_except {A} (m : M A) (h : value_error -> M A) : M A := fun w =>
  match m w with
  | (Raise (ValueError e), w') => h e w'
  | other => other
  end.

(** [try: m  except Exception as e: h e] *)
Definition try_except_any {A} (m : M A) (h : exn -> M A) : M A := fun w =>
  match m w with
  | (Raise e, w') => h e w'
  | other => other
  end.

(** [for x in l: body x] *)
Fixpoint for_each {A} (l : list A) (body : A -> M ()) : M () :=
  match l with
  | x :: l' => _ ← body x; for_each l' body
  | [] => mret ()
  end.

(** The same loop threading the local variables [acc] of the loop. *)
Fixpoint for_fold {A S} (l : list A) (acc : S) (body : S -> A -> M S) : M S :=
  match l with
  | x :: l' => acc' ← body acc x; for_fold l' acc' body
  | [] => mret acc
  end.

Definition resolve (c : list string) (p : pathname) : list string :=
  match p with
  | Rel parts => c ++ parts
  | Abs parts => parts
  end.

(** The part of [os] the scripts call, on folders that exist or can be
    made: [chdir] to a folder that is missing, which raises in Python,
    is outside the model. *)
Module os.
Definition path_exists (p : pathname) : M bool := fun w =>
  (Ok (bool_decide (resolve (cwd w) p ∈ dirs w)), w).
Definition makedirs (p : pathname) : M () := fun w =>
  (Ok (), World (cwd w) ({[resolve (cwd w) p]} ∪ dirs w) (files w) (console w)).
Definition getcwd : M pathname := fun w => (Ok (Abs (cwd w)), w).
Definition chdir (p : pathname) : M () := fun w =>
  (Ok (), World (resolve (cwd w) p) (dirs w) (files w) (console w)).
Definition path_join (p : pathname) (name : string) : pathname :=
  match p with
  | Rel parts => Rel (parts ++ [name])
  | Abs parts => Abs (parts ++ [name])
  end.
End os.

Definition print (n : notice) : M () := fun w =>
  (Ok (), World (cwd w) (dirs w) (files w) (console w ++ [n])).

(** ** The part of [mido] the scripts call *)

Module mido.

(** Rounding of [n / d] to the nearest integer, ties to even, as
    Python's [round] does on the quotient. *)
Definition round_div (n d : Z) : Z :=
  let q := n / d in
  let r2 := 2 * (n mod d) in
  if d <? 0
  then (if r2 <? d then q + 1 else if d <? r2 then q
        else if Z.even q then q else q + 1)
  else (if r2 <? d then q else if d <? r2 then q + 1
        else if Z.even q then q else q + 1).

(** [mido.bpm2tempo(bpm)] is [int(round(60 * 1e6 / bpm))].  The
    [MetaMessage('set_tempo', ...)] that takes the result raises
    [ValueError] unless it lies in 0..16777215; the model leaves the
    check out and covers the tempi that pass it ([valid_bpm] below). *)
Definition bpm2tempo (bpm : Z) : result Z :=
  if bpm =? 0 then Raise ZeroDivisionError
  else Ok (round_div 60000000 bpm).

(** [Message(...)] checks that a data byte lies in 0..127 and raises
    [ValueError] otherwise. *)
Definition check_data_byte (v : Z) : result () :=
  if (v <? 0) || (127 <? v) then Raise (ValueError (DataByteOutOfRange v))
  else Ok ().

Definition Message_note_on (note velocity time : Z) : result message :=
  _ ← check_data_byte note; _ ← check_data_byte velocity;
  Ok (note_on note velocity time).

Definition Message_note_off (note velocity time : Z) : result message :=
  _ ← check_data_byte note; _ ← check_data_byte velocity;
  Ok (note_off note velocity time).

(** [mid.save(filename)] writes the file in the working directory,
    replacing a file of that name.  The model covers delta times that
    are not negative and file names without a path separator. *)
Definition save (mid : MidiFile) (filename : string) : M () := fun w =>
  (Ok (), World (cwd w) (dirs w)
             (<[resolve (cwd w) (Rel [filename]) := mid]> (files w))
             (console w)).

End mido.

(** ** Regular expressions of the scripts *)

Module re.

(** [re.match(r'([A-G]#?)(-?\d+)', s)]: the two groups and the text left
    after the match, or [None].  The match is anchored at the start only.
    Backtracking cannot help: a ['#'] or ['-'] that is given up would
    have to be matched by the next item, which it cannot. *)
Definition match_note (s : string) : option (string * string * string) :=
  match s with
  | String c s1 =>
      if is_A_to_G c then
        let '(g1, s2) := match s1 with
                         | String "#" s' => (String c "#", s')
                         | _ => (String c "", s1)
                         end in
        let '(sign, s3) := match s2 with
                           | String "-" s' => ("-", s')
                           | _ => ("", s2)
                           end in
        let '(ds, rest) := span_digits s3 in
        if String.eqb ds "" then None else Some (g1, sign +:+ ds, rest)
      else None
  | EmptyString => None
  end.

Definition newline : string := String (ascii_of_N 10) EmptyString.

(** [re.match(r"^([A-G]#?)(-?\d+)$", s)]: [$] matches at the end of the
    text and just before a newline that ends it. *)
Definition match_note_anchored (s : string) : option (string * string) :=
  match match_note s with
  | Some (g1, g2, rest) =>
      if String.eqb rest "" || String.eqb rest newline then Some (g1, g2)
      else None
  | None => None
  end.

End re.

(** ** What the scripts share by copy

    Every script carries the same table of note names. *)

Definition NOTE_NAMES : list string :=
  ["C"; "C#"; "D"; "D#"; "E"; "F"; "F#"; "G"; "G#"; "A"; "A#"; "B"].

(** The parse that opens [create_note_midi_ableton_final] (create_notes.py,
    lines 26-37), [create_note_midi_standard] (lines 108-119) and
    [create_chord_triad_midi] (create_chords.py, lines 129-143): the
    octave and the index of the note name. *)
Definition parse_display_name (display_name : string) : result (Z * Z) :=
  match re.match_note display_name with
  | None => Raise (ValueError (InvalidNoteFormat display_name))
  | Some (note_name, octave_text, _) =>
      octave ← int octave_text;
      note_index ← match index NOTE_NAMES note_name with
                   | Raise (ValueError _) =>
                       Raise (ValueError (InvalidNoteName note_name))
                   | r => r
                   end;
      Ok (octave, note_index)
  end.

(** The range loop of [generate_ableton_range] (create_notes.py, lines
    207-246), [generate_standard_range] (lines 316-355, offset 1) and
    [generate_chord_triads_range] (create_chords.py, lines 308-354): every
    note from the start note to the end note with its MIDI number, sorted
    by MIDI number. *)
Definition all_notes_in_range (offset : Z) (start_note end_note : string)
  : result (list (string * Z)) :=
  match re.match_note start_note, re.match_note end_note with
  | Some (start_note_name, start_text, _), Some (end_note_name, end_text, _) =>
      start_octave ← int start_text;
      end_octave ← int end_text;
      start_note_index ← index NOTE_NAMES start_note_name;
      end_note_index ← index NOTE_NAMES end_note_name;
      let all_notes :=
        flat_map (fun octave =>
          let note_start_index :=
            if octave =? start_octave then start_note_index else 0 in
          let note_end_index :=
            if octave =? end_octave then end_note_index + 1 else 12 in
          map (fun note_idx =>
                 let note_name := nth_str NOTE_NAMES note_idx in
                 let display_name := note_name +:+ str octave in
                 let midi_num := (octave + offset) * 12 + note_idx in
                 (display_name, midi_num))
              (range note_start_index note_end_index))
          (range start_octave (end_octave + 1)) in
      Ok (sort_by snd all_notes)
  | _, _ => Raise (ValueError InvalidRangeFormat)
  end.

(** [if not os.path.exists(d): os.makedirs(d)] *)
Definition ensure_dir (output_dir : pathname) : M () :=
  present ← os.path_exists output_dir;
  if present : bool then mret () else os.makedirs output_dir.

(** ** create_notes.py *)

Module create_notes.

Definition DEFAULT_DURATION_TICKS : Z := 3840.

(** Lines 26-46 of [create_note_midi_ableton_final]: the MIDI number of
    a display name, [(octave + 2) * 12 + note_index], and its range
    check. *)
Definition ableton_midi_of (ableton_display_name : string) : result Z :=
  '(octave, note_index) ← parse_display_name ableton_display_name;
  let ableton_midi := (octave + 2) * 12 + note_index in
  if (ableton_midi <? 0) || (127 <? ableton_midi)
  then Raise (ValueError (OutOfRange ableton_display_name ableton_midi))
  else Ok ableton_midi.

(** Lines 50-53: the standard name of a MIDI number. *)
Definition standard_name_of (standard_midi : Z) : string :=
  let standard_octave := standard_midi / 12 - 1 in
  let standard_note_index := standard_midi mod 12 in
  nth_str NOTE_NAMES standard_note_index +:+ str standard_octave.

(** Lines 108-128 of [create_note_midi_standard]:
    [(octave + 1) * 12 + note_index]. *)
Definition standard_midi_of (standard_display_name : string) : result Z :=
  '(octave, note_index) ← parse_display_name standard_display_name;
  let standard_midi := (octave + 1) * 12 + note_index in
  if (standard_midi <? 0) || (127 <? standard_midi)
  then Raise (ValueError (OutOfRange standard_display_name standard_midi))
  else Ok standard_midi.

(** Lines 131-134: the name Ableton displays for a MIDI number. *)
Definition ableton_display_of (ableton_midi : Z) : string :=
  let ableton_octave := ableton_midi / 12 - 2 in
  let ableton_note_index := ableton_midi mod 12 in
  nth_str NOTE_NAMES ableton_note_index +:+ str ableton_octave.

(** The track both functions build: name, tempo, time signature, the
    note and the end marker.  Of the report the functions print after
    [mid.save], the model keeps the lines that cannot fail; the line
    with [duration_ticks/1920] raises [OverflowError] for a duration
    beyond the float range and is outside the model ([valid_duration]
    below). *)
Definition note_track (name : string) (tempo : Z) (on off : message)
  : MidiTrack :=
  [track_name name 0; set_tempo tempo 0; time_signature 4 4 24 8 0;
   on; off; end_of_track 0].

Definition create_note_midi_ableton_final
    (ableton_display_name : string) (file_number duration_ticks bpm : Z)
  : M MidiFile :=
  ableton_midi ← lift (ableton_midi_of ableton_display_name);
  let standard_name := standard_name_of ableton_midi in
  let name := "Note " +:+ ableton_display_name in
  tempo ← lift (mido.bpm2tempo bpm);
  on ← lift (mido.Message_note_on ableton_midi 64 0);
  off ← lift (mido.Message_note_off ableton_midi 64 duration_ticks);
  let mid := [note_track name tempo on off] in
  let filename :=
    format_0d 2 file_number +:+ " " +:+ ableton_display_name +:+ ".mid" in
  _ ← mido.save mid filename;
  _ ← print (Created filename);
  _ ← print (Detail "Track name in Ableton" name);
  _ ← print (Detail "Note" ableton_display_name);
  _ ← print (Detail "Plays at" standard_name);
  _ ← print (Detail "MIDI note in file" (str ableton_midi));
  mret mid.

Definition create_note_midi_standard
    (standard_display_name : string) (file_number duration_ticks bpm : Z)
  : M MidiFile :=
  standard_midi ← lift (standard_midi_of standard_display_name);
  let ableton_display := ableton_display_of standard_midi in
  let name := "Note " +:+ standard_display_name +:+ " (Standard)" in
  tempo ← lift (mido.bpm2tempo bpm);
  on ← lift (mido.Message_note_on standard_midi 64 0);
  off ← lift (mido.Message_note_off standard_midi 64 duration_ticks);
  let mid := [note_track name tempo on off] in
  let filename :=
    format_0d 2 file_number +:+ " " +:+ standard_display_name
      +:+ "_standard.mid" in
  _ ← mido.save mid filename;
  _ ← print (Created filename);
  _ ← print (Detail "Track name in Ableton" name);
  _ ← print (Detail "Standard notation" standard_display_name);
  _ ← print (Detail "Will display in Ableton as" ableton_display);
  _ ← print (Detail "MIDI note in file" (str standard_midi));
  mret mid.

(** Lines 265-272: the creation used when track names are switched off. *)
Definition create_without_track_name
    (display_name : string) (midi_num file_number duration_ticks : Z) : M () :=
  on ← lift (mido.Message_note_on midi_num 64 0);
  off ← lift (mido.Message_note_off midi_num 64 duration_ticks);
  let mid := [[on; off]] in
  let filename := format_0d 2 file_number +:+ " " +:+ display_name +:+ ".mid" in
  _ ← mido.save mid filename;
  print (Created filename).

(** Lines 255-279: one turn of the loop over the numbered notes, from
    and to [created_count]. *)
Definition ableton_range_body (output_dir : pathname)
    (include_track_names : bool) (duration_ticks : Z)
    (created_count : Z) (entry : Z * (string * Z)) : M Z :=
  let '(file_number, (display_name, midi_num)) := entry in
  original_dir ← os.getcwd;
  _ ← os.chdir output_dir;
  created_count ← try_except
    (_ ← (if include_track_names
          then _ ← create_note_midi_ableton_final display_name file_number
                     duration_ticks 120;
               mret ()
          else create_without_track_name display_name midi_num file_number
                 duration_ticks);
     mret (created_count + 1))
    (fun e => _ ← print (Skipping display_name e); mret created_count);
  _ ← os.chdir original_dir;
  mret created_count.

(** Lines 253-279: the loop; it returns [created_count]. *)
Definition ableton_range_loop (output_dir : pathname)
    (include_track_names : bool) (duration_ticks : Z)
    (numbered : list (Z * (string * Z))) : M Z :=
  for_fold numbered 0
    (ableton_range_body output_dir include_track_names duration_ticks).

(** Lines 182-289.  The header the driver prints before it parses the
    two names, with [duration_ticks/1920] in it, and the closing lines
    after the summary are not among the modelled prints; the same holds
    for [generate_standard_range] and [generate_middle_c_range]. *)
Definition generate_ableton_range (start_note end_note : string)
    (include_track_names : bool) (duration_ticks : Z) : M () :=
  let output_dir := Rel ["midi_files_ableton_sequential"] in
  _ ← ensure_dir output_dir;
  all_notes ← lift (all_notes_in_range 2 start_note end_note);
  created_count ← ableton_range_loop output_dir include_track_names
                     duration_ticks (enumerate 1 all_notes);
  print (Summary created_count).

(** Lines 364-376: one turn of the loop. *)
Definition standard_range_body (output_dir : pathname) (duration_ticks : Z)
    (created_count : Z) (entry : Z * (string * Z)) : M Z :=
  let '(file_number, (display_name, midi_num)) := entry in
  original_dir ← os.getcwd;
  _ ← os.chdir output_dir;
  created_count ← try_except
    (_ ← create_note_midi_standard display_name file_number duration_ticks 120;
     mret (created_count + 1))
    (fun e => _ ← print (Skipping display_name e); mret created_count);
  _ ← os.chdir original_dir;
  mret created_count.

(** Lines 361-376. *)
Definition standard_range_loop (output_dir : pathname) (duration_ticks : Z)
    (numbered : list (Z * (string * Z))) : M Z :=
  for_fold numbered 0 (standard_range_body output_dir duration_ticks).

Definition generate_standard_range (start_note end_note : string)
    (duration_ticks : Z) : M () :=
  let output_dir := Rel ["midi_files_standard_sequential"] in
  _ ← ensure_dir output_dir;
  all_notes ← lift (all_notes_in_range 1 start_note end_note);
  created_count ← standard_range_loop output_dir duration_ticks
                     (enumerate 1 all_notes);
  print (Summary created_count).

Definition generate_all_notes_c0_to_c6 (duration_ticks : Z) : M () :=
  generate_ableton_range "C0" "C6" true duration_ticks.

Definition generate_standard_c0_to_c6 (duration_ticks : Z) : M () :=
  generate_standard_range "C0" "C6" duration_ticks.

(** Lines 408-419 of [generate_middle_c_range]. *)
Definition notes_to_generate : result (list (string * Z)) :=
  l ← mapM (fun '(octave, note_name) =>
              let display_name := note_name +:+ str octave in
              note_index ← index NOTE_NAMES note_name;
              let midi_num := (octave + 2) * 12 + note_index in
              Ok (display_name, midi_num))
           (flat_map (fun octave => map (fun n => (octave, n)) NOTE_NAMES)
                     [2; 3; 4]);
  Ok (sort_by snd l).

Definition generate_middle_c_range (duration_ticks : Z) : M () :=
  let output_dir := Rel ["middle_c_range_sequential"] in
  _ ← ensure_dir output_dir;
  original_dir ← os.getcwd;
  _ ← os.chdir output_dir;
  notes ← lift notes_to_generate;
  created_count ← for_fold (enumerate 1 notes) 0
    (fun created_count '(file_number, (display_name, midi_num)) =>
      try_except
        (let name := "Note " +:+ display_name in
         tempo ← lift (mido.bpm2tempo 120);
         on ← lift (mido.Message_note_on midi_num 64 0);
         off ← lift (mido.Message_note_off midi_num 64 duration_ticks);
         let mid := [note_track name tempo on off] in
         let filename :=
           format_0d 2 file_number +:+ " " +:+ display_name +:+ ".mid" in
         _ ← mido.save mid filename;
         _ ← print (Created filename);
         _ ← print (Detail "Track name" name);
         _ ← print (Detail "Plays at" (standard_name_of midi_num));
         mret (created_count + 1))
        (fun e => _ ← print (Skipping display_name e); mret created_count));
  _ ← os.chdir original_dir;
  print (Summary created_count).

End create_notes.

(** ** create_chords.py *)

Module create_chords.

Definition NOTE_DURATION_TICKS : Z := 3840.
Definition BPM : Z := 120.

(** The dictionary in the order it is written: key, tonality, chords. *)
Definition KEY_SIGNATURES : list (string * (string * list string)) :=
  [
   ("C Major", ("major",
      ["C Major"; "D Minor"; "E Minor"; "F Major"; "G Major"; "A Minor"; "B Diminished"]));
   ("C# Major", ("major",
      ["C# Major"; "D# Minor"; "F Minor"; "F# Major"; "G# Major"; "A# Minor"; "C Diminished"]));
   ("D Major", ("major",
      ["D Major"; "E Minor"; "F# Minor"; "G Major"; "A Major"; "B Minor"; "C# Diminished"]));
   ("D# Major", ("major",
      ["D# Major"; "F Minor"; "G Minor"; "G# Major"; "A# Major"; "C Minor"; "D Diminished"]));
   ("E Major", ("major",
      ["E Major"; "F# Minor"; "G# Minor"; "A Major"; "B Major"; "C# Minor"; "D# Diminished"]));
   ("F Major", ("major",
      ["F Major"; "G Minor"; "A Minor"; "A# Major"; "C Major"; "D Minor"; "E Diminished"]));
   ("F# Major", ("major",
      ["F# Major"; "G# Minor"; "A# Minor"; "B Major"; "C# Major"; "D# Minor"; "F Diminished"]));
   ("G Major", ("major",
      ["G Major"; "A Minor"; "B Minor"; "C Major"; "D Major"; "E Minor"; "F# Diminished"]));
   ("G# Major", ("major",
      ["G# Major"; "A# Minor"; "C Minor"; "C# Major"; "D# Major"; "F Minor"; "G Diminished"]));
   ("A Major", ("major",
      ["A Major"; "B Minor"; "C# Minor"; "D Major"; "E Major"; "F# Minor"; "G# Diminished"]));
   ("A# Major", ("major",
      ["A# Major"; "C Minor"; "D Minor"; "D# Major"; "F Major"; "G Minor"; "A Diminished"]));
   ("B Major", ("major",
      ["B Major"; "C# Minor"; "D# Minor"; "E Major"; "F# Major"; "G# Minor"; "A# Diminished"]));
   ("C Minor", ("minor",
      ["C Minor"; "D Diminished"; "Eb Major"; "F Minor"; "G Minor"; "Ab Major"; "Bb Major"]));
   ("C# Minor", ("minor",
      ["C# Minor"; "D# Diminished"; "E Major"; "F# Minor"; "G# Minor"; "A Major"; "B Major"]));
   ("D Minor", ("minor",
      ["D Minor"; "E Diminished"; "F Major"; "G Minor"; "A Minor"; "Bb Major"; "C Major"]));
   ("D# Minor", ("minor",
      ["D# Minor"; "F Diminished"; "Gb Major"; "G# Minor"; "A# Minor"; "B Major"; "C# Major"]));
   ("E Minor", ("minor",
      ["E Minor"; "F# Diminished"; "G Major"; "A Minor"; "B Minor"; "C Major"; "D Major"]));
   ("F Minor", ("minor",
      ["F Minor"; "G Diminished"; "Ab Major"; "Bb Minor"; "C Minor"; "Db Major"; "Eb Major"]));
   ("F# Minor", ("minor",
      ["F# Minor"; "G# Diminished"; "A Major"; "B Minor"; "C# Minor"; "D Major"; "E Major"]));
   ("G Minor", ("minor",
      ["G Minor"; "A Diminished"; "Bb Major"; "C Minor"; "D Minor"; "Eb Major"; "F Major"]));
   ("G# Minor", ("minor",
      ["G# Minor"; "A# Diminished"; "B Major"; "C# Minor"; "D# Minor"; "E Major"; "F# Major"]));
   ("A Minor", ("minor",
      ["A Minor"; "B Diminished"; "C Major"; "D Minor"; "E Minor"; "F Major"; "G Major"]));
   ("A# Minor", ("minor",
      ["A# Minor"; "C Diminished"; "Db Major"; "Eb Minor"; "F Minor"; "Gb Major"; "Ab Major"]));
   ("B Minor", ("minor",
      ["B Minor"; "C# Diminished"; "D Major"; "E Minor"; "F# Minor"; "G Major"; "A Major"]))
  ].

Definition note_names : list string := NOTE_NAMES.

Definition midi_to_ableton_notation (midi_note : Z) : string :=
  let note_index := midi_note mod 12 in
  let octave := midi_note / 12 - 1 in
  nth_str note_names note_index +:+ str octave.

Definition midi_to_standard_notation (midi_note : Z) : string :=
  let note_index := midi_note mod 12 in
  let octave := midi_note / 12 - 2 in
  nth_str note_names note_index +:+ str octave.

Definition midi_to_note_name (midi_note : Z) : string :=
  midi_to_standard_notation midi_note.

Definition get_intervals_description (triad_type : string) : string :=
  let t := lower triad_type in
  if String.eqb t "major"
  then "Root, Major 3rd (4 semitones), Perfect 5th (7 semitones)"
  else if String.eqb t "minor"
  then "Root, Minor 3rd (3 semitones), Perfect 5th (7 semitones)"
  else if String.eqb t "diminished"
  then "Root, Minor 3rd (3 semitones), Diminished 5th (6 semitones)"
  else if String.eqb t "augmented"
  then "Root, Major 3rd (4 semitones), Augmented 5th (8 semitones)"
  else "Unknown intervals".

(** Lines 129-150 of [create_chord_triad_midi]: the MIDI number of the
    root.  No range check is made here. *)
Definition root_midi_of (root_note : string) : result Z :=
  '(octave, root_index) ← parse_display_name root_note;
  Ok ((octave + 2) * 12 + root_index).

(** Lines 152-173: [chord_notes] for a root and a triad type. *)
Definition chord_notes_of (root_midi : Z) (triad_type : string)
  : result (list Z) :=
  let t := lower triad_type in
  '(third_midi, fifth_midi) ←
    (if String.eqb t "major" then Ok (root_midi + 4, root_midi + 7)
     else if String.eqb t "minor" then Ok (root_midi + 3, root_midi + 7)
     else if String.eqb t "diminished" then Ok (root_midi + 3, root_midi + 6)
     else if String.eqb t "augmented" then Ok (root_midi + 4, root_midi + 8)
     else Raise (ValueError (InvalidTriadType triad_type)));
  Ok [root_midi; third_midi; fifth_midi].

(** Lines 174-176: the first note outside 0..127 raises. *)
Fixpoint check_chord_range (chord_notes : list Z) : result () :=
  match chord_notes with
  | note :: rest =>
      if (note <? 0) || (127 <? note)
      then Raise (ValueError (ChordNoteOutOfRange (midi_to_note_name note)))
      else check_chord_range rest
  | [] => Ok ()
  end.

(** Lines 196-220: the track of a chord. *)
Definition chord_track (name : string) (tempo : Z)
    (on1 on2 on3 off1 off2 off3 : message) : MidiTrack :=
  [track_name name 0; set_tempo tempo 0; time_signature 4 4 24 8 0;
   on1; on2; on3; off1; off2; off3; end_of_track 0].

Definition create_chord_triad_midi (root_note triad_type : string)
    (file_number duration_ticks bpm : Z) : M MidiFile :=
  root_midi ← lift (root_midi_of root_note);
  chord_notes ← lift (chord_notes_of root_midi triad_type);
  _ ← lift (check_chord_range chord_notes);
  let third_midi := nth 1 chord_notes 0 in
  let fifth_midi := nth 2 chord_notes 0 in
  let standard_root := midi_to_standard_notation root_midi in
  let standard_third := midi_to_standard_notation third_midi in
  let standard_fifth := midi_to_standard_notation fifth_midi in
  let ableton_root := midi_to_ableton_notation root_midi in
  let ableton_third := midi_to_ableton_notation third_midi in
  let ableton_fifth := midi_to_ableton_notation fifth_midi in
  let name := root_note +:+ " " +:+ triad_type in
  tempo ← lift (mido.bpm2tempo bpm);
  on1 ← lift (mido.Message_note_on root_midi 64 0);
  on2 ← lift (mido.Message_note_on third_midi 60 0);
  on3 ← lift (mido.Message_note_on fifth_midi 56 0);
  off1 ← lift (mido.Message_note_off root_midi 64 duration_ticks);
  off2 ← lift (mido.Message_note_off third_midi 60 0);
  off3 ← lift (mido.Message_note_off fifth_midi 56 0);
  let mid := [chord_track name tempo on1 on2 on3 off1 off2 off3] in
  let filename :=
    format_0d 3 file_number +:+ " " +:+ root_note +:+ " " +:+ triad_type
      +:+ ".mid" in
  _ ← mido.save mid filename;
  _ ← print (Created filename);
  _ ← print (Detail "Track name in Ableton" name);
  _ ← print (Detail "MIDI notes in file"
               (str root_midi +:+ " (" +:+ standard_root +:+ "), "
                +:+ str third_midi +:+ " (" +:+ standard_third +:+ "), "
                +:+ str fifth_midi +:+ " (" +:+ standard_fifth +:+ ")"));
  _ ← print (Detail "Will display in piano roll as"
               (standard_root +:+ ", " +:+ standard_third +:+ ", "
                +:+ standard_fifth));
  _ ← print (Detail "Corresponds to Ableton UI as"
               (ableton_root +:+ ", " +:+ ableton_third +:+ ", "
                +:+ ableton_fifth));
  _ ← print (Detail "Intervals" (get_intervals_description triad_type));
  mret mid.

(** Lines 372-386 and 531-544: one turn of the loop over the numbered
    chords. *)
Definition chord_body (output_dir : pathname) (created_count : Z)
    (entry : Z * string * string) : M Z :=
  let '(file_number, root_note_ableton, triad_type) := entry in
  original_dir ← os.getcwd;
  _ ← os.chdir output_dir;
  created_count ← try_except
    (_ ← create_chord_triad_midi root_note_ableton triad_type file_number
           NOTE_DURATION_TICKS BPM;
     mret (created_count + 1))
    (fun e =>
       _ ← print (Skipping (root_note_ableton +:+ " " +:+ triad_type) e);
       mret created_count);
  _ ← os.chdir original_dir;
  mret created_count.

Definition chord_loop (output_dir : pathname)
    (all_chords : list (Z * string * string)) : M Z :=
  for_fold all_chords 0 (chord_body output_dir).

Definition triad_types : list string :=
  ["Major"; "Minor"; "Diminished"; "Augmented"].

(** Lines 308-363 of [generate_chord_triads_range]: the chords as
    (file number, root, type, MIDI number of the root).  [file_counter]
    starts at 1 and grows by one per chord. *)
Definition triads_in_range (start_note end_note : string)
  : result (list (Z * string * string * Z)) :=
  all_root_notes ← all_notes_in_range 2 start_note end_note;
  Ok (map (fun '(file_counter, (root_note_ableton, root_midi, triad_type)) =>
             (file_counter, root_note_ableton, triad_type, root_midi))
          (enumerate 1
             (flat_map (fun '(root_note_ableton, root_midi) =>
                          map (fun triad_type =>
                                 (root_note_ableton, root_midi, triad_type))
                              triad_types)
                       all_root_notes))).

Definition generate_chord_triads_range (start_note end_note : string)
  : M (list (Z * string * string * Z)) :=
  let main_output_dir := Rel ["midi_files_ableton_triads"] in
  _ ← ensure_dir main_output_dir;
  let safe_range_name :=
    replace "#" "sharp" ("range_" +:+ start_note +:+ "_to_" +:+ end_note) in
  let output_dir := os.path_join main_output_dir safe_range_name in
  _ ← ensure_dir output_dir;
  all_chords ← lift (triads_in_range start_note end_note);
  created_count ← chord_loop output_dir
    (map (fun '(file_number, root, triad_type, _) =>
            (file_number, root, triad_type)) all_chords);
  _ ← print (Summary created_count);
  mret all_chords.

(** [chord[:i]] and [chord[i+1:]] for the first space at [i]. *)
Fixpoint split_at_space (chord : string) : option (string * string) :=
  match chord with
  | String c rest =>
      if Ascii.eqb c " " then Some (EmptyString, rest)
      else match split_at_space rest with
           | Some (a, b) => Some (String c a, b)
           | None => None
           end
  | EmptyString => None
  end.

(** Lines 464-490: one turn of the chord parsing loop.  A chord without
    a space leaves both variables as the turn before set them. *)
Definition parse_chord (previous : option (string * string)) (chord : string)
  : result (string * string) :=
  if startswith "Ab" chord then Ok ("G#", drop_str 3 chord)
  else if startswith "Bb" chord then Ok ("A#", drop_str 3 chord)
  else if startswith "Db" chord then Ok ("C#", drop_str 3 chord)
  else if startswith "Eb" chord then Ok ("D#", drop_str 3 chord)
  else if startswith "Gb" chord then Ok ("F#", drop_str 3 chord)
  else match split_at_space chord with
       | Some parts => Ok parts
       | None => match previous with
                 | Some parts => Ok parts
                 | None => Raise NameError
                 end
       end.

Fixpoint parse_chords (previous : option (string * string))
    (chords : list string) : result (list (string * string)) :=
  match chords with
  | chord :: rest =>
      parts ← parse_chord previous chord;
      chord_data ← parse_chords (Some parts) rest;
      Ok (parts :: chord_data)
  | [] => Ok []
  end.

Definition alt_names : list (string * string) :=
  [("Ab", "G#"); ("Bb", "A#"); ("Db", "C#"); ("Eb", "D#"); ("Gb", "F#")].

Fixpoint dict_get {V} (d : list (string * V)) (k : string) : option V :=
  match d with
  | (k', v) :: d' => if String.eqb k' k then Some v else dict_get d' k
  | [] => None
  end.

(** Lines 508-517. *)
Definition root_index_of (root_note_name : string) : result Z :=
  match index note_names root_note_name with
  | Raise (ValueError _) =>
      match dict_get alt_names root_note_name with
      | Some sharp => index note_names sharp
      | None => Raise (ValueError (InvalidChordNoteName root_note_name))
      end
  | r => r
  end.

(** Lines 493-523 of [generate_key_chords]: the chords as (file number,
    root, type, MIDI number of the root, octave), octave by octave in
    the order of the key's chord list. *)
Definition key_chords (chord_data : list (string * string)) (octaves : Z)
  : result (list (Z * string * string * Z * Z)) :=
  let start_octave := 3 in
  l ← mapM (fun '(octave, (root_note_name, triad_type)) =>
              let root_note_ableton := root_note_name +:+ str octave in
              root_index ← root_index_of root_note_name;
              let root_midi := (octave + 2) * 12 + root_index in
              Ok (root_note_ableton, triad_type, root_midi, octave))
           (flat_map (fun octave => map (fun c => (octave, c)) chord_data)
                     (range start_octave (start_octave + octaves)));
  Ok (map (fun '(file_counter, (root, triad_type, root_midi, octave)) =>
             (file_counter, root, triad_type, root_midi, octave))
          (enumerate 1 l)).

Definition generate_key_chords (key_signature : string) (octaves : Z)
  : M (list (Z * string * string * Z * Z)) :=
  match dict_get KEY_SIGNATURES key_signature with
  | None => raise (InvalidKeySignature key_signature)
  | Some (tonality, chords) =>
      let main_output_dir := Rel ["midi_files_ableton_triads"] in
      _ ← ensure_dir main_output_dir;
      let safe_key_name :=
        replace "#" "sharp" (replace " " "_" key_signature) in
      let output_dir :=
        os.path_join main_output_dir ("key_" +:+ safe_key_name) in
      _ ← ensure_dir output_dir;
      chord_data ← lift (parse_chords None chords);
      all_chords ← lift (key_chords chord_data octaves);
      created_count ← chord_loop output_dir
        (map (fun '(file_number, root, triad_type, _, _) =>
                (file_number, root, triad_type)) all_chords);
      _ ← print (Summary created_count);
      mret all_chords
  end.

(** [sorted(KEY_SIGNATURES.keys())] *)
Fixpoint insert_key (k : string) (l : list string) : list string :=
  match l with
  | k' :: l' => if String.ltb k k' then k :: k' :: l' else k' :: insert_key k l'
  | [] => [k]
  end.

Definition sorted_keys : list string :=
  fold_left (fun acc k => insert_key k acc) (map fst KEY_SIGNATURES) [].

Definition generate_all_key_chords (octaves : Z)
  : M (list (string * list (Z * string * string * Z * Z))) :=
  for_fold sorted_keys [] (fun all_results key_signature =>
    try_except_any
      (chords ← generate_key_chords key_signature octaves;
       mret ((all_results ++ [(key_signature, chords)])%list))
      (fun e => _ ← print (Failed key_signature e); mret all_results)).

Definition generate_C3_to_C5_triads : M (list (Z * string * string * Z)) :=
  generate_chord_triads_range "C3" "C5".

End create_chords.

(** ** The table scripts

    pianist_notes.py, beatmaker_notes.py, vguitarist_notes.py,
    playbeat_notes.py, usynth_notes.py, s-horns_notes.py,
    drummer_notes.py, vbassist_notes.py, subcraft_notes.py,
    spotlight_notes.py and drumlab_notes.py are one text with a different
    table, folder, note parsing and duration. *)

Module table_scripts.

Inductive parsing :=
| BySlice   (** [file_note[:-1]] and [int(file_note[-1])] *)
| ByRegex.  (** [re.match(r"^([A-G]#?)(-?\d+)$", file_note)] *)

Record script := Script {
  output_dir : string;
  parsing_of : parsing;
  note_duration : Z;
  (** subcraft_notes.py appends the note-on and note-off pair twice *)
  note_twice : bool
}.

Definition pianist := Script "notes_pianist" BySlice 1920 false.
Definition beatmaker := Script "notes_beatmaker" BySlice 1920 false.
Definition vguitarist := Script "notes_v-guitarist" BySlice 1920 false.
Definition playbeat := Script "notes_playbeat" BySlice (16 * 480) false.
Definition usynth := Script "notes_usynth" BySlice (8 * 480) false.
Definition s_horns := Script "notes_s-horns" BySlice 1920 false.
Definition drummer := Script "notes_drummer" BySlice 1920 false.
Definition vbassist := Script "notes_v-bassist" BySlice 1920 false.
Definition subcraft := Script "notes_subcraft" BySlice (8 * 480) true.
Definition spotlight := Script "notes_spotlight" ByRegex 1920 false.
Definition drumlab := Script "notes_drumlab" ByRegex 1920 false.

Definition all_scripts : list script :=
  [pianist; beatmaker; vguitarist; playbeat; usynth; s_horns; drummer;
   vbassist; subcraft; spotlight; drumlab].

(** An entry of [notes_data]. *)
Record note_info := NoteInfo {
  file_note : string;
  info_track_name : string
}.

(** The table of beatmaker_notes.py. *)
Definition beatmaker_notes_data : list note_info :=
  [NoteInfo "C#1" "Intro C#1"; NoteInfo "D#1" "Fill D#1";
   NoteInfo "F#1" "Verse 1 F#1"; NoteInfo "G#1" "Verse 2 G#1";
   NoteInfo "A#1" "Fill A#1"; NoteInfo "C#2" "Chorus 1 C#2";
   NoteInfo "D#2" "Chorus 2 D#2"; NoteInfo "F#2" "Break F#2";
   NoteInfo "G#2" "Special G#2"; NoteInfo "A#2" "Ending A#2"].

(** An entry of [notes_with_midi]. *)
Record note_with_midi := NoteWithMidi {
  nm_file_note : string;
  nm_track_name : string;
  midi : Z;
  nm_note_name : string;
  nm_octave : Z;
  nm_note_index : Z
}.

Definition note_names : list string := NOTE_NAMES.

(** [s[:-1]] and [s[-1]]; [None] for the empty text. *)
Fixpoint split_last (s : string) : option (string * ascii) :=
  match s with
  | EmptyString => None
  | String c s' =>
      match split_last s' with
      | None => Some (EmptyString, c)
      | Some (init, last) => Some (String c init, last)
      end
  end.

Definition parse_by_slice (file_note : string) : result (string * Z) :=
  match split_last file_note with
  | None => Raise IndexError
  | Some (note_name, last) =>
      octave ← int (String last EmptyString);
      Ok (note_name, octave)
  end.

Definition parse_by_regex (file_note : string) : result (string * Z) :=
  match re.match_note_anchored file_note with
  | None => Raise (ValueError (InvalidNoteFormat file_note))
  | Some (note_name, octave_text) =>
      octave ← int octave_text;
      Ok (note_name, octave)
  end.

Definition parse_note (p : parsing) (file_note : string)
  : result (string * Z) :=
  match p with
  | BySlice => parse_by_slice file_note
  | ByRegex => parse_by_regex file_note
  end.

(** One turn of the first loop: parse, look the name up, compute the
    MIDI number. *)
Definition with_midi (p : parsing) (info : note_info) : result note_with_midi :=
  '(note_name, octave) ← parse_note p (file_note info);
  note_index ← index note_names note_name;
  let ableton_midi := (octave + 2) * 12 + note_index in
  Ok (NoteWithMidi (file_note info) (info_track_name info) ableton_midi
        note_name octave note_index).

(** [notes_with_midi] after the sort. *)
Definition notes_with_midi (p : parsing) (notes_data : list note_info)
  : result (list note_with_midi) :=
  l ← mapM (with_midi p) notes_data;
  Ok (sort_by midi l).

(** [440.0 * (2.0 ** ((ableton_midi - 69) / 12.0))] is left out of the
    model but for its failure: the power overflows, and Python raises
    [OverflowError], from the exponent 1024 on.  The division fails as
    well for a number beyond the float range on either side (about
    [2 ^ 1024] in size), which the model leaves out on the low side. *)
Definition frequency_defined (ableton_midi : Z) : result () :=
  if 69 + 12 * 1024 <=? ableton_midi then Raise OverflowError else Ok ().

Definition standard_name_of (ableton_midi : Z) : string :=
  let standard_octave := ableton_midi / 12 - 1 in
  let standard_note_index := ableton_midi mod 12 in
  nth_str note_names standard_note_index +:+ str standard_octave.

Definition table_track (twice : bool) (name : string) (tempo : Z)
    (on off : message) : MidiTrack :=
  ([track_name name 0; set_tempo tempo 0; time_signature 4 4 24 8 0]
   ++ [on; off] ++ (if twice then [on; off] else []) ++ [end_of_track 0])%list.

(** One turn of the second loop. *)
Definition write_note (s : script) (file_number : Z) (n : note_with_midi)
  : M () :=
  let standard_name := standard_name_of (midi n) in
  _ ← lift (frequency_defined (midi n));
  tempo ← lift (mido.bpm2tempo 120);
  on ← lift (mido.Message_note_on (midi n) 64 0);
  off ← lift (mido.Message_note_off (midi n) 64 (note_duration s));
  let mid := [table_track (note_twice s) (nm_track_name n) tempo on off] in
  let safe_filename := replace " " "_" (nm_track_name n) in
  let filename := format_0d 2 file_number +:+ " " +:+ safe_filename +:+ ".mid" in
  _ ← mido.save mid filename;
  _ ← print (Created filename);
  match parsing_of s with
  | BySlice =>
      _ ← print (Detail "Track name in Ableton" (nm_track_name n));
      _ ← print (Detail "Note" (nm_file_note n));
      _ ← print (Detail "MIDI note" (str (midi n)));
      print (Detail "Plays at" standard_name)
  | ByRegex =>
      (* spotlight_notes.py and drumlab_notes.py report three lines *)
      _ ← print (Detail "Note" (nm_file_note n));
      _ ← print (Detail "MIDI" (str (midi n)));
      print (Detail "Pitch" standard_name)
  end.

(** The script from its first line to the end of the loop that writes
    the files; the table of files printed after it changes nothing but
    the console. *)
Definition run (s : script) (notes_data : list note_info) : M () :=
  _ ← ensure_dir (Rel [output_dir s]);
  notes ← lift (notes_with_midi (parsing_of s) notes_data);
  original_dir ← os.getcwd;
  _ ← os.chdir (Rel [output_dir s]);
  _ ← for_each (enumerate 1 notes) (fun '(file_number, n) =>
         write_note s file_number n);
  os.chdir original_dir.

End table_scripts.

(** ** The generators *)

(** Every entry point of the repository with its parameters. *)
Inductive generator :=
| GenerateAbletonRange (start_note end_note : string)
    (include_track_names : bool) (duration_ticks : Z)
| GenerateStandardRange (start_note end_note : string) (duration_ticks : Z)
| GenerateMiddleCRange (duration_ticks : Z)
| GenerateChordTriadsRange (start_note end_note : string)
| GenerateKeyChords (key_signature : string) (octaves : Z)
| GenerateAllKeyChords (octaves : Z)
| TableScript (s : table_scripts.script)
    (notes_data : list table_scripts.note_info).

Definition discard {A} (m : M A) : M () := _ ← m; mret ().

Definition run_generator (g : generator) : M () :=
  match g with
  | GenerateAbletonRange s e names d =>
      create_notes.generate_ableton_range s e names d
  | GenerateStandardRange s e d => create_notes.generate_standard_range s e d
  | GenerateMiddleCRange d => create_notes.generate_middle_c_range d
  | GenerateChordTriadsRange s e =>
      discard (create_chords.generate_chord_triads_range s e)
  | GenerateKeyChords k n => discard (create_chords.generate_key_chords k n)
  | GenerateAllKeyChords n => discard (create_chords.generate_all_key_chords n)
  | TableScript s notes_data => table_scripts.run s notes_data
  end.

(** The note duration a generator is run with. *)
Definition duration_of (g : generator) : Z :=
  match g with
  | GenerateAbletonRange _ _ _ d => d
  | GenerateStandardRange _ _ d => d
  | GenerateMiddleCRange d => d
  | TableScript s _ => table_scripts.note_duration s
  | _ => create_chords.NOTE_DURATION_TICKS
  end.

(** * Specifications *)

(** ** What a script does to the world

    The scripts never read a file back.  What one does is a list of
    effects on absolute paths. *)

Inductive effect :=
| MkDir (p : list string)
| WriteFile (p : list string) (mid : MidiFile)
| Print (n : notice).

Definition apply_effect (w : world) (e : effect) : world :=
  match e with
  | MkDir p => World (cwd w) ({[p]} ∪ dirs w) (files w) (console w)
  | WriteFile p mid => World (cwd w) (dirs w) (<[p := mid]> (files w)) (console w)
  | Print n => World (cwd w) (dirs w) (files w) (console w ++ [n])
  end.

Definition apply_effects (es : list effect) (w : world) : world :=
  fold_left apply_effect es w.

Definition set_cwd (c : list string) (w : world) : world :=
  World c (dirs w) (files w) (console w).

Definition effect_good (good : MidiFile -> Prop) (e : effect) : Prop :=
  match e with
  | WriteFile _ mid => good mid
  | _ => True
  end.

(** [traced good m]: from a given working directory, [m] returns the
    same result, ends in the same directory and performs the same list
    of effects whatever the directories, files and console were, and
    every file it writes is [good]. *)
Definition traced {A} (good : MidiFile -> Prop) (m : M A) : Prop :=
  forall c, exists r c' es,
    Forall (effect_good good) es /\
    forall w, cwd w = c -> m w = (r, set_cwd c' (apply_effects es w)).

(** ** Pairing of note-on and note-off *)

Definition delta_time (m : message) : Z :=
  match m with
  | track_name _ t | set_tempo _ t | time_signature _ _ _ _ t
  | note_on _ _ t | note_off _ _ t | end_of_track t => t
  end.

(** The messages of a track with their absolute times. *)
Fixpoint absolute_from (now : Z) (t : MidiTrack) : list (message * Z) :=
  match t with
  | m :: t' => (m, now + delta_time m) :: absolute_from (now + delta_time m) t'
  | [] => []
  end.
Definition absolute_times (t : MidiTrack) : list (message * Z) :=
  absolute_from 0 t.

(** The first sounding note of pitch [p]: the time it began and the
    notes that go on sounding. *)
Fixpoint take_sounding (p : Z) (sounding : list (Z * Z))
  : option (Z * list (Z * Z)) :=
  match sounding with
  | (q, t) :: rest =>
      if q =? p then Some (t, rest)
      else match take_sounding p rest with
           | Some (t', rest') => Some (t', (q, t) :: rest')
           | None => None
           end
  | [] => None
  end.

(** Every note-off ends one sounding note of its pitch that began no
    later, and no note sounds when the track ends. *)
Fixpoint paired_from (sounding : list (Z * Z)) (t : list (message * Z))
  : bool :=
  match t with
  | (note_on p _ _, at_) :: t' => paired_from (sounding ++ [(p, at_)]) t'
  | (note_off p _ _, at_) :: t' =>
      match take_sounding p sounding with
      | Some (began, rest) => (began <=? at_) && paired_from rest t'
      | None => false
      end
  | _ :: t' => paired_from sounding t'
  | [] => match sounding with [] => true | _ => false end
  end.

Definition paired_track (t : MidiTrack) : bool :=
  paired_from [] (absolute_times t).

Definition paired (mid : MidiFile) : Prop :=
  Forall (fun t => paired_track t = true) mid.

Definition count_note_on (p : Z) (t : MidiTrack) : nat :=
  List.length (List.filter (fun m => match m with
                                     | note_on q _ _ => q =? p
                                     | _ => false end) t).

Definition count_note_off (p : Z) (t : MidiTrack) : nat :=
  List.length (List.filter (fun m => match m with
                                     | note_off q _ _ => q =? p
                                     | _ => false end) t).

(** ** The order of the emitted events *)

Definition is_note_on (m : message) : bool :=
  match m with note_on _ _ _ => true | _ => false end.
Definition is_note_off (m : message) : bool :=
  match m with note_off _ _ _ => true | _ => false end.
Definition note_of (m : message) : Z :=
  match m with note_on p _ _ | note_off p _ _ => p | _ => -1 end.

(** Name (if any), tempo, time signature; a note-on per pitch at delta
    time 0; a note-off per pitch, all at the absolute time [duration];
    the end marker. *)
Definition emitted_in_order (pitches : list Z) (duration : Z) (t : MidiTrack)
  : Prop :=
  exists name tempo ons offs,
    t = (name ++ [set_tempo tempo 0; time_signature 4 4 24 8 0]
         ++ ons ++ offs ++ [end_of_track 0])%list /\
    (name = [] \/ exists n, name = [track_name n 0]) /\
    Forall (fun m => is_note_on m = true /\ delta_time m = 0) ons /\
    map note_of ons = pitches /\
    Forall (fun m => is_note_off m = true) offs /\
    map note_of offs = pitches /\
    (forall m at_, In (m, at_) (absolute_times t) ->
       (is_note_on m = true -> at_ = 0) /\
       (is_note_off m = true -> at_ = duration)).

(** ** Numbering *)




(** ** Skipping an entry *)


(** The content the effects leave at path [p], if they write it. *)
Fixpoint last_write (p : list string) (es : list effect) : option MidiFile :=
  match es with
  | WriteFile q mid :: es' =>
      match last_write p es' with
      | Some mid' => Some mid'
      | None => if decide (q = p) then Some mid else None
      end
  | _ :: es' => last_write p es'
  | [] => None
  end.

(** ** Running a generator again *)

(** A second run starts where the first one started, on the files the
    first one left. *)
Definition run_again (g : generator) (w : world) : result () * world :=
  run_generator g (set_cwd (cwd w) (run_generator g w).2).

(** Every file of the world is well paired. *)
Definition all_paired (w : world) : Prop :=
  map_Forall (fun _ mid => paired mid) (files w).

(** ** Triads *)

(** The interval pattern of a triad type as the specification gives it,
    semitones above the root; the tag is read without regard to case, as
    the chord builder reads it. *)
Definition spec_triad_offsets (triad_type : string) : option (list Z) :=
  let t := lower triad_type in
  if String.eqb t "major" then Some [0; 4; 7]
  else if String.eqb t "minor" then Some [0; 3; 7]
  else if String.eqb t "diminished" then Some [0; 3; 6]
  else if String.eqb t "augmented" then Some [0; 4; 8]
  else None.

(** The pitches of the note-on messages of a file, in order. *)
Definition note_on_pitches (mid : MidiFile) : list Z :=
  flat_map (fun t => map note_of (List.filter is_note_on t)) mid.

(** ** Errors *)

(** A result that is a value or a [ValueError], the one exception the
    batch loops catch. *)
Definition value_or_ValueError {A} (r : result A) : Prop :=
  match r with
  | Ok _ | Raise (ValueError _) => True
  | Raise _ => False
  end.


(** ** Octave texts *)

(** The octave part of a note name, [-?\d+]. *)
Definition is_octave_text (o : string) : bool :=
  match o with
  | String "-" ds => all_digits ds && negb (String.eqb ds "")
  | _ => all_digits o && negb (String.eqb o "")
  end.

(** ** The match after the note name *)

(** What [re.match_note] does once the first group [g1] is fixed: the
    optional minus sign, the digits, and what is left. *)
Definition match_octave (g1 s2 : string) : option (string * string * string) :=
  let '(sign, s3) := match s2 with
                     | String "-" s' => ("-", s')
                     | _ => ("", s2)
                     end in
  let '(ds, rest) := span_digits s3 in
  if String.eqb ds "" then None else Some (g1, sign +:+ ds, rest).

(** A text that does not go on with a digit. *)
Definition no_digit_ahead (rest : string) : Prop :=
  match rest with
  | String c _ => is_digit c = false
  | EmptyString => True
  end.

(** The name the range loops build from an index and an octave:
    [f"{NOTE_NAMES[note_idx]}{octave}"]. *)
Definition note_text (note_idx octave : Z) : string :=
  nth_str NOTE_NAMES note_idx +:+ str octave.

(** ** The arguments the model covers

    The model leaves out what the code does with arguments that no MIDI
    file can hold.  The report lines divide [duration_ticks] by 1920 (by
    480 in create_chords.py) as floats, which raises [OverflowError]
    beyond the float range, and [mid.save] raises [ValueError] on a
    negative delta time; [MetaMessage('set_tempo', ...)] raises
    [ValueError] unless the tempo fits in 24 bits; [open] fails on a
    file name with a path separator or a NUL character or of more than
    255 bytes.  The theorems that say that a file is written or
    that a driver returns carry the matching hypotheses. *)

(** The largest delta time of a standard MIDI file, four bytes of a
    variable-length quantity. *)
Definition MAX_DELTA_TIME : Z := 268435455.

Definition valid_duration (duration_ticks : Z) : Prop :=
  0 <= duration_ticks <= MAX_DELTA_TIME.

(** The tempi [set_tempo] accepts are 0..16777215 microseconds per
    beat; from 4 to 60000000 beats per minute [mido.bpm2tempo] gives
    15000000 down to 1. *)
Definition valid_bpm (bpm : Z) : Prop := 4 <= bpm <= 60000000.

Fixpoint has_char (c : ascii) (s : string) : bool :=
  match s with
  | String d s' => Ascii.eqb d c || has_char c s'
  | EmptyString => false
  end.

(** A name [open] can create in an existing folder: no path separator,
    no NUL character, and short enough for the 255 bytes of a file name
    however its characters are encoded. *)
Definition file_name_ok (filename : string) : bool :=
  negb (has_char "/" filename) && negb (has_char (ascii_of_N 0) filename)
  && (String.length filename <=? 127)%nat.

(** ** What the range drivers do, entry by entry *)

Definition in_midi_range (m : Z) : bool := negb ((m <? 0) || (127 <? m)).

(** The effects of one turn of the loop of [generate_ableton_range] on
    the entry with file number [file_number] and MIDI number [m], in
    the output directory [dir]. *)
Definition ableton_note_effects (names : bool) (dir : list string) (d : Z)
    (entry : Z * Z) : list effect :=
  let '(file_number, m) := entry in
  let name := create_notes.ableton_display_of m in
  let filename := format_0d 2 file_number +:+ " " +:+ name +:+ ".mid" in
  if names then
    if in_midi_range m then
      [WriteFile (dir ++ [filename])
         [[track_name ("Note " +:+ name) 0; set_tempo 500000 0;
           time_signature 4 4 24 8 0; note_on m 64 0; note_off m 64 d;
           end_of_track 0]];
       Print (Created filename);
       Print (Detail "Track name in Ableton" ("Note " +:+ name));
       Print (Detail "Note" name);
       Print (Detail "Plays at" (create_notes.standard_name_of m));
       Print (Detail "MIDI note in file" (str m))]
    else [Print (Skipping name (OutOfRange name m))]
  else
    if in_midi_range m then
      [WriteFile (dir ++ [filename]) [[note_on m 64 0; note_off m 64 d]];
       Print (Created filename)]
    else [Print (Skipping name (DataByteOutOfRange m))].

(** The same for [generate_standard_range]. *)
Definition standard_note_effects (dir : list string) (d : Z)
    (entry : Z * Z) : list effect :=
  let '(file_number, m) := entry in
  let name := create_notes.standard_name_of m in
  let filename :=
    format_0d 2 file_number +:+ " " +:+ name +:+ "_standard.mid" in
  if in_midi_range m then
    [WriteFile (dir ++ [filename])
       [[track_name ("Note " +:+ name +:+ " (Standard)") 0;
         set_tempo 500000 0; time_signature 4 4 24 8 0;
         note_on m 64 0; note_off m 64 d; end_of_track 0]];
     Print (Created filename);
     Print (Detail "Track name in Ableton"
              ("Note " +:+ name +:+ " (Standard)"));
     Print (Detail "Standard notation" name);
     Print (Detail "Will display in Ableton as"
              (create_notes.ableton_display_of m));
     Print (Detail "MIDI note in file" (str m))]
  else [Print (Skipping name (OutOfRange name m))].

(** How many MIDI numbers of [a..b] lie in 0..127. *)
Definition count_in_midi_range (a b : Z) : Z :=
  Z.max 0 (Z.min b 127 - Z.max a 0 + 1).

(** The effects of one turn of the loop of [generate_middle_c_range]. *)
Definition middle_c_note_effects (dir : list string) (d : Z)
    (entry : Z * Z) : list effect :=
  let '(file_number, m) := entry in
  let name := create_notes.ableton_display_of m in
  let filename := format_0d 2 file_number +:+ " " +:+ name +:+ ".mid" in
  [WriteFile (dir ++ [filename])
     [[track_name ("Note " +:+ name) 0; set_tempo 500000 0;
       time_signature 4 4 24 8 0; note_on m 64 0; note_off m 64 d;
       end_of_track 0]];
   Print (Created filename);
   Print (Detail "Track name" ("Note " +:+ name));
   Print (Detail "Plays at" (create_notes.standard_name_of m))].

(** ** What a table script does, entry by entry *)

(** The effects of one turn of the writing loop of a table script in
    the output directory [dir]. *)
Definition table_note_effects (s : table_scripts.script) (dir : list string)
    (entry : Z * table_scripts.note_with_midi) : list effect :=
  let '(file_number, n) := entry in
  let m := table_scripts.midi n in
  let name := table_scripts.nm_track_name n in
  let filename :=
    format_0d 2 file_number +:+ " " +:+ replace " " "_" name +:+ ".mid" in
  let d := table_scripts.note_duration s in
  [WriteFile (dir ++ [filename])
     [if table_scripts.note_twice s
      then [track_name name 0; set_tempo 500000 0; time_signature 4 4 24 8 0;
            note_on m 64 0; note_off m 64 d; note_on m 64 0; note_off m 64 d;
            end_of_track 0]
      else [track_name name 0; set_tempo 500000 0; time_signature 4 4 24 8 0;
            note_on m 64 0; note_off m 64 d; end_of_track 0]];
   Print (Created filename)]
  ++ match table_scripts.parsing_of s with
     | table_scripts.BySlice =>
         [Print (Detail "Track name in Ableton" name);
          Print (Detail "Note" (table_scripts.nm_file_note n));
          Print (Detail "MIDI note" (str m));
          Print (Detail "Plays at" (table_scripts.standard_name_of m))]
     | table_scripts.ByRegex =>
         [Print (Detail "Note" (table_scripts.nm_file_note n));
          Print (Detail "MIDI" (str m));
          Print (Detail "Pitch" (table_scripts.standard_name_of m))]
     end.

(** The exception that ends a table script at a MIDI number outside
    0..127: the frequency is computed first and overflows from the
    exponent 1024 on; below that the message constructor refuses the
    number. *)
Definition table_abort (m : Z) : exn :=
  if 69 + 12 * 1024 <=? m then OverflowError
  else ValueError (DataByteOutOfRange m).

(** ** The working directory *)

(** [m] ends in the directory it started in, whether it returns or
    raises. *)
Definition keeps_cwd {A} (m : M A) : Prop :=
  forall w, cwd (m w).2 = cwd w.

(** [m] raises nothing but [ValueError]. *)
Definition raises_only_ValueError {A} (m : M A) : Prop :=
  forall w, value_or_ValueError (m w).1.

(** [m] returns. *)
Definition returns {A} (m : M A) : Prop :=
  forall w, exists a w', m w = (Ok a, w').

(** ** The triads of a range *)


(** ** The key table *)

(** The position of the root of a chord of the key table. *)
Definition pitch_class (root : string) : Z :=
  match create_chords.root_index_of root with
  | Ok i => i
  | Raise _ => 0
  end.

(** The chords of a key over [octaves] octaves from octave 3, numbered
    from 1: file number, root, type, MIDI number of the root, octave. *)
Definition key_chord_list (chord_data : list (string * string)) (octaves : Z)
  : list (Z * string * string * Z * Z) :=
  map (fun x : Z * (Z * (string * string)) =>
         (x.1, x.2.2.1 +:+ str x.2.1, x.2.2.2,
          (x.2.1 + 2) * 12 + pitch_class x.2.2.1, x.2.1))
      (enumerate 1
         (flat_map (fun octave => map (fun c => (octave, c)) chord_data)
                   (range 3 (3 + octaves)))).

(** A chord of the table that the driver can resolve: a root with a
    position and a triad type the chord builder knows. *)
Definition chord_resolves (c : string * string) : bool :=
  match create_chords.root_index_of c.1 with
  | Ok i => (0 <=? i) && (i <? 12)
  | Raise _ => false
  end
  && match spec_triad_offsets c.2 with
     | Some _ => true
     | None => false
     end.

Definition key_resolves (chords : list string) : bool :=
  match create_chords.parse_chords None chords with
  | Ok chord_data =>
      Nat.eqb (List.length chord_data) 7 && forallb chord_resolves chord_data
  | Raise _ => false
  end.

(** * Proofs *)

(** ** Effects *)

Lemma apply_effects_app es1 es2 w :
  apply_effects (es1 ++ es2) w = apply_effects es2 (apply_effects es1 w).
Proof. unfold apply_effects. apply fold_left_app. Qed.

Lemma cwd_apply_effects es w : cwd (apply_effects es w) = cwd w.
Proof.
  revert w. induction es as [|e es IH]; intros w; [reflexivity|].
  cbn. rewrite IH. destruct e; reflexivity.
Qed.

Lemma apply_effects_set_cwd es c w :
  apply_effects es (set_cwd c w) = set_cwd c (apply_effects es w).
Proof.
  revert w. induction es as [|e es IH]; intros w; [reflexivity|].
  cbn. rewrite <- IH. f_equal. destruct e; reflexivity.
Qed.

Lemma set_cwd_twice c c' w : set_cwd c (set_cwd c' w) = set_cwd c w.
Proof. reflexivity. Qed.

Lemma set_cwd_same w : set_cwd (cwd w) w = w.
Proof. destruct w; reflexivity. Qed.

Lemma traced_intro {A} good (m : M A) :
  (forall c, exists r c' es, Forall (effect_good good) es /\
     forall w, cwd w = c -> m w = (r, set_cwd c' (apply_effects es w))) ->
  traced good m.
Proof. intros H; exact H. Qed.

Lemma traced_ret {A} good (a : A) : traced good (mret a).
Proof.
  intros c. exists (Ok a), c, []. split; [constructor|].
  intros w <-. cbn. by rewrite set_cwd_same.
Qed.

Lemma traced_lift {A} good (r : result A) : traced good (lift r).
Proof.
  intros c. exists r, c, []. split; [constructor|].
  intros w <-. cbn. unfold lift. by rewrite set_cwd_same.
Qed.

Lemma traced_raise {A} good e : traced good (@raise A e).
Proof. apply traced_lift. Qed.

Lemma traced_bind {A B} good (m : M A) (k : A -> M B) :
  traced good m -> (forall a, traced good (k a)) -> traced good (m ≫= k).
Proof.
  intros Hm Hk c. destruct (Hm c) as (r & c' & es & Hes & Hrun).
  destruct r as [a|e].
  - destruct (Hk a c') as (r2 & c'' & es2 & Hes2 & Hrun2).
    exists r2, c'', (es ++ es2)%list. split; [by apply Forall_app|].
    intros w Hw. unfold mbind, M_bind. rewrite (Hrun w Hw).
    rewrite Hrun2 by reflexivity.
    by rewrite apply_effects_set_cwd, set_cwd_twice, apply_effects_app.
  - exists (Raise e), c', es. split; [done|].
    intros w Hw. unfold mbind, M_bind. by rewrite (Hrun w Hw).
Qed.

(** A bound pure step: its value is known to the rest. *)
Lemma traced_bind_lift {A B} good (r : result A) (k : A -> M B) :
  (forall a, r = Ok a -> traced good (k a)) -> traced good (lift r ≫= k).
Proof.
  intros Hk. destruct r as [a|e].
  - intros c. destruct (Hk a eq_refl c) as (r2 & c'' & es2 & Hes2 & Hrun2).
    exists r2, c'', es2. split; [done|]. intros w Hw.
    unfold mbind, M_bind, lift. by apply Hrun2.
  - intros c. exists (Raise e), c, []. split; [constructor|].
    intros w <-. unfold mbind, M_bind, lift. cbn. by rewrite set_cwd_same.
Qed.

Lemma traced_try_except {A} good (m : M A) h :
  traced good m -> (forall e, traced good (h e)) ->
  traced good (try_except m h).
Proof.
  intros Hm Hh c. destruct (Hm c) as (r & c' & es & Hes & Hrun).
  destruct r as [a|[e| | | |]];
    try (eexists _, c', es; split; [done|]; intros w Hw;
         unfold try_except; by rewrite (Hrun w Hw)).
  destruct (Hh e c') as (r2 & c'' & es2 & Hes2 & Hrun2).
  exists r2, c'', (es ++ es2)%list. split; [by apply Forall_app|].
  intros w Hw. unfold try_except. rewrite (Hrun w Hw).
  rewrite Hrun2 by reflexivity.
  by rewrite apply_effects_set_cwd, set_cwd_twice, apply_effects_app.
Qed.

Lemma traced_try_except_any {A} good (m : M A) h :
  traced good m -> (forall e, traced good (h e)) ->
  traced good (try_except_any m h).
Proof.
  intros Hm Hh c. destruct (Hm c) as (r & c' & es & Hes & Hrun).
  destruct r as [a|e].
  - exists (Ok a), c', es; split; [done|]; intros w Hw.
    unfold try_except_any; by rewrite (Hrun w Hw).
  - destruct (Hh e c') as (r2 & c'' & es2 & Hes2 & Hrun2).
    exists r2, c'', (es ++ es2)%list. split; [by apply Forall_app|].
    intros w Hw. unfold try_except_any. rewrite (Hrun w Hw).
    rewrite Hrun2 by reflexivity.
    by rewrite apply_effects_set_cwd, set_cwd_twice, apply_effects_app.
Qed.

Lemma traced_for_fold {A S} good (l : list A) (acc : S) body :
  (forall acc x, In x l -> traced good (body acc x)) ->
  traced good (for_fold l acc body).
Proof.
  revert acc. induction l as [|x l IH]; intros acc Hb; cbn.
  - apply traced_ret.
  - apply traced_bind; [apply Hb; by left|].
    intros acc'. apply IH. intros; apply Hb; by right.
Qed.

Lemma traced_for_each {A} good (l : list A) body :
  (forall x, In x l -> traced good (body x)) ->
  traced good (for_each l body).
Proof.
  induction l as [|x l IH]; intros Hb; cbn.
  - apply traced_ret.
  - apply traced_bind; [apply Hb; by left|].
    intros _. apply IH. intros; apply Hb; by right.
Qed.

Lemma traced_getcwd good : traced good os.getcwd.
Proof.
  intros c. exists (Ok (Abs c)), c, []. split; [constructor|].
  intros w <-. unfold os.getcwd. cbn. by rewrite set_cwd_same.
Qed.

Lemma traced_chdir good p : traced good (os.chdir p).
Proof.
  intros c. exists (Ok ()), (resolve c p), []. split; [constructor|].
  intros w <-. reflexivity.
Qed.

Lemma traced_print good n : traced good (print n).
Proof.
  intros c. exists (Ok ()), c, [Print n]. split; [repeat constructor|].
  intros w <-. reflexivity.
Qed.

Lemma traced_save (good : MidiFile -> Prop) mid filename :
  good mid -> traced good (mido.save mid filename).
Proof.
  intros Hg c. exists (Ok ()), c, [WriteFile (resolve c (Rel [filename])) mid].
  split; [by repeat constructor|]. intros w <-. reflexivity.
Qed.

Lemma traced_ensure_dir good p : traced good (ensure_dir p).
Proof.
  intros c. exists (Ok ()), c, [MkDir (resolve c p)].
  split; [repeat constructor|]. intros w <-.
  unfold ensure_dir, mbind, M_bind, os.path_exists. cbn.
  case_bool_decide as Hin; cbn; [|reflexivity].
  unfold set_cwd; cbn. destruct w as [c d f o]; cbn in *.
  replace ({[resolve c p]} ∪ d) with d; [done|].
  symmetry. apply subseteq_union_1_L. by apply singleton_subseteq_l.
Qed.

Lemma traced_discard {A} good (m : M A) :
  traced good m -> traced good (discard m).
Proof. intros H. apply traced_bind; [done|]. intros; apply traced_ret. Qed.

Ltac traced_step :=
  cbv beta zeta;
  lazymatch goal with
  | |- traced _ (lift _ ≫= _) => apply traced_bind_lift; intros ? ?
  | |- traced _ (_ ≫= _) => apply traced_bind; [|intros ?]
  | |- traced _ (mret _) => apply traced_ret
  | |- traced _ (lift _) => apply traced_lift
  | |- traced _ (raise _) => apply traced_raise
  | |- traced _ (print _) => apply traced_print
  | |- traced _ os.getcwd => apply traced_getcwd
  | |- traced _ (os.chdir _) => apply traced_chdir
  | |- traced _ (ensure_dir _) => apply traced_ensure_dir
  | |- traced _ (discard _) => apply traced_discard
  | |- traced _ (try_except _ _) => apply traced_try_except; [|intros ?]
  | |- traced _ (try_except_any _ _) =>
      apply traced_try_except_any; [|intros ?]
  | |- traced _ (mido.save _ _) => apply traced_save
  | |- traced _ (if ?b then _ else _) => destruct b
  | |- traced _ (match ?x with _ => _ end) => destruct x
  end.

(** ** Pairing in the tracks the scripts build *)

Lemma Message_note_on_Ok n v t m :
  mido.Message_note_on n v t = Ok m -> m = note_on n v t /\ 0 <= n <= 127.
Proof.
  unfold mido.Message_note_on, mido.check_data_byte.
  destruct (orb (n <? 0) (127 <? n)) eqn:Hn; [discriminate|].
  destruct (orb (v <? 0) (127 <? v)); [discriminate|].
  cbn. intros [= <-]. split; [done|].
  apply orb_false_elim in Hn as [H1 H2].
  apply Z.ltb_ge in H1, H2. lia.
Qed.

Lemma Message_note_off_Ok n v t m :
  mido.Message_note_off n v t = Ok m -> m = note_off n v t /\ 0 <= n <= 127.
Proof.
  unfold mido.Message_note_off, mido.check_data_byte.
  destruct (orb (n <? 0) (127 <? n)) eqn:Hn; [discriminate|].
  destruct (orb (v <? 0) (127 <? v)); [discriminate|].
  cbn. intros [= <-]. split; [done|].
  apply orb_false_elim in Hn as [H1 H2].
  apply Z.ltb_ge in H1, H2. lia.
Qed.

Lemma Message_note_on_in_range n v t :
  0 <= n <= 127 -> 0 <= v <= 127 ->
  mido.Message_note_on n v t = Ok (note_on n v t).
Proof.
  intros Hn Hv. unfold mido.Message_note_on, mido.check_data_byte.
  replace (orb (n <? 0) (127 <? n)) with false
    by (symmetry; apply orb_false_intro; apply Z.ltb_ge; lia).
  replace (orb (v <? 0) (127 <? v)) with false
    by (symmetry; apply orb_false_intro; apply Z.ltb_ge; lia).
  reflexivity.
Qed.

Lemma Message_note_off_in_range n v t :
  0 <= n <= 127 -> 0 <= v <= 127 ->
  mido.Message_note_off n v t = Ok (note_off n v t).
Proof.
  intros Hn Hv. unfold mido.Message_note_off, mido.check_data_byte.
  replace (orb (n <? 0) (127 <? n)) with false
    by (symmetry; apply orb_false_intro; apply Z.ltb_ge; lia).
  replace (orb (v <? 0) (127 <? v)) with false
    by (symmetry; apply orb_false_intro; apply Z.ltb_ge; lia).
  reflexivity.
Qed.

Ltac solve_paired :=
  unfold paired; constructor; [|constructor];
  unfold paired_track, absolute_times; cbn;
  repeat (rewrite Z.eqb_refl; cbn);
  repeat (apply andb_true_intro; split); try reflexivity;
  apply Z.leb_le; lia.

Lemma paired_note_track name tempo p v v' d :
  0 <= d ->
  paired [create_notes.note_track name tempo (note_on p v 0) (note_off p v' d)].
Proof. intros Hd. solve_paired. Qed.

Lemma paired_without_track_name p v v' d :
  0 <= d -> paired [[note_on p v 0; note_off p v' d]].
Proof. intros Hd. solve_paired. Qed.

Lemma paired_chord_track name tempo r t f v1 v2 v3 d :
  0 <= d ->
  paired [create_chords.chord_track name tempo
            (note_on r v1 0) (note_on t v2 0) (note_on f v3 0)
            (note_off r v1 d) (note_off t v2 0) (note_off f v3 0)].
Proof. intros Hd. solve_paired. Qed.

Lemma paired_table_track twice name tempo p v v' d :
  0 <= d ->
  paired [table_scripts.table_track twice name tempo
            (note_on p v 0) (note_off p v' d)].
Proof. intros Hd. destruct twice; solve_paired. Qed.

Ltac use_messages :=
  repeat match goal with
    | H : mido.Message_note_on _ _ _ = Ok _ |- _ =>
        apply Message_note_on_Ok in H as [-> _]
    | H : mido.Message_note_off _ _ _ = Ok _ |- _ =>
        apply Message_note_off_Ok in H as [-> _]
    end.

(** ** Every generator is a list of effects *)

Section Traced.

Import create_notes create_chords.

Lemma traced_create_note_midi_ableton_final name fn d bpm :
  0 <= d -> traced paired (create_note_midi_ableton_final name fn d bpm).
Proof.
  intros Hd. unfold create_note_midi_ableton_final. repeat traced_step.
  use_messages. by apply paired_note_track.
Qed.

Lemma traced_create_note_midi_standard name fn d bpm :
  0 <= d -> traced paired (create_note_midi_standard name fn d bpm).
Proof.
  intros Hd. unfold create_note_midi_standard. repeat traced_step.
  use_messages. by apply paired_note_track.
Qed.

Lemma traced_create_without_track_name name m fn d :
  0 <= d -> traced paired (create_without_track_name name m fn d).
Proof.
  intros Hd. unfold create_without_track_name. repeat traced_step.
  use_messages. by apply paired_without_track_name.
Qed.

Lemma chord_notes_of_shape r ty l :
  chord_notes_of r ty = Ok l -> exists a b, l = [r; r + a; r + b].
Proof.
  unfold chord_notes_of.
  repeat match goal with
    | |- context [if ?b then _ else _] => destruct b
    end; cbn; intros [= <-]; eauto.
Qed.

Lemma traced_create_chord_triad_midi root ty fn d bpm :
  0 <= d -> traced paired (create_chord_triad_midi root ty fn d bpm).
Proof.
  intros Hd. unfold create_chord_triad_midi.
  do 3 traced_step.
  match goal with H : chord_notes_of _ _ = Ok _ |- _ =>
    apply chord_notes_of_shape in H as (x & y & ->) end.
  cbn [nth]. repeat traced_step.
  use_messages. by apply paired_chord_track.
Qed.

Lemma traced_ableton_range_loop dir names d l :
  0 <= d -> traced paired (ableton_range_loop dir names d l).
Proof.
  intros Hd. apply traced_for_fold. intros acc [fn [name m]] _.
  unfold ableton_range_body. repeat traced_step.
  - by apply traced_create_note_midi_ableton_final.
  - by apply traced_create_without_track_name.
Qed.

Lemma traced_standard_range_loop dir d l :
  0 <= d -> traced paired (standard_range_loop dir d l).
Proof.
  intros Hd. apply traced_for_fold. intros acc [fn [name m]] _.
  unfold standard_range_body. repeat traced_step.
  by apply traced_create_note_midi_standard.
Qed.

Lemma traced_chord_loop dir l : traced paired (chord_loop dir l).
Proof.
  apply traced_for_fold. intros acc [[fn root] ty] _.
  unfold chord_body. repeat traced_step.
  by apply traced_create_chord_triad_midi.
Qed.

Lemma traced_generate_ableton_range s e names d :
  0 <= d -> traced paired (generate_ableton_range s e names d).
Proof.
  intros Hd. unfold generate_ableton_range. repeat traced_step.
  by apply traced_ableton_range_loop.
Qed.

Lemma traced_generate_standard_range s e d :
  0 <= d -> traced paired (generate_standard_range s e d).
Proof.
  intros Hd. unfold generate_standard_range. repeat traced_step.
  by apply traced_standard_range_loop.
Qed.

Lemma traced_generate_middle_c_range d :
  0 <= d -> traced paired (generate_middle_c_range d).
Proof.
  intros Hd. unfold generate_middle_c_range. do 5 traced_step.
  - apply traced_for_fold. intros acc [fn [name m]] _.
    repeat traced_step. use_messages. by apply paired_note_track.
  - repeat traced_step.
Qed.

Lemma traced_generate_chord_triads_range s e :
  traced paired (generate_chord_triads_range s e).
Proof.
  unfold generate_chord_triads_range. repeat traced_step.
  apply traced_chord_loop.
Qed.

Lemma traced_generate_key_chords k n :
  traced paired (generate_key_chords k n).
Proof.
  unfold generate_key_chords. repeat traced_step.
  apply traced_chord_loop.
Qed.

Lemma traced_generate_all_key_chords n :
  traced paired (generate_all_key_chords n).
Proof.
  unfold generate_all_key_chords. apply traced_for_fold. intros acc k _.
  repeat traced_step. apply traced_generate_key_chords.
Qed.

Lemma traced_table_run s notes_data :
  0 <= table_scripts.note_duration s ->
  traced paired (table_scripts.run s notes_data).
Proof.
  intros Hd. unfold table_scripts.run. do 5 traced_step.
  - apply traced_for_each. intros [fn n] _.
    unfold table_scripts.write_note. repeat traced_step.
    use_messages. by apply paired_table_track.
  - repeat traced_step.
Qed.

End Traced.

Lemma traced_run_generator g :
  0 <= duration_of g -> traced paired (run_generator g).
Proof.
  destruct g; cbn [duration_of run_generator]; intros Hd.
  - by apply traced_generate_ableton_range.
  - by apply traced_generate_standard_range.
  - by apply traced_generate_middle_c_range.
  - apply traced_discard, traced_generate_chord_triads_range.
  - apply traced_discard, traced_generate_key_chords.
  - apply traced_discard, traced_generate_all_key_chords.
  - by apply traced_table_run.
Qed.

(** ** What follows from a list of effects *)

Lemma files_apply_effects es w p :
  files (apply_effects es w) !! p =
  match last_write p es with
  | Some mid => Some mid
  | None => files w !! p
  end.
Proof.
  revert w. induction es as [|e es IH]; intros w; [reflexivity|].
  cbn [apply_effects fold_left]. fold (apply_effects es (apply_effect w e)).
  rewrite IH. destruct e as [q|q mid|n]; cbn; try reflexivity.
  destruct (last_write p es); [reflexivity|].
  destruct (decide (q = p)) as [->|Hne].
  - by rewrite lookup_insert_eq.
  - by rewrite lookup_insert_ne.
Qed.

Lemma last_write_good good es p mid :
  Forall (effect_good good) es -> last_write p es = Some mid -> good mid.
Proof.
  induction 1 as [|e es He Hes IH]; [discriminate|].
  destruct e as [q|q mid'|n]; cbn; try exact IH.
  destruct (last_write p es) eqn:E.
  - intros [= <-]. by apply IH.
  - destruct (decide (q = p)); [|discriminate]. by intros [= <-].
Qed.

Lemma files_apply_effects_twice es w w' :
  files w' = files (apply_effects es w) ->
  files (apply_effects es w') = files (apply_effects es w).
Proof.
  intros Hw. apply map_eq. intros p.
  rewrite !files_apply_effects, Hw, files_apply_effects.
  by destruct (last_write p es).
Qed.

Lemma dirs_apply_effects es :
  exists ds, forall w', dirs (apply_effects es w') = ds ∪ dirs w'.
Proof.
  induction es as [|e es [ds IH]].
  - exists ∅. intros w'. cbn. by rewrite (left_id_L ∅ (∪)).
  - destruct e as [q|q mid|n].
    + exists (ds ∪ {[q]}). intros w'. cbn [apply_effects fold_left].
      fold (apply_effects es (apply_effect w' (MkDir q))).
      rewrite IH. cbn. by rewrite (assoc_L (∪)).
    + exists ds. intros w'. cbn [apply_effects fold_left].
      fold (apply_effects es (apply_effect w' (WriteFile q mid))).
      by rewrite IH.
    + exists ds. intros w'. cbn [apply_effects fold_left].
      fold (apply_effects es (apply_effect w' (Print n))).
      by rewrite IH.
Qed.

Lemma traced_preserves {A} good (m : M A) w :
  traced good m ->
  map_Forall (fun _ mid => good mid) (files w) ->
  map_Forall (fun _ mid => good mid) (files (m w).2).
Proof.
  intros Hm Hw. destruct (Hm (cwd w)) as (r & c' & es & Hes & Hrun).
  rewrite (Hrun w eq_refl). cbn. intros p mid.
  rewrite files_apply_effects.
  destruct (last_write p es) eqn:E.
  - intros [= <-]. by eapply last_write_good.
  - apply Hw.
Qed.

Lemma traced_again {A} good (m : M A) w :
  traced good m ->
  (m (set_cwd (cwd w) (m w).2)).1 = (m w).1 /\
  cwd (m (set_cwd (cwd w) (m w).2)).2 = cwd (m w).2 /\
  dirs (m (set_cwd (cwd w) (m w).2)).2 = dirs (m w).2 /\
  files (m (set_cwd (cwd w) (m w).2)).2 = files (m w).2.
Proof.
  intros Hm. destruct (Hm (cwd w)) as (r & c' & es & Hes & Hrun).
  rewrite (Hrun w eq_refl). cbn [fst snd].
  rewrite (Hrun (set_cwd (cwd w) (set_cwd c' (apply_effects es w))) eq_refl).
  cbn [fst snd].
  split; [done|]. split; [done|]. split.
  - cbn. rewrite !apply_effects_set_cwd. cbn.
    destruct (dirs_apply_effects es) as [ds Hds].
    rewrite !Hds. cbn. by rewrite (assoc_L (∪)), (idemp_L (∪) ds).
  - cbn. rewrite !apply_effects_set_cwd. cbn.
    by apply files_apply_effects_twice.
Qed.

Lemma traced_same_content {A} good (m : M A) w w' :
  traced good m -> cwd w = cwd w' ->
  (m w).1 = (m w').1 /\
  forall p,
    files (m w).2 !! p = files (m w').2 !! p \/
    (files (m w).2 !! p = files w !! p /\ files (m w').2 !! p = files w' !! p).
Proof.
  intros Hm Hc. destruct (Hm (cwd w)) as (r & c' & es & Hes & Hrun).
  rewrite (Hrun w eq_refl), (Hrun w' (eq_sym Hc)). cbn.
  split; [done|]. intros p. rewrite !files_apply_effects.
  destruct (last_write p es); auto.
Qed.

(** * The claims *)

(** ** C9: running a generator again *)

(** C9.  For every generator run with a note duration that is not
    negative: a second run from the same directory on the files the
    first run left returns the same result and leaves the same files
    and directories, so every file is overwritten with identical
    content; and the content of a file after a run does not depend on
    the files, directories and console the run started from (a path is
    either left untouched or holds the same content whatever the
    start).  The content is the list of MIDI messages handed to
    [mid.save]; its bytes are a function of that list. *)
Theorem rerun_overwrites_with_identical_content (g : generator) (w : world) :
  0 <= duration_of g ->
  (run_again g w).1 = (run_generator g w).1 /\
  files (run_again g w).2 = files (run_generator g w).2 /\
  dirs (run_again g w).2 = dirs (run_generator g w).2 /\
  forall w', cwd w' = cwd w ->
    (run_generator g w').1 = (run_generator g w).1 /\
    forall p,
      files (run_generator g w').2 !! p = files (run_generator g w).2 !! p \/
      (files (run_generator g w').2 !! p = files w' !! p /\
       files (run_generator g w).2 !! p = files w !! p).
Proof.
  intros Hd. pose proof (traced_run_generator g Hd) as Ht.
  destruct (traced_again paired (run_generator g) w Ht) as (H1 & _ & H3 & H4).
  unfold run_again. repeat split; try assumption.
  - by apply (traced_same_content paired).
  - intros p. by apply (traced_same_content paired).
Qed.

Lemma rerun_overwrites_with_identical_content_witness :
  0 <= duration_of
         (TableScript table_scripts.beatmaker table_scripts.beatmaker_notes_data)
  /\ files (run_again
              (TableScript table_scripts.beatmaker
                 table_scripts.beatmaker_notes_data)
              (World ["home"] ∅ ∅ [])).2
     = files (run_generator
                (TableScript table_scripts.beatmaker
                   table_scripts.beatmaker_notes_data)
                (World ["home"] ∅ ∅ [])).2.
Proof.
  split; [vm_compute; discriminate|].
  apply (rerun_overwrites_with_identical_content
           (TableScript table_scripts.beatmaker
              table_scripts.beatmaker_notes_data)
           (World ["home"] ∅ ∅ [])).
  vm_compute; discriminate.
Defined.

(** ** C7: note-on and note-off come in pairs *)

(** C7.  Every generator, run with a note duration that is not negative,
    keeps the files of the world well paired: in each track, every
    note-off ends one note of the same pitch that began no later, and no
    note is left sounding at the end.  Started where no file exists, a
    run therefore leaves only well-paired files. *)
Theorem generators_emit_paired_notes (g : generator) (w : world) :
  0 <= duration_of g -> all_paired w -> all_paired (run_generator g w).2.
Proof.
  intros Hd Hw. apply (traced_preserves paired); [|exact Hw].
  by apply traced_run_generator.
Qed.

Lemma generators_emit_paired_notes_witness :
  0 <= duration_of (TableScript table_scripts.subcraft
                      [table_scripts.NoteInfo "C2" "Loop 1 C2";
                       table_scripts.NoteInfo "D#2" "Stop D#2"])
  /\ all_paired (World ["home"] ∅ ∅ [])
  /\ all_paired (run_generator
                   (TableScript table_scripts.subcraft
                      [table_scripts.NoteInfo "C2" "Loop 1 C2";
                       table_scripts.NoteInfo "D#2" "Stop D#2"])
                   (World ["home"] ∅ ∅ [])).2.
Proof.
  assert (H0 : all_paired (World ["home"] ∅ ∅ []))
    by (unfold all_paired; cbn; apply map_Forall_empty).
  split; [vm_compute; discriminate|]. split; [exact H0|].
  apply generators_emit_paired_notes; [vm_compute; discriminate|exact H0].
Defined.

(** ** C6: the order of the events *)



Lemma check_chord_range_Ok l :
  create_chords.check_chord_range l = Ok () ->
  Forall (fun n => 0 <= n <= 127) l.
Proof.
  induction l as [|n l IH]; cbn; [constructor|].
  destruct (orb _ _) eqn:E; [discriminate|]. intros H.
  apply orb_false_elim in E as [H1 H2]. apply Z.ltb_ge in H1, H2.
  constructor; [lia|by apply IH].
Qed.

Ltac solve_times :=
  let H := fresh in
  intros ? ? H; cbn in H;
  repeat (destruct H as [H|H]; [injection H as <- <-; cbn; split; intros; (discriminate || lia)|]);
  destruct H.


Lemma chord_track_in_order name tempo r t f v1 v2 v3 d :
  emitted_in_order [r; t; f] d
    (create_chords.chord_track name tempo
       (note_on r v1 0) (note_on t v2 0) (note_on f v3 0)
       (note_off r v1 d) (note_off t v2 0) (note_off f v3 0)).
Proof.
  exists [track_name name 0], tempo,
    [note_on r v1 0; note_on t v2 0; note_on f v3 0],
    [note_off r v1 d; note_off t v2 0; note_off f v3 0].
  split; [reflexivity|]. split; [right; by eexists|].
  split; [by repeat constructor|]. split; [reflexivity|].
  split; [by repeat constructor|]. split; [reflexivity|].
  solve_times.
Qed.

Ltac run_steps :=
  unfold mbind, M_bind, lift, mret, M_ret, mido.save, print; cbn.

Lemma chord_emitted root ty fn d bpm r third fifth tempo w :
  create_chords.root_midi_of root = Ok r ->
  create_chords.chord_notes_of r ty = Ok [r; third; fifth] ->
  create_chords.check_chord_range [r; third; fifth] = Ok () ->
  mido.bpm2tempo bpm = Ok tempo ->
  let t := create_chords.chord_track (root +:+ " " +:+ ty) tempo
             (note_on r 64 0) (note_on third 60 0) (note_on fifth 56 0)
             (note_off r 64 d) (note_off third 60 0) (note_off fifth 56 0) in
  (create_chords.create_chord_triad_midi root ty fn d bpm w).1 = Ok [t]
  /\ files (create_chords.create_chord_triad_midi root ty fn d bpm w).2
       !! (cwd w ++ [format_0d 3 fn +:+ " " +:+ root +:+ " " +:+ ty
                       +:+ ".mid"])%list
     = Some [t]
  /\ emitted_in_order [r; third; fifth] d t.
Proof.
  intros Hr Hn Hc Ht t.
  pose proof (check_chord_range_Ok _ Hc) as Hall.
  apply Forall_cons in Hall as [H1 Hall].
  apply Forall_cons in Hall as [H2 Hall].
  apply Forall_cons in Hall as [H3 _].
  unfold create_chords.create_chord_triad_midi. run_steps.
  rewrite Hr, Hn, Hc, Ht. cbn [nth].
  rewrite !Message_note_on_in_range, !Message_note_off_in_range by lia.
  cbn. split; [done|]. split; [by rewrite lookup_insert_eq|].
  apply chord_track_in_order.
Qed.

(** ** C3: the pitches of a triad *)

Lemma check_chord_range_in_range l :
  Forall (fun n => 0 <= n <= 127) l ->
  create_chords.check_chord_range l = Ok ().
Proof.
  induction 1 as [|n l Hn Hl IH]; cbn; [reflexivity|].
  replace (orb (n <? 0) (127 <? n)) with false; [exact IH|].
  symmetry; apply orb_false_intro; apply Z.ltb_ge; lia.
Qed.

Lemma chord_notes_of_spec r ty :
  create_chords.chord_notes_of r ty =
  match spec_triad_offsets ty with
  | Some offs => Ok (map (Z.add r) offs)
  | None => Raise (ValueError (InvalidTriadType ty))
  end.
Proof.
  unfold create_chords.chord_notes_of, spec_triad_offsets. cbv zeta.
  repeat match goal with
    | |- context [if ?b then _ else _] => destruct b
    end; cbn; rewrite ?Z.add_0_r; reflexivity.
Qed.

(** C3.  At the root 60, which is the root of "C3", the chord builder
    computes [60; 64; 67] for Major, [60; 63; 67] for Minor,
    [60; 63; 66] for Diminished and [60; 64; 68] for Augmented.  For
    every root [r] the three pitches are [r] plus the offsets
    [0; 4; 7], [0; 3; 7], [0; 3; 6] and [0; 4; 8] of the tag, and a tag
    that is none of the four raises the invalid-triad-type error, in
    [chord_notes_of] and in [create_chord_triad_midi] itself, which then
    leaves the world as it was.  When the three pitches lie in 0..127,
    the duration and the tempo are ones a MIDI file can hold and the
    file name is one the folder can hold, [create_chord_triad_midi]
    returns a file that has note-on messages at exactly those
    pitches. *)
Theorem chord_builder_pitches :
  (create_chords.root_midi_of "C3" = Ok 60 /\
   create_chords.chord_notes_of 60 "Major" = Ok [60; 64; 67] /\
   create_chords.chord_notes_of 60 "Minor" = Ok [60; 63; 67] /\
   create_chords.chord_notes_of 60 "Diminished" = Ok [60; 63; 66] /\
   create_chords.chord_notes_of 60 "Augmented" = Ok [60; 64; 68]) /\
  (forall r ty offs,
     spec_triad_offsets ty = Some offs ->
     create_chords.chord_notes_of r ty = Ok (map (Z.add r) offs)) /\
  (forall r ty,
     spec_triad_offsets ty = None ->
     create_chords.chord_notes_of r ty
     = Raise (ValueError (InvalidTriadType ty))) /\
  (forall root ty fn d bpm w r,
     create_chords.root_midi_of root = Ok r ->
     match spec_triad_offsets ty with
     | None =>
         create_chords.create_chord_triad_midi root ty fn d bpm w
         = (Raise (ValueError (InvalidTriadType ty)), w)
     | Some offs =>
         Forall (fun n => 0 <= n <= 127) (map (Z.add r) offs) ->
         valid_duration d ->
         valid_bpm bpm ->
         file_name_ok
           (format_0d 3 fn +:+ " " +:+ root +:+ " " +:+ ty +:+ ".mid")
         = true ->
         exists mid,
           (create_chords.create_chord_triad_midi root ty fn d bpm w).1
           = Ok mid /\
           note_on_pitches mid = map (Z.add r) offs
     end).
Proof.
  split; [repeat split; vm_compute; reflexivity|].
  split; [intros r ty offs H; by rewrite chord_notes_of_spec, H|].
  split; [intros r ty H; by rewrite chord_notes_of_spec, H|].
  intros root ty fn d bpm w r Hr.
  pose proof (chord_notes_of_spec r ty) as Hn.
  destruct (spec_triad_offsets ty) as [offs|] eqn:Hs.
  - intros Hall _ Hbpm _.
    assert (exists a b, offs = [0; a; b]) as (a & b & ->).
    { unfold spec_triad_offsets in Hs. cbv zeta in Hs.
      repeat match type of Hs with
        | context [if ?c then _ else _] => destruct c
        end; inversion Hs; eauto. }
    cbn [map] in *. rewrite Z.add_0_r in *.
    assert (exists tempo, mido.bpm2tempo bpm = Ok tempo) as [tempo Ht].
    { unfold mido.bpm2tempo. unfold valid_bpm in Hbpm.
      assert (Hz : bpm <> 0) by lia.
      apply Z.eqb_neq in Hz. rewrite Hz. eauto. }
    destruct (chord_emitted root ty fn d bpm r
                (r + a) (r + b) tempo w Hr Hn
                (check_chord_range_in_range _ Hall) Ht) as (H1 & _ & _).
    eexists. split; [exact H1|]. reflexivity.
  - unfold create_chords.create_chord_triad_midi. run_steps.
    by rewrite Hr, Hn.
Qed.

Lemma chord_builder_pitches_witness :
  create_chords.root_midi_of "A2" = Ok 57 /\
  spec_triad_offsets "augmented" = Some [0; 4; 8] /\
  Forall (fun n => 0 <= n <= 127) (map (Z.add 57) [0; 4; 8]) /\
  valid_duration 3840 /\
  valid_bpm 120 /\
  file_name_ok "007 A2 augmented.mid" = true /\
  exists mid,
    (create_chords.create_chord_triad_midi "A2" "augmented" 7 3840 120
       (World ["home"] ∅ ∅ [])).1 = Ok mid /\
    note_on_pitches mid = map (Z.add 57) [0; 4; 8].
Proof.
  assert (Hall : Forall (fun n => 0 <= n <= 127) (map (Z.add 57) [0; 4; 8]))
    by (repeat constructor; vm_compute; discriminate).
  split; [vm_compute; reflexivity|]. split; [vm_compute; reflexivity|].
  assert (Hd : valid_duration 3840)
    by (unfold valid_duration, MAX_DELTA_TIME; lia).
  assert (Hb : valid_bpm 120) by (unfold valid_bpm; lia).
  split; [exact Hall|]. split; [exact Hd|]. split; [exact Hb|].
  split; [reflexivity|].
  exact (proj2 (proj2 (proj2 chord_builder_pitches))
           "A2" "augmented" 7 3840 120 (World ["home"] ∅ ∅ []) 57
           eq_refl Hall Hd Hb eq_refl).
Defined.

(** ** C2: an entry out of range is skipped *)



Lemma index_from_Raise i x l e :
  index_from i x l = Raise e -> e = ValueError (NotInList x).
Proof.
  revert i. induction l as [|y l IH]; intros i; cbn; [congruence|].
  destruct (String.eqb y x); [discriminate|apply IH].
Qed.

Lemma int_value_or_ValueError s : value_or_ValueError (int s).
Proof.
  unfold int.
  repeat match goal with
    | |- context [match ?x with _ => _ end] => destruct x
    end; exact I.
Qed.

Lemma parse_display_name_value_or_ValueError name :
  value_or_ValueError (parse_display_name name).
Proof.
  unfold parse_display_name.
  destruct (re.match_note name) as [[[n o] rest]|]; [|exact I].
  pose proof (int_value_or_ValueError o) as Ho.
  destruct (int o) as [octave|e]; [|destruct e; try done].
  unfold mbind, result_bind.
  destruct (index NOTE_NAMES n) as [i|e] eqn:E; [exact I|].
  apply index_from_Raise in E as ->. exact I.
Qed.





Lemma for_fold_total {A} (body : Z -> A -> M Z) :
  (forall count x w, exists count' w', body count x w = (Ok count', w')) ->
  forall l count w, exists count' w', for_fold l count body w = (Ok count', w').
Proof.
  intros Hb l. induction l as [|x l IH]; intros count w; cbn.
  - by exists count, w.
  - unfold mbind, M_bind. destruct (Hb count x w) as (c1 & w1 & ->).
    apply IH.
Qed.

Lemma check_data_byte_value_or_ValueError v :
  value_or_ValueError (mido.check_data_byte v).
Proof. unfold mido.check_data_byte. by destruct (orb _ _). Qed.

Lemma Message_note_on_value_or_ValueError n v t :
  value_or_ValueError (mido.Message_note_on n v t).
Proof.
  unfold mido.Message_note_on, mido.check_data_byte, mbind, result_bind.
  by repeat destruct (orb _ _).
Qed.

Lemma Message_note_off_value_or_ValueError n v t :
  value_or_ValueError (mido.Message_note_off n v t).
Proof.
  unfold mido.Message_note_off, mido.check_data_byte, mbind, result_bind.
  by repeat destruct (orb _ _).
Qed.

Tactic Notation "case_result" constr(r) "as" ident(x) :=
  let H := fresh "H" in
  let E := fresh "E" in
  assert (H : value_or_ValueError r) by
    first [ apply parse_display_name_value_or_ValueError
          | apply Message_note_on_value_or_ValueError
          | apply Message_note_off_value_or_ValueError
          | exact I ];
  destruct r as [x|[?| | | |]] eqn:E; try (exfalso; exact H); clear H.

Lemma ableton_midi_of_value_or_ValueError name :
  value_or_ValueError (create_notes.ableton_midi_of name).
Proof.
  unfold create_notes.ableton_midi_of.
  case_result (parse_display_name name) as p; [|exact I].
  destruct p as [octave i]. cbn. by destruct (orb _ _).
Qed.

Lemma standard_midi_of_value_or_ValueError name :
  value_or_ValueError (create_notes.standard_midi_of name).
Proof.
  unfold create_notes.standard_midi_of.
  case_result (parse_display_name name) as p; [|exact I].
  destruct p as [octave i]. cbn. by destruct (orb _ _).
Qed.

Lemma create_ableton_value_or_ValueError name fn d w :
  value_or_ValueError
    (create_notes.create_note_midi_ableton_final name fn d 120 w).1.
Proof.
  unfold create_notes.create_note_midi_ableton_final. run_steps.
  pose proof (ableton_midi_of_value_or_ValueError name) as H.
  destruct (create_notes.ableton_midi_of name) as [m|[?| | | |]];
    try done.
  case_result (mido.Message_note_on m 64 0) as on; [|exact I].
  case_result (mido.Message_note_off m 64 d) as off; exact I.
Qed.

Lemma create_standard_value_or_ValueError name fn d w :
  value_or_ValueError
    (create_notes.create_note_midi_standard name fn d 120 w).1.
Proof.
  unfold create_notes.create_note_midi_standard. run_steps.
  pose proof (standard_midi_of_value_or_ValueError name) as H.
  destruct (create_notes.standard_midi_of name) as [m|[?| | | |]];
    try done.
  case_result (mido.Message_note_on m 64 0) as on; [|exact I].
  case_result (mido.Message_note_off m 64 d) as off; exact I.
Qed.

Lemma check_chord_range_value_or_ValueError l :
  value_or_ValueError (create_chords.check_chord_range l).
Proof. induction l as [|n l IH]; cbn; [exact I|]. by destruct (orb _ _). Qed.

Lemma create_chord_value_or_ValueError root ty fn d w :
  value_or_ValueError
    (create_chords.create_chord_triad_midi root ty fn d 120 w).1.
Proof.
  unfold create_chords.create_chord_triad_midi, create_chords.root_midi_of.
  run_steps.
  case_result (parse_display_name root) as p; [|exact I].
  destruct p as [octave i]. cbn.
  rewrite chord_notes_of_spec.
  destruct (spec_triad_offsets ty) as [offs|]; [|exact I]. cbn.
  pose proof (check_chord_range_value_or_ValueError
                (map (Z.add ((octave + 2) * 12 + i)) offs)) as H.
  destruct (create_chords.check_chord_range _) as [[]|[?| | | |]];
    try done. cbn.
  repeat match goal with
    | |- context [mido.Message_note_on ?n ?v ?t] =>
        let x := fresh "on" in
        case_result (mido.Message_note_on n v t) as x; [|exact I]
    | |- context [mido.Message_note_off ?n ?v ?t] =>
        let x := fresh "off" in
        case_result (mido.Message_note_off n v t) as x; [|exact I]
    end.
  exact I.
Qed.

Lemma ableton_range_body_total dir d count x w :
  exists count' w',
    create_notes.ableton_range_body dir true d count x w = (Ok count', w').
Proof.
  destruct x as [fn [name m]]. unfold create_notes.ableton_range_body.
  unfold try_except, mbind, M_bind, mret, M_ret, os.getcwd, os.chdir, print.
  pose proof (create_ableton_value_or_ValueError name fn d
                (World (resolve (cwd w) dir) (dirs w) (files w) (console w)))
    as H.
  destruct (create_notes.create_note_midi_ableton_final _ _ _ _ _)
    as [[?|[?| | | |]] ?]; cbn in H; try done; cbn; eauto.
Qed.

Lemma standard_range_body_total dir d count x w :
  exists count' w',
    create_notes.standard_range_body dir d count x w = (Ok count', w').
Proof.
  destruct x as [fn [name m]]. unfold create_notes.standard_range_body.
  unfold try_except, mbind, M_bind, mret, M_ret, os.getcwd, os.chdir, print.
  pose proof (create_standard_value_or_ValueError name fn d
                (World (resolve (cwd w) dir) (dirs w) (files w) (console w)))
    as H.
  destruct (create_notes.create_note_midi_standard _ _ _ _ _)
    as [[?|[?| | | |]] ?]; cbn in H; try done; cbn; eauto.
Qed.

Lemma chord_body_total dir count x w :
  exists count' w', create_chords.chord_body dir count x w = (Ok count', w').
Proof.
  destruct x as [[fn root] ty]. unfold create_chords.chord_body.
  unfold try_except, mbind, M_bind, mret, M_ret, os.getcwd, os.chdir, print.
  pose proof (create_chord_value_or_ValueError root ty fn
                create_chords.NOTE_DURATION_TICKS
                (World (resolve (cwd w) dir) (dirs w) (files w) (console w)))
    as H.
  destruct (create_chords.create_chord_triad_midi _ _ _ _ _ _)
    as [[?|[?| | | |]] ?]; cbn in H; try done; cbn; eauto.
Qed.




(** The range from B-3 to D-2: B-3 resolves to -1 and is skipped, the
    notes after it keep the numbers 2, 3 and 4. *)
Example generate_ableton_range_skips_B_minus_3 :
  let w := (create_notes.generate_ableton_range "B-3" "D-2" true 3840
              (World ["home"] ∅ ∅ [])).2 in
  List.filter (fun n => match n with Detail _ _ => false | _ => true end)
    (console w)
  = [Skipping "B-3" (OutOfRange "B-3" (-1)); Created "02 C-2.mid";
     Created "03 C#-2.mid"; Created "04 D-2.mid"; Summary 3]
  /\ dom (files w)
     = {[ ["home"; "midi_files_ableton_sequential"; "02 C-2.mid"];
          ["home"; "midi_files_ableton_sequential"; "03 C#-2.mid"];
          ["home"; "midi_files_ableton_sequential"; "04 D-2.mid"] ]}.
Proof. split; [vm_compute; reflexivity|]. apply set_eq. intros p.
  vm_compute dom. set_solver.
Qed.

(** ** C5: text after the note name *)

Lemma unmatched_name_is_rejected name :
  re.match_note name = None ->
  (forall fn d bpm w,
     create_notes.create_note_midi_ableton_final name fn d bpm w
     = (Raise (ValueError (InvalidNoteFormat name)), w)) /\
  (forall fn d bpm w,
     create_notes.create_note_midi_standard name fn d bpm w
     = (Raise (ValueError (InvalidNoteFormat name)), w)) /\
  (forall ty fn d bpm w,
     create_chords.create_chord_triad_midi name ty fn d bpm w
     = (Raise (ValueError (InvalidNoteFormat name)), w)).
Proof.
  intros Hm. repeat split; intros;
    unfold create_notes.create_note_midi_ableton_final,
      create_notes.create_note_midi_standard,
      create_chords.create_chord_triad_midi,
      create_notes.ableton_midi_of, create_notes.standard_midi_of,
      create_chords.root_midi_of, parse_display_name;
    unfold mbind at 1, M_bind, lift; by rewrite Hm.
Qed.

Example unmatched_name_examples :
  re.match_note "c3" = None /\ re.match_note "H2" = None /\
  re.match_note "C#" = None /\ re.match_note "3C" = None /\
  re.match_note "" = None /\ re.match_note "C-" = None.
Proof. repeat split; reflexivity. Qed.

(** The anchored parse of spotlight_notes.py and drumlab_notes.py does
    reject text after the octave. *)
Example anchored_parse_rejects_trailing_text :
  table_scripts.parse_by_regex "C3x"
  = Raise (ValueError (InvalidNoteFormat "C3x")).
Proof. reflexivity. Qed.

(** C5, at the input "C3x".  The text does not match
    [[A-G](#)?(-?\d+)] as a whole, yet [re.match] without an end anchor
    accepts its prefix "C3": [create_note_midi_ableton_final] raises
    nothing, resolves the name to 60 and writes the file "01 C3x.mid";
    the standard and the chord function accept the text likewise. *)
Theorem trailing_text_is_accepted :
  re.match_note "C3x" = Some ("C", "3", "x") /\
  (create_notes.create_note_midi_ableton_final "C3x" 1 3840 120
     (World ["home"] ∅ ∅ [])).1
  = Ok [[track_name "Note C3x" 0; set_tempo 500000 0;
         time_signature 4 4 24 8 0; note_on 60 64 0; note_off 60 64 3840;
         end_of_track 0]] /\
  is_Some (files (create_notes.create_note_midi_ableton_final "C3x" 1 3840 120
                    (World ["home"] ∅ ∅ [])).2 !! ["home"; "01 C3x.mid"]) /\
  create_notes.standard_midi_of "C3x" = Ok 48 /\
  create_chords.root_midi_of "C3x" = Ok 60.
Proof.
  split; [reflexivity|]. split; [vm_compute; reflexivity|].
  split; [|split; vm_compute; reflexivity].
  vm_compute. eauto.
Qed.

(** ** C1: from a MIDI number to its name and back *)

Lemma forall_0_127 (P : Z -> bool) :
  forallb P (range 0 128) = true -> forall m, 0 <= m <= 127 -> P m = true.
Proof.
  intros H m Hm. rewrite forallb_forall in H. apply H.
  unfold range. apply in_map_iff. exists (Z.to_nat m).
  split; [lia|]. apply in_seq. lia.
Qed.

Lemma result_is_true (r : result Z) (m : Z) :
  match r with Ok m' => m' =? m | Raise _ => false end = true -> r = Ok m.
Proof. destruct r as [m'|e]; [|discriminate]. intros H. apply Z.eqb_eq in H. by subst. Qed.

(** create_notes.py, standard convention: the name printed by
    [create_note_midi_ableton_final] parses back in
    [create_note_midi_standard]. *)
Lemma standard_name_round_trip m :
  0 <= m <= 127 ->
  create_notes.standard_midi_of (create_notes.standard_name_of m) = Ok m.
Proof.
  intros Hm. apply result_is_true.
  apply (forall_0_127
           (fun m => match create_notes.standard_midi_of
                             (create_notes.standard_name_of m) with
                     | Ok m' => m' =? m | Raise _ => false end));
    [vm_compute; reflexivity|exact Hm].
Qed.

(** create_notes.py, Ableton convention: the name printed by
    [create_note_midi_standard] parses back in
    [create_note_midi_ableton_final]. *)
Lemma ableton_display_round_trip m :
  0 <= m <= 127 ->
  create_notes.ableton_midi_of (create_notes.ableton_display_of m) = Ok m.
Proof.
  intros Hm. apply result_is_true.
  apply (forall_0_127
           (fun m => match create_notes.ableton_midi_of
                             (create_notes.ableton_display_of m) with
                     | Ok m' => m' =? m | Raise _ => false end));
    [vm_compute; reflexivity|exact Hm].
Qed.

(** create_chords.py: [midi_to_standard_notation] is the inverse of the
    parse of [create_chord_triad_midi]. *)
Lemma midi_to_standard_notation_round_trip m :
  0 <= m <= 127 ->
  create_chords.root_midi_of (create_chords.midi_to_standard_notation m)
  = Ok m.
Proof.
  intros Hm. apply result_is_true.
  apply (forall_0_127
           (fun m => match create_chords.root_midi_of
                             (create_chords.midi_to_standard_notation m) with
                     | Ok m' => m' =? m | Raise _ => false end));
    [vm_compute; reflexivity|exact Hm].
Qed.

(** create_chords.py: [midi_to_ableton_notation] names the octave one
    too high for that parse, so the way back lands an octave up. *)
Lemma midi_to_ableton_notation_shifts m :
  0 <= m <= 127 ->
  create_chords.root_midi_of (create_chords.midi_to_ableton_notation m)
  = Ok (m + 12).
Proof.
  intros Hm. apply result_is_true.
  apply (forall_0_127
           (fun m => match create_chords.root_midi_of
                             (create_chords.midi_to_ableton_notation m) with
                     | Ok m' => m' =? m + 12 | Raise _ => false end));
    [vm_compute; reflexivity|exact Hm].
Qed.

(** C1, at the MIDI number 60 in create_chords.py.
    [midi_to_ableton_notation] names 60 "C4"; [create_chord_triad_midi]
    reads "C4" under its Ableton formula [(octave + 2) * 12 + index] as
    72, not 60, and the chord it builds on "C4" sounds at 72. *)
Theorem midi_to_ableton_notation_does_not_round_trip :
  create_chords.midi_to_ableton_notation 60 = "C4" /\
  create_chords.root_midi_of "C4" = Ok 72 /\
  note_on_pitches
    match (create_chords.create_chord_triad_midi
             (create_chords.midi_to_ableton_notation 60) "Major" 1 3840 120
             (World ["home"] ∅ ∅ [])).1 with
    | Ok mid => mid
    | Raise _ => []
    end
  = [72; 76; 79].
Proof. repeat split; vm_compute; reflexivity. Qed.

(** ** C4: numbering by pitch *)

Section Sorting.
Context {A : Type} (key : A -> Z).

Lemma insert_by_HdRel a x l :
  HdRel Z.le a (map key l) -> a <= key x ->
  HdRel Z.le a (map key (insert_by key x l)).
Proof.
  destruct l as [|y l]; cbn; intros Hl Hx; [by constructor|].
  destruct (key x <? key y); cbn; constructor; [done|].
  by apply HdRel_inv in Hl.
Qed.

Lemma insert_by_sorted x l :
  Sorted Z.le (map key l) -> Sorted Z.le (map key (insert_by key x l)).
Proof.
  induction l as [|y l IH]; cbn; intros Hs; [by repeat constructor|].
  apply Sorted_inv in Hs as [Hs Hd].
  destruct (key x <? key y) eqn:E; cbn.
  - apply Z.ltb_lt in E. constructor; [by constructor|].
    constructor. lia.
  - apply Z.ltb_ge in E. constructor; [by apply IH|].
    by apply insert_by_HdRel.
Qed.

Lemma insert_by_Permutation x l : Permutation (insert_by key x l) (x :: l).
Proof.
  induction l as [|y l IH]; cbn; [done|].
  destruct (key x <? key y); [done|].
  rewrite IH. apply perm_swap.
Qed.

Lemma fold_insert_sorted l acc :
  Sorted Z.le (map key acc) ->
  Sorted Z.le
    (map key (fold_left (fun acc x => insert_by key x acc) l acc)).
Proof.
  revert acc. induction l as [|x l IH]; intros acc Hs; cbn; [done|].
  apply IH. by apply insert_by_sorted.
Qed.

Lemma fold_insert_Permutation l acc :
  Permutation (fold_left (fun acc x => insert_by key x acc) l acc) (l ++ acc).
Proof.
  revert acc. induction l as [|x l IH]; intros acc; cbn; [done|].
  rewrite IH, insert_by_Permutation. by rewrite Permutation_middle.
Qed.

Lemma sort_by_sorted l : Sorted Z.le (map key (sort_by key l)).
Proof. apply fold_insert_sorted. constructor. Qed.

Lemma sort_by_Permutation l : Permutation (sort_by key l) l.
Proof.
  unfold sort_by. rewrite fold_insert_Permutation. by rewrite app_nil_r.
Qed.

End Sorting.

Lemma range_cons a b : a < b -> range a b = a :: range (a + 1) b.
Proof.
  intros Hab. unfold range.
  replace (Z.to_nat (b - a)) with (S (Z.to_nat (b - (a + 1)))) by lia.
  cbn [seq map]. f_equal; [lia|].
  rewrite <- seq_shift, map_map. apply map_ext. intros i. lia.
Qed.

Lemma range_nil a b : b <= a -> range a b = [].
Proof. intros H. unfold range. by replace (Z.to_nat (b - a)) with O by lia. Qed.


Lemma enumerate_snd {A} start (l : list A) : map snd (enumerate start l) = l.
Proof.
  revert start. induction l as [|x l IH]; intros start; cbn; [done|].
  by rewrite IH.
Qed.





Lemma mapM_Ok {A B} (f : A -> result B) l l' :
  mapM f l = Ok l' -> Forall2 (fun x y => f x = Ok y) l l'.
Proof.
  revert l'. induction l as [|x l IH]; intros l'; cbn.
  - intros [= <-]. constructor.
  - unfold mbind, result_bind, mret, result_ret.
    destruct (f x) as [y|e] eqn:E; [|discriminate].
    destruct (mapM f l) as [k|e]; [|discriminate].
    intros [= <-]. constructor; [done|by apply IH].
Qed.






(** ** C10: the octave as the last character *)

Lemma append_nil s : "" +:+ s = s.
Proof. reflexivity. Qed.

Lemma append_cons c a s : String c a +:+ s = String c (a +:+ s).
Proof. reflexivity. Qed.

Lemma length_append a b :
  String.length (a +:+ b) = (String.length a + String.length b)%nat.
Proof.
  induction a as [|c a IH]; [reflexivity|].
  rewrite append_cons. cbn [String.length]. by rewrite IH.
Qed.

Lemma split_last_app a s :
  s <> "" ->
  table_scripts.split_last (a +:+ s)
  = match table_scripts.split_last s with
    | Some (init, last) => Some (a +:+ init, last)
    | None => None
    end.
Proof.
  intros Hs. induction a as [|c a IH].
  - rewrite append_nil. by destruct (table_scripts.split_last s) as [[? ?]|].
  - rewrite append_cons. cbn [table_scripts.split_last]. rewrite IH.
    destruct (table_scripts.split_last s) as [[init last]|] eqn:E;
      [reflexivity|].
    destruct s as [|d s]; [done|]. cbn in E.
    by destruct (table_scripts.split_last s) as [[? ?]|].
Qed.

Lemma all_digits_split_last c ds :
  all_digits (String c ds) = true ->
  exists init last,
    table_scripts.split_last (String c ds) = Some (init, last) /\
    is_digit last = true /\
    (ds <> "" -> exists c' init', init = String c' init' /\ is_digit c' = true).
Proof.
  revert c. induction ds as [|d ds IH]; intros c Hd; cbn in Hd.
  - exists "", c. cbn. rewrite andb_true_r in Hd. by repeat split.
  - apply andb_prop in Hd as [Hc Hd].
    destruct (IH d Hd) as (init & last & Hs & Hl & _).
    exists (String c init), last. cbn in Hs |- *. rewrite Hs.
    repeat split; [done|]. intros _. eauto.
Qed.

(** An octave text of two characters or more ends in a digit, and what
    comes before that digit starts with a minus sign or a digit. *)
Lemma octave_text_split_last o :
  is_octave_text o = true -> (2 <= String.length o)%nat ->
  exists c init last,
    table_scripts.split_last o = Some (String c init, last) /\
    is_digit last = true /\
    (c = "-"%char \/ is_digit c = true).
Proof.
  intros Ho Hlen. destruct o as [|c ds]; [cbn in Hlen; lia|].
  destruct ds as [|d ds]; [cbn in Hlen; lia|].
  destruct (Ascii.eqb c "-") eqn:Ec.
  - apply Ascii.eqb_eq in Ec as ->. cbn [is_octave_text] in Ho.
    apply andb_prop in Ho as [Hd _].
    destruct (all_digits_split_last d ds Hd) as (init & last & Hs & Hl & _).
    exists "-"%char, init, last. cbn [table_scripts.split_last] in Hs |- *.
    rewrite Hs. repeat split; auto.
  - assert (Hd : all_digits (String c (String d ds)) = true).
    { unfold is_octave_text in Ho.
      destruct c as [[] [] [] [] [] [] [] []]; try discriminate Ec;
        by apply andb_prop in Ho as [Ho _]. }
    destruct (all_digits_split_last c (String d ds) Hd)
      as (init & last & Hs & Hl & Hi).
    destruct Hi as (c' & init' & -> & Hc'); [done|].
    exists c', init', last. repeat split; auto.
Qed.

Lemma int_single_digit c :
  is_digit c = true -> int (String c "") = Ok (digit_value c).
Proof.
  intros Hc. unfold int.
  destruct (Ascii.eqb c "-") eqn:E.
  - apply Ascii.eqb_eq in E as ->. discriminate Hc.
  - assert (String c "" = String c "") as _ by done.
    destruct c as [[] [] [] [] [] [] [] []]; try discriminate E;
      try discriminate Hc; reflexivity.
Qed.

Lemma index_from_not_in i x l :
  ~ In x l -> index_from i x l = Raise (ValueError (NotInList x)).
Proof.
  revert i. induction l as [|y l IH]; intros i Hx; cbn; [done|].
  destruct (String.eqb y x) eqn:E.
  - apply String.eqb_eq in E. exfalso. apply Hx. by left.
  - apply IH. intros H. apply Hx. by right.
Qed.

(** A note name followed by a minus sign or a digit is no note name. *)
Lemma extended_name_not_in n c rest :
  In n NOTE_NAMES -> c = "-"%char \/ is_digit c = true ->
  ~ In (n +:+ String c rest) NOTE_NAMES.
Proof.
  intros Hn Hc Hin.
  assert (Hsharp : c <> "#"%char) by (destruct Hc as [->| H]; [done|by intros ->]).
  unfold NOTE_NAMES in Hn, Hin. cbn in Hn.
  repeat (destruct Hn as [<-|Hn]; [
    rewrite ?append_cons, ?append_nil in Hin; cbn in Hin;
    repeat (destruct Hin as [Hin|Hin];
            [try discriminate Hin; injection Hin as Hin; congruence|]);
    destruct Hin|]).
  destruct Hn.
Qed.

Lemma slice_parse_of_long_octave n o t :
  In n NOTE_NAMES -> is_octave_text o = true -> (2 <= String.length o)%nat ->
  exists bad,
    table_scripts.with_midi table_scripts.BySlice
      (table_scripts.NoteInfo (n +:+ o) t)
    = Raise (ValueError (NotInList bad)) /\ bad <> n.
Proof.
  intros Hn Ho Hlen.
  destruct (octave_text_split_last o Ho Hlen)
    as (c & init & last & Hs & Hl & Hc).
  exists (n +:+ String c init). split.
  - unfold table_scripts.with_midi, table_scripts.parse_note,
      table_scripts.parse_by_slice. cbn [table_scripts.file_note].
    rewrite split_last_app by (intros ->; cbn in Hlen; lia).
    rewrite Hs, (int_single_digit last Hl).
    unfold mbind, result_bind. cbn beta iota.
    unfold index, table_scripts.note_names.
    by rewrite index_from_not_in by (by apply extended_name_not_in).
  - intros H. apply (f_equal String.length) in H.
    rewrite length_append in H. cbn in H. lia.
Qed.

Lemma mapM_Raise {A B} (f : A -> result B) l x e :
  In x l -> f x = Raise e -> exists e', mapM f l = Raise e'.
Proof.
  induction l as [|y l IH]; intros Hx Hf; [done|].
  change (mapM f (y :: l)) with (b ← f y; k ← mapM f l; mret (b :: k)).
  destruct (f y) as [b|e1] eqn:E; [|by exists e1].
  destruct Hx as [->|Hx]; [congruence|].
  destruct (IH Hx Hf) as [e' He']. exists e'.
  change ((k ← mapM f l; mret (b :: k)) = Raise e'). by rewrite He'.
Qed.

Lemma run_aborts_on_parse_error s notes_data w e :
  mapM (table_scripts.with_midi (table_scripts.parsing_of s)) notes_data
  = Raise e ->
  (table_scripts.run s notes_data w).1 = Raise e /\
  files (table_scripts.run s notes_data w).2 = files w /\
  console (table_scripts.run s notes_data w).2 = console w.
Proof.
  intros He. unfold table_scripts.run, table_scripts.notes_with_midi.
  rewrite He. unfold ensure_dir, os.path_exists, os.makedirs.
  unfold mbind, M_bind, mret, M_ret, lift, result_bind. cbn.
  by destruct (bool_decide _).
Qed.

(** What the anchored parse of spotlight_notes.py makes of the two
    names the slice cannot read. *)
Example regex_parse_reads_long_octaves :
  table_scripts.parse_by_regex "C-1" = Ok ("C", -1) /\
  table_scripts.parse_by_regex "C10" = Ok ("C", 10) /\
  table_scripts.parse_by_slice "C-1" = Ok ("C-", 1) /\
  table_scripts.parse_by_slice "C10" = Ok ("C1", 0).
Proof. repeat split; reflexivity. Qed.

(** C10.  In the scripts that take the last character as the octave:
    for a note name followed by one digit the slice reads what the
    anchored regular expression reads; for a note name followed by an
    octave text of two characters or more (a minus sign, or more than
    one digit) the slice leaves a name that is not in the table, so the
    lookup raises [ValueError]; nothing catches it, and the run of a
    table with such an entry ends in an exception before any file is
    written or any file notice printed.  The slice never gets as far as
    a wrong pitch for such an entry. *)
Theorem slice_parse_needs_single_digit_octave :
  (forall n d t,
     In n NOTE_NAMES -> 0 <= d <= 9 ->
     table_scripts.with_midi table_scripts.BySlice
       (table_scripts.NoteInfo (n +:+ str d) t)
     = table_scripts.with_midi table_scripts.ByRegex
         (table_scripts.NoteInfo (n +:+ str d) t) /\
     exists i,
       index NOTE_NAMES n = Ok i /\
       table_scripts.with_midi table_scripts.BySlice
         (table_scripts.NoteInfo (n +:+ str d) t)
       = Ok (table_scripts.NoteWithMidi (n +:+ str d) t ((d + 2) * 12 + i)
               n d i)) /\
  (forall n o t,
     In n NOTE_NAMES -> is_octave_text o = true ->
     (2 <= String.length o)%nat ->
     exists bad,
       table_scripts.with_midi table_scripts.BySlice
         (table_scripts.NoteInfo (n +:+ o) t)
       = Raise (ValueError (NotInList bad)) /\ bad <> n) /\
  (forall s notes_data n o t w,
     table_scripts.parsing_of s = table_scripts.BySlice ->
     In (table_scripts.NoteInfo (n +:+ o) t) notes_data ->
     In n NOTE_NAMES -> is_octave_text o = true ->
     (2 <= String.length o)%nat ->
     exists e,
       (table_scripts.run s notes_data w).1 = Raise e /\
       files (table_scripts.run s notes_data w).2 = files w /\
       console (table_scripts.run s notes_data w).2 = console w).
Proof.
  split; [|split].
  - intros n d t Hn Hd.
    assert (d = 0 \/ d = 1 \/ d = 2 \/ d = 3 \/ d = 4 \/ d = 5 \/ d = 6
            \/ d = 7 \/ d = 8 \/ d = 9) as Hcases by lia.
    unfold NOTE_NAMES in Hn. cbn in Hn.
    repeat (destruct Hn as [<-|Hn];
            [repeat (destruct Hcases as [->|Hcases]);
             try subst d; (split; [reflexivity|eexists; split; reflexivity])|]).
    destruct Hn.
  - intros n o t. apply slice_parse_of_long_octave.
  - intros s notes_data n o t w Hs Hin Hn Ho Hlen.
    destruct (slice_parse_of_long_octave n o t Hn Ho Hlen) as (bad & Hbad & _).
    rewrite <- Hs in Hbad.
    destruct (mapM_Raise _ _ _ _ Hin Hbad) as [e He].
    exists e. by apply run_aborts_on_parse_error.
Qed.

Lemma slice_parse_needs_single_digit_octave_witness :
  In "C" NOTE_NAMES /\ is_octave_text "-1" = true /\
  (2 <= String.length "-1")%nat /\
  exists bad,
    table_scripts.with_midi table_scripts.BySlice
      (table_scripts.NoteInfo ("C" +:+ "-1") "Low C")
    = Raise (ValueError (NotInList bad)) /\ bad <> "C".
Proof.
  assert (Hn : In "C" NOTE_NAMES) by (left; reflexivity).
  assert (Hlen : (2 <= String.length "-1")%nat) by (cbn; lia).
  split; [exact Hn|]. split; [reflexivity|]. split; [exact Hlen|].
  exact (proj1 (proj2 slice_parse_needs_single_digit_octave)
           "C" "-1" "Low C" Hn eq_refl Hlen).
Defined.

(** ** What the pairing check means *)

Lemma absolute_from_fst now t : map fst (absolute_from now t) = t.
Proof.
  revert now. induction t as [|m t IH]; intros now; cbn; [done|].
  by rewrite IH.
Qed.

Lemma take_sounding_count p q sounding began rest :
  take_sounding p sounding = Some (began, rest) ->
  List.length (List.filter (fun x : Z * Z => (x.1 =? q)%Z) sounding)
  = (List.length (List.filter (fun x : Z * Z => (x.1 =? q)%Z) rest)
     + if (p =? q)%Z then 1 else 0)%nat.
Proof.
  revert began rest. induction sounding as [|[r t] sounding IH];
    intros began rest; cbn; [discriminate|].
  destruct (r =? p) eqn:E.
  - intros [= <- <-]. apply Z.eqb_eq in E as ->.
    destruct (p =? q); cbn; lia.
  - destruct (take_sounding p sounding) as [[t' rest']|]; [|discriminate].
    intros [= <- <-]. cbn. specialize (IH _ _ eq_refl).
    destruct (r =? q); cbn [List.length]; rewrite IH; lia.
Qed.

Lemma paired_from_counts q sounding l :
  paired_from sounding l = true ->
  (List.length (List.filter (fun x : Z * Z => (x.1 =? q)%Z) sounding)
   + count_note_on q (map fst l))%nat
  = count_note_off q (map fst l).
Proof.
  revert sounding. induction l as [|[m at_] l IH]; intros sounding.
  - cbn. destruct sounding; [reflexivity|discriminate].
  - unfold count_note_on, count_note_off in *.
    destruct m as [| | |p v t|p v t|]; cbn [paired_from map fst List.filter];
      try (intros H; exact (IH _ H)).
    + intros H. specialize (IH _ H). rewrite <- IH.
      rewrite List.filter_app, List.length_app. cbn.
      destruct (p =? q); cbn; lia.
    + destruct (take_sounding p sounding) as [[began rest]|] eqn:E;
        [|discriminate].
      intros H. apply andb_prop in H as [_ H]. specialize (IH _ H).
      rewrite (take_sounding_count p q _ _ _ E).
      destruct (p =? q); cbn [List.length]; lia.
Qed.

(** In a well-paired track every pitch has as many note-offs as
    note-ons. *)
Lemma paired_track_counts q t :
  paired_track t = true -> count_note_on q t = count_note_off q t.
Proof.
  intros H. apply (paired_from_counts q) in H.
  unfold absolute_times in H. by rewrite absolute_from_fst in H.
Qed.

Example unpaired_tracks_are_refused :
  paired_track [note_on 60 64 0] = false /\
  paired_track [note_off 60 64 0; note_on 60 64 0] = false /\
  paired_track [note_on 60 64 0; note_off 61 64 10] = false /\
  paired_track [note_on 60 64 0; note_off 60 64 10; note_off 60 64 0] = false.
Proof. repeat split; reflexivity. Qed.

(** * Further properties of the code *)

(** ** Decimal text *)

Lemma uint_text_digits d : all_digits (NilEmpty.string_of_uint d) = true.
Proof. induction d; cbn; auto. Qed.

Lemma int_digits_acc d acc :
  int_digits (Z.pos acc) (NilEmpty.string_of_uint d)
  = Z.pos (Pos.of_uint_acc d acc).
Proof.
  revert acc. induction d; intros acc;
    cbn [NilEmpty.string_of_uint int_digits Pos.of_uint_acc];
    [reflexivity|..];
    match goal with
    | |- context [digit_value ?c] =>
        let v := eval vm_compute in (digit_value c) in
        change (digit_value c) with v
    end;
    match goal with
    | |- int_digits ?z _ = Z.pos (Pos.of_uint_acc _ ?a) =>
        replace z with (Z.pos a) by lia
    end; apply IHd.
Qed.

Lemma int_digits_uint d :
  int_digits 0 (NilEmpty.string_of_uint d) = Z.of_N (Pos.of_uint d).
Proof.
  induction d; cbn [NilEmpty.string_of_uint int_digits Pos.of_uint];
    [reflexivity|exact IHd|..];
    match goal with
    | |- context [digit_value ?c] =>
        let v := eval vm_compute in (digit_value c) in
        change (digit_value c) with v
    end;
    match goal with
    | |- int_digits ?z _ = Z.of_N (N.pos (Pos.of_uint_acc _ ?a)) =>
        replace z with (Z.pos a) by lia
    end; apply int_digits_acc.
Qed.

Lemma to_uint_text p :
  NilZero.string_of_uint (Pos.to_uint p) = NilEmpty.string_of_uint (Pos.to_uint p)
  /\ NilEmpty.string_of_uint (Pos.to_uint p) <> "".
Proof.
  pose proof (DecimalPos.Unsigned.of_to p) as H.
  destruct (Pos.to_uint p); cbn in *; try discriminate; by split.
Qed.

Lemma int_of_digit_text s :
  all_digits s = true -> s <> "" -> int s = Ok (int_digits 0 s).
Proof.
  intros Hd Hs. destruct s as [|c s]; [done|].
  unfold int. rewrite Hd. cbn [negb String.eqb andb].
  cbn in Hd. apply andb_prop in Hd as [Hc Hd].
  destruct c as [[] [] [] [] [] [] [] []]; try discriminate Hc; reflexivity.
Qed.

(** [int(str(n)) == n] for every integer. *)
Lemma int_str z : int (str z) = Ok z.
Proof.
  unfold str. destruct z as [|p|p]; cbn [Z.to_int NilZero.string_of_int].
  - reflexivity.
  - destruct (to_uint_text p) as [-> Hne].
    rewrite int_of_digit_text by (apply uint_text_digits || done).
    by rewrite int_digits_uint, DecimalPos.Unsigned.of_to.
  - destruct (to_uint_text p) as [-> Hne].
    unfold int. rewrite uint_text_digits.
    destruct (NilEmpty.string_of_uint (Pos.to_uint p)) eqn:E; [done|].
    cbn [negb String.eqb andb]. rewrite <- E.
    by rewrite int_digits_uint, DecimalPos.Unsigned.of_to.
Qed.

(** The text of an integer is an octave text: digits after an optional
    minus sign. *)
Lemma str_shape z :
  exists sign ds,
    str z = sign +:+ ds /\ (sign = "" \/ sign = "-") /\
    all_digits ds = true /\ ds <> "".
Proof.
  unfold str. destruct z as [|p|p]; cbn [Z.to_int NilZero.string_of_int].
  - exists "", "0". by repeat split; auto.
  - destruct (to_uint_text p) as [-> Hne].
    eexists "", _. repeat split; auto. apply uint_text_digits.
  - destruct (to_uint_text p) as [-> Hne].
    eexists "-", _. repeat split; auto. apply uint_text_digits.
Qed.

(** ** The regular expression on the names the scripts build *)

Lemma match_note_unfold c s1 :
  re.match_note (String c s1)
  = if is_A_to_G c
    then match s1 with
         | String "#" s' => match_octave (String c "#") s'
         | _ => match_octave (String c "") s1
         end
    else None.
Proof.
  unfold re.match_note, match_octave. destruct (is_A_to_G c); [|reflexivity].
  destruct s1 as [|d s1]; [reflexivity|].
  destruct d as [[] [] [] [] [] [] [] []]; reflexivity.
Qed.

Lemma span_digits_app ds rest :
  all_digits ds = true -> no_digit_ahead rest ->
  span_digits (ds +:+ rest) = (ds, rest).
Proof.
  intros Hd Hr. induction ds as [|c ds IH].
  - rewrite append_nil. destruct rest as [|c r]; [reflexivity|].
    cbn in Hr |- *. by rewrite Hr.
  - cbn in Hd. apply andb_prop in Hd as [Hc Hd].
    rewrite append_cons. cbn [span_digits]. by rewrite Hc, (IH Hd).
Qed.

Lemma span_digits_sound s ds rest :
  span_digits s = (ds, rest) ->
  s = ds +:+ rest /\ all_digits ds = true /\ no_digit_ahead rest.
Proof.
  revert ds rest. induction s as [|c s IH]; intros ds rest; cbn.
  - by intros [= <- <-].
  - destruct (is_digit c) eqn:Hc.
    + destruct (span_digits s) as [ds' rest'].
      intros [= <- <-]. destruct (IH _ _ eq_refl) as (-> & Hd & Hr).
      rewrite append_cons. cbn. by rewrite Hc, Hd.
    + intros [= <- <-]. rewrite append_nil. cbn. by rewrite Hc.
Qed.

Lemma digit_is_not_minus c : is_digit c = true -> c <> "-"%char.
Proof. by intros H ->. Qed.

Lemma match_octave_digits g1 ds rest :
  all_digits ds = true -> ds <> "" -> no_digit_ahead rest ->
  match_octave g1 (ds +:+ rest) = Some (g1, ds, rest) /\
  match_octave g1 (String "-" (ds +:+ rest)) = Some (g1, String "-" ds, rest).
Proof.
  intros Hd Hne Hr. unfold match_octave. split.
  - destruct ds as [|d ds]; [done|].
    pose proof (span_digits_app (String d ds) rest Hd Hr) as Hspan.
    assert (Hdig : is_digit d = true) by (cbn in Hd; by apply andb_prop in Hd as [? _]).
    rewrite append_cons in Hspan |- *.
    destruct d as [[] [] [] [] [] [] [] []]; try discriminate Hdig;
      cbv beta iota; rewrite Hspan; reflexivity.
  - rewrite span_digits_app by done.
    destruct ds as [|d ds]; [done|]. reflexivity.
Qed.

Lemma octave_text_shape o :
  is_octave_text o = true <->
  exists sign ds, o = sign +:+ ds /\ (sign = "" \/ sign = "-") /\
    all_digits ds = true /\ ds <> "".
Proof.
  split.
  - destruct o as [|c r]; [discriminate|].
    destruct (Ascii.eqb_spec c "-") as [->|Hc].
    + cbn. intros H. apply andb_prop in H as [Hd Hne].
      exists "-", r.
      split; [done|]. split; [by right|]. split; [done|].
      intros ->. discriminate.
    + intros H. exists "", (String c r). rewrite append_nil.
      split; [done|]. split; [by left|]. split; [|discriminate].
      destruct c as [[] [] [] [] [] [] [] []]; try (by destruct Hc);
        cbn in H; by apply andb_prop in H as [? _].
  - intros (sign & ds & -> & Hs & Hd & Hne).
    destruct ds as [|d ds]; [done|].
    destruct Hs as [->| ->].
    + rewrite append_nil. pose proof Hd as Hd'. cbn in Hd'.
      apply andb_prop in Hd' as [Hdig _].
      destruct d as [[] [] [] [] [] [] [] []]; try discriminate Hdig;
        cbn [is_octave_text]; by rewrite Hd.
    + rewrite append_cons, append_nil. cbn [is_octave_text]. by rewrite Hd.
Qed.

Lemma str_octave_text z : is_octave_text (str z) = true.
Proof. apply octave_text_shape, str_shape. Qed.

Lemma int_octave_text o z : int o = Ok z -> is_octave_text o = true.
Proof.
  destruct o as [|c r]; [discriminate|].
  destruct c as [[] [] [] [] [] [] [] []]; cbn [int is_octave_text];
    by destruct (_ && _).
Qed.

Lemma match_octave_text g1 o rest :
  is_octave_text o = true -> no_digit_ahead rest ->
  match_octave g1 (o +:+ rest) = Some (g1, o, rest).
Proof.
  intros Ho Hr. apply octave_text_shape in Ho as (sign & ds & -> & Hs & Hd & Hne).
  destruct (match_octave_digits g1 ds rest Hd Hne Hr) as [H1 H2].
  destruct Hs as [->| ->].
  - by rewrite !append_nil.
  - by rewrite !append_cons, !append_nil.
Qed.

Lemma octave_text_head_not_sharp o rest :
  is_octave_text o = true ->
  exists c r, o +:+ rest = String c r /\ c <> "#"%char.
Proof.
  intros Ho. apply octave_text_shape in Ho as (sign & ds & -> & Hs & Hd & Hne).
  destruct ds as [|d ds]; [done|].
  cbn in Hd. apply andb_prop in Hd as [Hc _].
  destruct Hs as [->| ->].
  - rewrite append_nil, append_cons. eexists _, _. split; [done|].
    by intros ->.
  - rewrite !append_cons. eexists _, _. split; [done|]. done.
Qed.

Lemma match_note_natural c o rest :
  is_A_to_G c = true -> is_octave_text o = true -> no_digit_ahead rest ->
  re.match_note (String c (o +:+ rest)) = Some (String c "", o, rest).
Proof.
  intros Hc Ho Hr. rewrite match_note_unfold, Hc.
  destruct (octave_text_head_not_sharp o rest Ho) as (d & r & E & Hd).
  rewrite <- (match_octave_text (String c "") o rest Ho Hr).
  rewrite E.
  destruct d as [[] [] [] [] [] [] [] []]; try reflexivity. done.
Qed.

Lemma match_note_sharp c o rest :
  is_A_to_G c = true -> is_octave_text o = true -> no_digit_ahead rest ->
  re.match_note (String c (String "#" (o +:+ rest)))
  = Some (String c "#", o, rest).
Proof.
  intros Hc Ho Hr. rewrite match_note_unfold, Hc.
  by apply match_octave_text.
Qed.

Lemma note_index_cases i :
  0 <= i < 12 ->
  i = 0 \/ i = 1 \/ i = 2 \/ i = 3 \/ i = 4 \/ i = 5 \/ i = 6 \/ i = 7
  \/ i = 8 \/ i = 9 \/ i = 10 \/ i = 11.
Proof. lia. Qed.

Lemma match_note_built i o rest :
  0 <= i < 12 -> is_octave_text o = true -> no_digit_ahead rest ->
  re.match_note (nth_str NOTE_NAMES i +:+ o +:+ rest)
  = Some (nth_str NOTE_NAMES i, o, rest) /\
  index NOTE_NAMES (nth_str NOTE_NAMES i) = Ok i.
Proof.
  intros Hi Ho Hr.
  apply note_index_cases in Hi.
  repeat (destruct Hi as [->|Hi]); try subst i;
    (split; [|reflexivity]);
    match goal with
    | |- re.match_note (?n +:+ _) = _ =>
        let v := eval vm_compute in n in change n with v
    end;
    rewrite !append_cons, append_nil;
    (by apply match_note_natural) || (by apply match_note_sharp).
Qed.

Lemma match_octave_sound g1 s2 g g2 rest :
  match_octave g1 s2 = Some (g, g2, rest) ->
  g = g1 /\ s2 = g2 +:+ rest /\ is_octave_text g2 = true /\ no_digit_ahead rest.
Proof.
  assert (Hgen : forall sign s3,
    sign = "" \/ sign = "-" ->
    (let '(ds, rest) := span_digits s3 in
     if String.eqb ds "" then None else Some (g1, sign +:+ ds, rest))
    = Some (g, g2, rest) ->
    g = g1 /\ sign +:+ s3 = g2 +:+ rest /\ is_octave_text g2 = true
    /\ no_digit_ahead rest).
  { intros sign s3 Hs. destruct (span_digits s3) as [ds r] eqn:E.
    apply span_digits_sound in E as (-> & Hd & Hr).
    destruct (String.eqb_spec ds "") as [|Hne]; [discriminate|].
    intros [= <- <- <-]. split; [done|]. split.
    - destruct Hs as [->| ->]; by rewrite ?append_cons, ?append_nil.
    - split; [|done]. apply octave_text_shape. by exists sign, ds. }
  unfold match_octave. destruct s2 as [|c s'].
  - intros H. apply (Hgen "" "") in H; [|by left].
    by rewrite append_nil in H.
  - destruct (Ascii.eqb_spec c "-") as [->|Hc].
    + intros H. apply (Hgen "-" s') in H; [|by right].
      by rewrite append_cons, append_nil in H.
    + intros H.
      assert (H' : (let '(ds, rest) := span_digits (String c s') in
                    if String.eqb ds "" then None
                    else Some (g1, "" +:+ ds, rest)) = Some (g, g2, rest)).
      { destruct c as [[] [] [] [] [] [] [] []]; try exact H.
        by destruct Hc. }
      apply (Hgen "" (String c s')) in H'; [|by left].
      by rewrite append_nil in H'.
Qed.

Lemma match_note_sound s g1 g2 rest :
  re.match_note s = Some (g1, g2, rest) ->
  s = g1 +:+ g2 +:+ rest /\ is_octave_text g2 = true /\ no_digit_ahead rest.
Proof.
  destruct s as [|c s1]; [discriminate|].
  rewrite match_note_unfold. destruct (is_A_to_G c); [|discriminate].
  destruct s1 as [|d s'].
  - intros H. apply match_octave_sound in H as (_ & Hs & Ho & _).
    destruct g2; discriminate.
  - destruct (Ascii.eqb_spec d "#") as [->|Hd].
    + intros H. apply match_octave_sound in H as (-> & -> & Ho & Hr).
      by rewrite !append_cons, append_nil.
    + intros H.
      assert (H' : match_octave (String c "") (String d s')
                   = Some (g1, g2, rest)).
      { destruct d as [[] [] [] [] [] [] [] []]; try exact H.
        by destruct Hd. }
      apply match_octave_sound in H' as (-> & -> & Ho & Hr).
      by rewrite !append_cons, append_nil.
Qed.

Lemma index_from_sound l x k i :
  index_from k x l = Ok i ->
  k <= i < k + Z.of_nat (List.length l) /\ nth (Z.to_nat (i - k)) l "" = x.
Proof.
  revert k. induction l as [|y l IH]; intros k; cbn [index_from]; [discriminate|].
  destruct (String.eqb_spec y x) as [->|Hne].
  - intros [= <-]. cbn [List.length]. split; [lia|].
    by rewrite Z.sub_diag.
  - intros H. apply IH in H as [Hi Hn]. cbn [List.length]. split; [lia|].
    replace (Z.to_nat (i - k)) with (S (Z.to_nat (i - (k + 1)))) by lia.
    exact Hn.
Qed.

Lemma index_sound l x i :
  index l x = Ok i -> 0 <= i < Z.of_nat (List.length l) /\ nth_str l i = x.
Proof.
  intros H. apply index_from_sound in H as [Hi Hn].
  split; [lia|]. unfold nth_str. by rewrite Z.sub_0_r in Hn.
Qed.

Lemma parse_built_name i o rest octave :
  0 <= i < 12 -> int o = Ok octave -> no_digit_ahead rest ->
  parse_display_name (nth_str NOTE_NAMES i +:+ o +:+ rest) = Ok (octave, i).
Proof.
  intros Hi Ho Hr. unfold parse_display_name.
  destruct (match_note_built i o rest Hi (int_octave_text _ _ Ho) Hr)
    as [-> Hidx].
  rewrite Ho. unfold mbind, result_bind. by rewrite Hidx.
Qed.

(** X1: the parser of the creation functions accepts exactly the names
    made of an entry of [NOTE_NAMES], an octave text [-?\d+] and a rest
    that does not go on with a digit, and it returns the number the
    octave text denotes and the position of the note name. *)
Theorem parse_display_name_spec (name : string) (octave i : Z) :
  parse_display_name name = Ok (octave, i) <->
  0 <= i < 12 /\
  exists o rest,
    name = nth_str NOTE_NAMES i +:+ o +:+ rest /\
    int o = Ok octave /\ no_digit_ahead rest.
Proof.
  split.
  - unfold parse_display_name.
    destruct (re.match_note name) as [[[g1 g2] rest]|] eqn:E; [|discriminate].
    apply match_note_sound in E as (-> & Ho & Hr).
    destruct (int g2) as [z|e] eqn:Hz; [|discriminate].
    unfold mbind, result_bind.
    destruct (index NOTE_NAMES g1) as [j|e] eqn:Hj;
      [|by destruct e as [?| | | |]].
    intros [= <- <-]. apply index_sound in Hj as [Hj <-].
    split; [exact Hj|]. by exists g2, rest.
  - intros (Hi & o & rest & -> & Ho & Hr). by apply parse_built_name.
Qed.

Lemma append_empty_r s : s +:+ "" = s.
Proof. induction s as [|c s IH]; [done|]. by rewrite append_cons, IH. Qed.

Lemma parse_note_text i octave :
  0 <= i < 12 -> parse_display_name (note_text i octave) = Ok (octave, i).
Proof.
  intros Hi. unfold note_text.
  rewrite <- (append_empty_r (str octave)).
  apply parse_built_name; [exact Hi|apply int_str|exact I].
Qed.

Lemma parse_display_name_inv name octave i :
  parse_display_name name = Ok (octave, i) ->
  0 <= i < 12 /\
  exists g1 g2 rest,
    re.match_note name = Some (g1, g2, rest) /\ int g2 = Ok octave /\
    index NOTE_NAMES g1 = Ok i.
Proof.
  unfold parse_display_name.
  destruct (re.match_note name) as [[[g1 g2] rest]|] eqn:E; [|discriminate].
  destruct (int g2) as [z|e] eqn:Hz; [|discriminate].
  unfold mbind, result_bind.
  destruct (index NOTE_NAMES g1) as [j|e] eqn:Hj;
    [|by destruct e as [?| | | |]].
  intros [= <- <-]. split; [by apply index_sound in Hj as [? _]|].
  by exists g1, g2, rest.
Qed.

(** ** From a MIDI number to its name and back, for every integer *)

Lemma split_by_twelve m k : (m / 12 - k + k) * 12 + m mod 12 = m.
Proof. pose proof (Z.div_mod m 12). lia. Qed.

Lemma standard_parse_back m :
  create_notes.standard_midi_of (create_notes.standard_name_of m)
  = (if (m <? 0) || (127 <? m)
     then Raise (ValueError (OutOfRange (create_notes.standard_name_of m) m))
     else Ok m).
Proof.
  pose proof (Z.mod_pos_bound m 12 eq_refl) as Hi.
  unfold create_notes.standard_midi_of, create_notes.standard_name_of.
  fold (note_text (m mod 12) (m / 12 - 1)). rewrite parse_note_text by done.
  unfold mbind, result_bind. cbn beta iota zeta.
  by rewrite (split_by_twelve m 1).
Qed.

Lemma ableton_parse_back m :
  create_notes.ableton_midi_of (create_notes.ableton_display_of m)
  = (if (m <? 0) || (127 <? m)
     then Raise (ValueError (OutOfRange (create_notes.ableton_display_of m) m))
     else Ok m).
Proof.
  pose proof (Z.mod_pos_bound m 12 eq_refl) as Hi.
  unfold create_notes.ableton_midi_of, create_notes.ableton_display_of.
  fold (note_text (m mod 12) (m / 12 - 2)). rewrite parse_note_text by done.
  unfold mbind, result_bind. cbn beta iota zeta.
  by rewrite (split_by_twelve m 2).
Qed.

Lemma chord_root_parse_back m :
  create_chords.root_midi_of (create_chords.midi_to_standard_notation m)
  = Ok m.
Proof.
  pose proof (Z.mod_pos_bound m 12 eq_refl) as Hi.
  unfold create_chords.root_midi_of, create_chords.midi_to_standard_notation,
    create_chords.note_names.
  fold (note_text (m mod 12) (m / 12 - 2)). rewrite parse_note_text by done.
  unfold mbind, result_bind. cbn beta iota zeta.
  by rewrite (split_by_twelve m 2).
Qed.

(** X2: each naming function of create_notes.py is inverted by the
    parse of the matching creation function on every integer, not only
    on MIDI numbers: the number comes back when it lies in 0..127 and
    the out-of-range error carries it otherwise.  In create_chords.py
    the parse inverts [midi_to_standard_notation] and is twelve above on
    [midi_to_ableton_notation], on every integer. *)
Theorem names_of_numbers_parse_back (m : Z) :
  create_notes.standard_midi_of (create_notes.standard_name_of m)
  = (if (m <? 0) || (127 <? m)
     then Raise (ValueError (OutOfRange (create_notes.standard_name_of m) m))
     else Ok m) /\
  create_notes.ableton_midi_of (create_notes.ableton_display_of m)
  = (if (m <? 0) || (127 <? m)
     then Raise (ValueError (OutOfRange (create_notes.ableton_display_of m) m))
     else Ok m) /\
  create_chords.root_midi_of (create_chords.midi_to_standard_notation m)
  = Ok m /\
  create_chords.root_midi_of (create_chords.midi_to_ableton_notation m)
  = Ok (m + 12).
Proof.
  split; [apply standard_parse_back|].
  split; [apply ableton_parse_back|].
  split; [apply chord_root_parse_back|].
  pose proof (Z.mod_pos_bound m 12 eq_refl) as Hi.
  unfold create_chords.root_midi_of, create_chords.midi_to_ableton_notation,
    create_chords.note_names.
  fold (note_text (m mod 12) (m / 12 - 1)). rewrite parse_note_text by done.
  unfold mbind, result_bind. cbn beta iota zeta.
  f_equal. pose proof (Z.div_mod m 12). lia.
Qed.

(** ** The notes of a range *)

Lemma In_range a b x : In x (range a b) <-> a <= x < b.
Proof.
  unfold range. rewrite in_map_iff. split.
  - intros (k & <- & Hk). apply in_seq in Hk. lia.
  - intros Hx. exists (Z.to_nat (x - a)). split; [lia|].
    apply in_seq. lia.
Qed.

Lemma range_app a b c :
  a <= b <= c -> range a c = (range a b ++ range b c)%list.
Proof.
  intros H. remember (Z.to_nat (b - a)) as n eqn:Hn.
  revert a Hn H. induction n as [|n IH]; intros a Hn H.
  - by rewrite (range_nil a b) by lia; replace a with b by lia.
  - rewrite (range_cons a c), (range_cons a b) by lia. cbn [app].
    f_equal. apply IH; lia.
Qed.

Lemma range_shift k a b : map (Z.add k) (range a b) = range (k + a) (k + b).
Proof.
  unfold range. rewrite map_map.
  replace (k + b - (k + a)) with (b - a) by lia.
  apply map_ext. intros i. lia.
Qed.

Lemma flat_map_ext_in {A B} (f g : A -> list B) l :
  (forall x, In x l -> f x = g x) -> flat_map f l = flat_map g l.
Proof.
  induction l as [|x l IH]; intros H; [done|]. cbn.
  rewrite (H x) by (by left). f_equal. apply IH. intros y Hy. apply H.
  by right.
Qed.

Section SortSorted.
Context {A : Type} (key : A -> Z).

Lemma insert_by_last x l :
  Forall (fun y => key y <= key x) l -> insert_by key x l = (l ++ [x])%list.
Proof.
  induction 1 as [|y l Hy Hl IH]; [done|]. cbn.
  destruct (Z.ltb_spec (key x) (key y)); [lia|]. by rewrite IH.
Qed.

Lemma fold_insert_sorted_id l acc :
  StronglySorted Z.le (map key (acc ++ l)) ->
  fold_left (fun acc x => insert_by key x acc) l acc = (acc ++ l)%list.
Proof.
  revert acc. induction l as [|x l IH]; intros acc Hs; cbn.
  - by rewrite app_nil_r.
  - rewrite insert_by_last.
    + rewrite IH; rewrite <- app_assoc; [done|exact Hs].
    + clear IH. induction acc as [|y acc IHacc]; [constructor|].
      cbn in Hs. apply StronglySorted_inv in Hs as [Hs Hy].
      constructor; [|by apply IHacc].
      rewrite List.Forall_forall in Hy. apply Hy.
      rewrite map_app. apply in_or_app. right. by left.
Qed.

(** Sorting a list that is in order already changes nothing. *)
Lemma sort_by_sorted_id l :
  Sorted Z.le (map key l) -> sort_by key l = l.
Proof.
  intros Hs. unfold sort_by. apply (fold_insert_sorted_id l []).
  apply Sorted_StronglySorted; [|exact Hs].
  intros x y z. apply Z.le_trans.
Qed.

End SortSorted.

Lemma range_sorted a b : Sorted Z.le (range a b).
Proof.
  remember (Z.to_nat (b - a)) as n eqn:Hn.
  revert a Hn. induction n as [|n IH]; intros a Hn.
  - rewrite range_nil by lia. constructor.
  - rewrite range_cons by lia. constructor; [apply IH; lia|].
    destruct (Z.lt_ge_cases (a + 1) b).
    + rewrite range_cons by lia. constructor. lia.
    + rewrite range_nil by lia. constructor.
Qed.

(** One octave of the range loop, written on MIDI numbers. *)
Lemma octave_block offset o lo hi :
  0 <= lo -> hi <= 12 ->
  map (fun note_idx =>
         (nth_str NOTE_NAMES note_idx +:+ str o, (o + offset) * 12 + note_idx))
      (range lo hi)
  = map (fun m => (note_text (m mod 12) (m / 12 - offset), m))
        (range ((o + offset) * 12 + lo) ((o + offset) * 12 + hi)).
Proof.
  intros Hlo Hhi. rewrite <- range_shift, map_map.
  apply map_ext_in. intros i Hi. apply In_range in Hi.
  unfold note_text.
  replace (((o + offset) * 12 + i) mod 12) with i
    by (rewrite Z.add_comm, Z.mod_add by lia; symmetry; apply Z.mod_small; lia).
  replace (((o + offset) * 12 + i) / 12 - offset) with o
    by (rewrite Z.add_comm, Z.div_add by lia; rewrite Z.div_small by lia; lia).
  done.
Qed.

Lemma full_octaves offset n p :
  flat_map (fun o =>
              map (fun note_idx =>
                     (nth_str NOTE_NAMES note_idx +:+ str o,
                      (o + offset) * 12 + note_idx))
                  (range 0 12))
           (range p (p + Z.of_nat n))
  = map (fun m => (note_text (m mod 12) (m / 12 - offset), m))
        (range ((p + offset) * 12) ((p + Z.of_nat n + offset) * 12)).
Proof.
  revert p. induction n as [|n IH]; intros p.
  - rewrite (range_nil p), (range_nil (_ * 12)) by lia. done.
  - rewrite (range_cons p) by lia. cbn [flat_map].
    replace (p + Z.of_nat (S n)) with (p + 1 + Z.of_nat n) by lia.
    rewrite IH, octave_block by lia.
    rewrite (range_app ((p + offset) * 12) ((p + 1 + offset) * 12)) by lia.
    rewrite map_app. do 2 f_equal; f_equal; lia.
Qed.

Lemma notes_between offset o1 i1 o2 i2 :
  0 <= i1 < 12 -> 0 <= i2 < 12 ->
  flat_map (fun octave =>
    let note_start_index := if octave =? o1 then i1 else 0 in
    let note_end_index := if octave =? o2 then i2 + 1 else 12 in
    map (fun note_idx =>
           let note_name := nth_str NOTE_NAMES note_idx in
           let display_name := note_name +:+ str octave in
           let midi_num := (octave + offset) * 12 + note_idx in
           (display_name, midi_num))
        (range note_start_index note_end_index))
    (range o1 (o2 + 1))
  = map (fun m => (note_text (m mod 12) (m / 12 - offset), m))
        (range ((o1 + offset) * 12 + i1) ((o2 + offset) * 12 + i2 + 1)).
Proof.
  intros H1 H2. cbv zeta.
  destruct (Z.lt_trichotomy o2 o1) as [Hlt|[->|Hlt]].
  - rewrite (range_nil o1), (range_nil (_ + i1)) by lia. done.
  - rewrite (range_cons o1), (range_nil (o1 + 1)) by lia. cbn [flat_map].
    rewrite Z.eqb_refl, app_nil_r, octave_block by lia.
    f_equal. f_equal. lia.
  - rewrite range_cons by lia. cbn [flat_map]. rewrite Z.eqb_refl.
    destruct (Z.eqb_spec o1 o2); [lia|].
    rewrite (range_app (o1 + 1) o2 (o2 + 1)) by lia.
    rewrite (range_cons o2), (range_nil (o2 + 1)) by lia.
    rewrite flat_map_app. cbn [flat_map]. rewrite Z.eqb_refl, app_nil_r.
    destruct (Z.eqb_spec o2 o1); [lia|].
    rewrite (flat_map_ext_in _
               (fun o => map (fun note_idx =>
                  (nth_str NOTE_NAMES note_idx +:+ str o,
                   (o + offset) * 12 + note_idx)) (range 0 12))).
    2:{ intros o Ho. apply In_range in Ho.
        destruct (Z.eqb_spec o o1); [lia|].
        destruct (Z.eqb_spec o o2); [lia|]. done. }
    replace o2 with (o1 + 1 + Z.of_nat (Z.to_nat (o2 - o1 - 1))) at 1 by lia.
    rewrite full_octaves, !octave_block by lia.
    rewrite <- !map_app. f_equal.
    replace (o1 + 1 + Z.of_nat (Z.to_nat (o2 - o1 - 1))) with o2 by lia.
    rewrite (range_app ((o1 + offset) * 12 + i1) ((o1 + offset) * 12 + 12)
               ((o2 + offset) * 12 + i2 + 1)) by lia.
    f_equal.
    rewrite (range_app ((o1 + offset) * 12 + 12) ((o2 + offset) * 12)
               ((o2 + offset) * 12 + i2 + 1)) by lia.
    f_equal; f_equal; lia.
Qed.

Lemma all_notes_in_range_Ok offset s e o1 i1 o2 i2 :
  parse_display_name s = Ok (o1, i1) ->
  parse_display_name e = Ok (o2, i2) ->
  all_notes_in_range offset s e
  = Ok (map (fun m => (note_text (m mod 12) (m / 12 - offset), m))
            (range ((o1 + offset) * 12 + i1) ((o2 + offset) * 12 + i2 + 1))).
Proof.
  intros Hs He.
  apply parse_display_name_inv in Hs as (H1 & g1 & t1 & r1 & Hm1 & Ht1 & Hi1).
  apply parse_display_name_inv in He as (H2 & g2 & t2 & r2 & Hm2 & Ht2 & Hi2).
  unfold all_notes_in_range. rewrite Hm1, Hm2, Ht1, Ht2.
  unfold mbind, result_bind. rewrite Hi1, Hi2.
  pose proof (notes_between offset o1 i1 o2 i2 H1 H2) as Hn.
  cbv zeta in Hn. rewrite Hn.
  rewrite sort_by_sorted_id; [done|].
  rewrite map_map. cbn [snd]. rewrite map_id. apply range_sorted.
Qed.

Lemma index_value_or_ValueError l x : value_or_ValueError (index l x).
Proof.
  unfold index. generalize 0. induction l as [|y l IH]; intros k; cbn; [done|].
  destruct (String.eqb y x); [done|apply IH].
Qed.

Lemma all_notes_in_range_Raise offset s e :
  (forall o i, parse_display_name s <> Ok (o, i)) \/
  (forall o i, parse_display_name e <> Ok (o, i)) ->
  exists err, all_notes_in_range offset s e = Raise (ValueError err).
Proof.
  unfold parse_display_name, all_notes_in_range.
  destruct (re.match_note s) as [[[g1 t1] r1]|];
    [|intros _; destruct (re.match_note e) as [[[? ?] ?]|]; eauto].
  destruct (re.match_note e) as [[[g2 t2] r2]|]; [|eauto].
  pose proof (int_value_or_ValueError t1) as Ht1.
  pose proof (int_value_or_ValueError t2) as Ht2.
  pose proof (index_value_or_ValueError NOTE_NAMES g1) as Hg1.
  pose proof (index_value_or_ValueError NOTE_NAMES g2) as Hg2.
  unfold mbind, result_bind.
  destruct (int t1) as [o1|[e1| | | |]]; cbn in Ht1; try done; [|eauto].
  destruct (int t2) as [o2|[e2| | | |]]; cbn in Ht2; try done; [|eauto].
  destruct (index NOTE_NAMES g1) as [i1|[e1| | | |]]; cbn in Hg1; try done;
    [|eauto].
  destruct (index NOTE_NAMES g2) as [i2|[e2| | | |]]; cbn in Hg2; try done;
    [|eauto].
  intros [H|H]; by destruct (H _ _ eq_refl).
Qed.

(** X3: between two names that parse, the range loop lists exactly the
    MIDI numbers from that of the start note to that of the end note,
    each once and in ascending order (so the sort that follows changes
    nothing), each with the name made of its pitch class and octave;
    the list is empty when the end lies below the start.  When a name
    does not parse the loop raises [ValueError]. *)
Theorem all_notes_in_range_spec (offset : Z) (s e : string) :
  match parse_display_name s, parse_display_name e with
  | Ok (o1, i1), Ok (o2, i2) =>
      all_notes_in_range offset s e
      = Ok (map (fun m => (note_text (m mod 12) (m / 12 - offset), m))
              (range ((o1 + offset) * 12 + i1) ((o2 + offset) * 12 + i2 + 1)))
  | _, _ => exists err, all_notes_in_range offset s e = Raise (ValueError err)
  end.
Proof.
  destruct (parse_display_name s) as [[o1 i1]|e1] eqn:Hs.
  - destruct (parse_display_name e) as [[o2 i2]|e2] eqn:He.
    + by apply all_notes_in_range_Ok.
    + apply all_notes_in_range_Raise. right. intros o i. by rewrite He.
  - apply all_notes_in_range_Raise. left. intros o i. by rewrite Hs.
Qed.

(** ** The range drivers in closed form *)

Lemma ensure_dir_effect p w :
  ensure_dir p w = (Ok (), apply_effect w (MkDir (resolve (cwd w) p))).
Proof.
  unfold ensure_dir, mbind, M_bind, os.path_exists, os.makedirs. cbn.
  case_bool_decide as Hin; cbn; [|reflexivity].
  destruct w as [c d f o]; cbn in *.
  replace ({[resolve c p]} ∪ d) with d; [done|].
  symmetry. apply subseteq_union_1_L. by apply singleton_subseteq_l.
Qed.

Lemma for_fold_effects {A} (body : Z -> A -> M Z) (created : A -> bool)
    (eff : list string -> A -> list effect) l :
  (forall count x w, In x l ->
     body count x w
     = (Ok (count + (if created x then 1 else 0)),
        apply_effects (eff (cwd w) x) w)) ->
  forall count w,
    for_fold l count body w
    = (Ok (count + Z.of_nat (List.length (List.filter created l))),
       apply_effects (flat_map (eff (cwd w)) l) w).
Proof.
  induction l as [|x l IH]; intros Hb count w.
  - cbn. unfold mret, M_ret. do 2 f_equal. lia.
  - cbn [for_fold flat_map List.filter]. unfold mbind, M_bind.
    rewrite (Hb count x w) by (by left).
    rewrite IH by (intros; apply Hb; by right).
    rewrite cwd_apply_effects, apply_effects_app.
    f_equal. f_equal. destruct (created x); cbn [List.length]; lia.
Qed.

Lemma enumerate_map {A B} (f : A -> B) k l :
  enumerate k (map f l) = map (fun x => (x.1, f x.2)) (enumerate k l).
Proof.
  revert k. induction l as [|x l IH]; intros k; [done|].
  cbn. by rewrite IH.
Qed.

Lemma flat_map_map {A B C} (f : B -> list C) (g : A -> B) l :
  flat_map f (map g l) = flat_map (fun x => f (g x)) l.
Proof. induction l as [|x l IH]; [done|]. cbn. by rewrite IH. Qed.

Lemma filter_map {A B} (p : B -> bool) (g : A -> B) l :
  List.filter p (map g l) = map g (List.filter (fun x => p (g x)) l).
Proof.
  induction l as [|x l IH]; [done|]. cbn. rewrite IH.
  by destruct (p (g x)).
Qed.

Lemma length_range a b : List.length (range a b) = Z.to_nat (b - a).
Proof. unfold range. by rewrite length_map, length_seq. Qed.

Lemma filter_in_midi_range a c :
  List.filter in_midi_range (range a c) = range (Z.max a 0) (Z.min c 128).
Proof.
  remember (Z.to_nat (c - a)) as n eqn:Hn.
  revert a Hn. induction n as [|n IH]; intros a Hn.
  - by rewrite !range_nil by lia.
  - rewrite (range_cons a c) by lia. cbn [List.filter].
    rewrite IH by lia. unfold in_midi_range.
    destruct (Z.ltb_spec a 0); cbn [orb negb].
    + f_equal. lia.
    + destruct (Z.ltb_spec 127 a); cbn [negb].
      * by rewrite !range_nil by lia.
      * rewrite (range_cons (Z.max a 0)) by lia. f_equal; [lia|].
        f_equal. lia.
Qed.

Lemma count_created {A} (p : A -> bool) k l :
  List.length (List.filter (fun x : Z * A => p x.2) (enumerate k l))
  = List.length (List.filter p l).
Proof.
  rewrite <- (enumerate_snd k l) at 2.
  by rewrite filter_map, length_map.
Qed.

Lemma count_in_midi_range_length a b :
  Z.of_nat (List.length (List.filter in_midi_range (range a (b + 1))))
  = count_in_midi_range a b.
Proof.
  rewrite filter_in_midi_range, length_range. unfold count_in_midi_range. lia.
Qed.

Lemma ableton_range_body_effects names dirname d count k m w :
  create_notes.ableton_range_body (Rel [dirname]) names d count
    (k, (create_notes.ableton_display_of m, m)) w
  = (Ok (count + (if in_midi_range m then 1 else 0)),
     apply_effects
       (ableton_note_effects names (cwd w ++ [dirname]) d (k, m)) w).
Proof.
  unfold create_notes.ableton_range_body, ableton_note_effects.
  unfold try_except, mbind, M_bind, mret, M_ret, os.getcwd, os.chdir, print.
  destruct names.
  - unfold create_notes.create_note_midi_ableton_final. run_steps.
    rewrite ableton_parse_back. unfold in_midi_range.
    destruct ((m <? 0) || (127 <? m)) eqn:E; cbn.
    + rewrite Z.add_0_r. by destruct w.
    + apply orb_false_elim in E as [H1 H2]. apply Z.ltb_ge in H1, H2.
      rewrite Message_note_on_in_range, Message_note_off_in_range by lia.
      cbn. by destruct w.
  - unfold create_notes.create_without_track_name. run_steps.
    unfold in_midi_range.
    destruct ((m <? 0) || (127 <? m)) eqn:E; cbn.
    + unfold mido.Message_note_on, mido.check_data_byte. rewrite E. cbn.
      rewrite Z.add_0_r. by destruct w.
    + apply orb_false_elim in E as [H1 H2]. apply Z.ltb_ge in H1, H2.
      rewrite Message_note_on_in_range, Message_note_off_in_range by lia.
      cbn. by destruct w.
Qed.

Lemma ableton_range_run
    (s e : string) (names : bool) (d : Z) (w : world) (o1 i1 o2 i2 : Z) :
  parse_display_name s = Ok (o1, i1) ->
  parse_display_name e = Ok (o2, i2) ->
  let a := (o1 + 2) * 12 + i1 in
  let b := (o2 + 2) * 12 + i2 in
  let dir := (cwd w ++ ["midi_files_ableton_sequential"])%list in
  create_notes.generate_ableton_range s e names d w
  = (Ok (),
     apply_effects
       (MkDir dir
        :: flat_map (ableton_note_effects names dir d)
             (enumerate 1 (range a (b + 1)))
        ++ [Print (Summary (count_in_midi_range a b))])%list w).
Proof.
  intros Hs He a b dir.
  unfold create_notes.generate_ableton_range.
  unfold mbind at 1, M_bind at 1. rewrite ensure_dir_effect.
  unfold mbind at 1, M_bind at 1, lift.
  rewrite (all_notes_in_range_Ok 2 s e o1 i1 o2 i2 Hs He).
  fold a b. unfold create_notes.ableton_range_loop.
  rewrite enumerate_map.
  unfold mbind at 1, M_bind at 1.
  rewrite (for_fold_effects _ (fun x => in_midi_range x.2.2)
             (fun c x => ableton_note_effects names
                           (c ++ ["midi_files_ableton_sequential"]) d
                           (x.1, x.2.2))).
  2:{ intros count x w' Hx. apply in_map_iff in Hx as ([k m] & <- & _).
      cbn [fst snd]. apply ableton_range_body_effects. }
  rewrite flat_map_map.
  rewrite (filter_map (fun x : Z * (string * Z) => in_midi_range x.2.2)),
    length_map.
  cbn [fst snd cwd apply_effect resolve].
  rewrite (count_created in_midi_range), count_in_midi_range_length.
  rewrite Z.add_0_l. fold dir.
  rewrite (flat_map_ext _ (ableton_note_effects names dir d))
    by (by intros [k m]).
  change (MkDir dir :: ?l ++ ?t)%list with ([MkDir dir] ++ l ++ t)%list.
  by rewrite !apply_effects_app.
Qed.

Lemma standard_range_body_effects dirname d count k m w :
  create_notes.standard_range_body (Rel [dirname]) d count
    (k, (create_notes.standard_name_of m, m)) w
  = (Ok (count + (if in_midi_range m then 1 else 0)),
     apply_effects (standard_note_effects (cwd w ++ [dirname]) d (k, m)) w).
Proof.
  unfold create_notes.standard_range_body, standard_note_effects.
  unfold try_except, mbind, M_bind, mret, M_ret, os.getcwd, os.chdir, print.
  unfold create_notes.create_note_midi_standard. run_steps.
  rewrite standard_parse_back. unfold in_midi_range.
  destruct ((m <? 0) || (127 <? m)) eqn:E; cbn.
  - rewrite Z.add_0_r. by destruct w.
  - apply orb_false_elim in E as [H1 H2]. apply Z.ltb_ge in H1, H2.
    rewrite Message_note_on_in_range, Message_note_off_in_range by lia.
    cbn. by destruct w.
Qed.

Lemma standard_range_run
    (s e : string) (d : Z) (w : world) (o1 i1 o2 i2 : Z) :
  parse_display_name s = Ok (o1, i1) ->
  parse_display_name e = Ok (o2, i2) ->
  let a := (o1 + 1) * 12 + i1 in
  let b := (o2 + 1) * 12 + i2 in
  let dir := (cwd w ++ ["midi_files_standard_sequential"])%list in
  create_notes.generate_standard_range s e d w
  = (Ok (),
     apply_effects
       (MkDir dir
        :: flat_map (standard_note_effects dir d)
             (enumerate 1 (range a (b + 1)))
        ++ [Print (Summary (count_in_midi_range a b))])%list w).
Proof.
  intros Hs He a b dir.
  unfold create_notes.generate_standard_range.
  unfold mbind at 1, M_bind at 1. rewrite ensure_dir_effect.
  unfold mbind at 1, M_bind at 1, lift.
  rewrite (all_notes_in_range_Ok 1 s e o1 i1 o2 i2 Hs He).
  fold a b. unfold create_notes.standard_range_loop.
  rewrite enumerate_map.
  unfold mbind at 1, M_bind at 1.
  rewrite (for_fold_effects _ (fun x => in_midi_range x.2.2)
             (fun c x => standard_note_effects
                           (c ++ ["midi_files_standard_sequential"]) d
                           (x.1, x.2.2))).
  2:{ intros count x w' Hx. apply in_map_iff in Hx as ([k m] & <- & _).
      cbn [fst snd]. apply standard_range_body_effects. }
  rewrite flat_map_map.
  rewrite (filter_map (fun x : Z * (string * Z) => in_midi_range x.2.2)),
    length_map.
  cbn [fst snd cwd apply_effect resolve].
  rewrite (count_created in_midi_range), count_in_midi_range_length.
  rewrite Z.add_0_l. fold dir.
  rewrite (flat_map_ext _ (standard_note_effects dir d))
    by (by intros [k m]).
  change (MkDir dir :: ?l ++ ?t)%list with ([MkDir dir] ++ l ++ t)%list.
  by rewrite !apply_effects_app.
Qed.

(** ** The table scripts in closed form *)

Lemma set_cwd_apply_effects es w :
  set_cwd (cwd w) (apply_effects es w) = apply_effects es w.
Proof.
  pose proof (cwd_apply_effects es w) as H.
  destruct (apply_effects es w) as [c ds fs co]. cbn in H. by subst c.
Qed.

Lemma for_each_effects {A} (body : A -> M ())
    (eff : list string -> A -> list effect) l :
  (forall x w, In x l ->
     body x w = (Ok (), apply_effects (eff (cwd w) x) w)) ->
  forall w,
    for_each l body w = (Ok (), apply_effects (flat_map (eff (cwd w)) l) w).
Proof.
  induction l as [|x l IH]; intros Hb w; [done|].
  cbn [for_each flat_map]. unfold mbind, M_bind.
  rewrite (Hb x w) by (by left).
  rewrite IH by (intros; apply Hb; by right).
  by rewrite cwd_apply_effects, apply_effects_app.
Qed.

Lemma for_each_aborts {A} (body : A -> M ())
    (eff : list string -> A -> list effect) pre bad post e :
  (forall x w, In x pre ->
     body x w = (Ok (), apply_effects (eff (cwd w) x) w)) ->
  (forall w, body bad w = (Raise e, w)) ->
  forall w,
    for_each (pre ++ bad :: post) body w
    = (Raise e, apply_effects (flat_map (eff (cwd w)) pre) w).
Proof.
  intros Hpre Hbad. induction pre as [|x pre IH]; intros w.
  - cbn. unfold mbind, M_bind. by rewrite Hbad.
  - cbn [app for_each flat_map]. unfold mbind, M_bind.
    rewrite (Hpre x w) by (by left).
    rewrite IH by (intros; apply Hpre; by right).
    by rewrite cwd_apply_effects, apply_effects_app.
Qed.

Lemma write_note_effects s k n w :
  in_midi_range (table_scripts.midi n) = true ->
  table_scripts.write_note s k n w
  = (Ok (), apply_effects (table_note_effects s (cwd w) (k, n)) w).
Proof.
  unfold in_midi_range. intros Hm. apply negb_true_iff in Hm.
  apply orb_false_elim in Hm as [H1 H2]. apply Z.ltb_ge in H1, H2.
  unfold table_scripts.write_note, table_note_effects,
    table_scripts.frequency_defined.
  destruct (Z.leb_spec (69 + 12 * 1024) (table_scripts.midi n)); [lia|].
  run_steps.
  rewrite Message_note_on_in_range, Message_note_off_in_range by lia.
  cbn. destruct w, s as [dir_name [] duration []]; reflexivity.
Qed.

Lemma write_note_aborts s k n w :
  in_midi_range (table_scripts.midi n) = false ->
  table_scripts.write_note s k n w
  = (Raise (table_abort (table_scripts.midi n)), w).
Proof.
  unfold in_midi_range. intros Hm. apply negb_false_iff in Hm.
  unfold table_scripts.write_note, table_abort,
    table_scripts.frequency_defined.
  destruct (Z.leb_spec (69 + 12 * 1024) (table_scripts.midi n)); [done|].
  run_steps. unfold mido.Message_note_on, mido.check_data_byte.
  by rewrite Hm.
Qed.

Lemma In_enumerate {A} k (l : list A) x : In x (enumerate k l) -> In x.2 l.
Proof.
  revert k. induction l as [|y l IH]; intros k; [done|].
  intros [<-|H]; [by left|]. right. by apply (IH (k + 1)).
Qed.

Lemma enumerate_app {A} k (l1 l2 : list A) :
  enumerate k (l1 ++ l2)
  = (enumerate k l1 ++ enumerate (k + Z.of_nat (List.length l1)) l2)%list.
Proof.
  revert k. induction l1 as [|x l1 IH]; intros k.
  - cbn. by rewrite Z.add_0_r.
  - cbn [app enumerate List.length]. rewrite IH. do 3 f_equal. lia.
Qed.

Lemma table_run_effects
    (s : table_scripts.script) (notes_data : list table_scripts.note_info)
    (notes : list table_scripts.note_with_midi) (w : world) :
  table_scripts.notes_with_midi (table_scripts.parsing_of s) notes_data
  = Ok notes ->
  Forall (fun n => in_midi_range (table_scripts.midi n) = true) notes ->
  let dir := (cwd w ++ [table_scripts.output_dir s])%list in
  table_scripts.run s notes_data w
  = (Ok (),
     apply_effects
       (MkDir dir :: flat_map (table_note_effects s dir) (enumerate 1 notes))
       w).
Proof.
  intros Hn Hall dir. unfold table_scripts.run.
  unfold mbind at 1, M_bind at 1. rewrite ensure_dir_effect.
  unfold mbind at 1, M_bind at 1, lift. rewrite Hn.
  unfold mbind at 1, M_bind at 1, os.getcwd.
  unfold mbind at 1, M_bind at 1, os.chdir.
  unfold mbind at 1, M_bind at 1.
  rewrite (for_each_effects _ (fun c x => table_note_effects s c x)).
  2:{ intros [k n] w' Hx. apply In_enumerate in Hx.
      rewrite List.Forall_forall in Hall.
      apply write_note_effects. by apply Hall. }
  cbn [cwd apply_effect resolve]. fold dir.
  change (MkDir dir :: ?l)%list with ([MkDir dir] ++ l)%list.
  rewrite apply_effects_app. cbn [apply_effects fold_left apply_effect].
  set (es := flat_map _ _).
  transitivity
    (Ok (), set_cwd (cwd w)
              (apply_effects es (set_cwd dir (apply_effect w (MkDir dir)))));
    [reflexivity|].
  rewrite apply_effects_set_cwd, set_cwd_twice. f_equal.
  exact (set_cwd_apply_effects es (apply_effect w (MkDir dir))).
Qed.

Lemma table_run_aborts
    (s : table_scripts.script) (notes_data : list table_scripts.note_info)
    (pre post : list table_scripts.note_with_midi)
    (bad : table_scripts.note_with_midi) (w : world) :
  table_scripts.notes_with_midi (table_scripts.parsing_of s) notes_data
  = Ok (pre ++ bad :: post)%list ->
  Forall (fun n => in_midi_range (table_scripts.midi n) = true) pre ->
  in_midi_range (table_scripts.midi bad) = false ->
  let dir := (cwd w ++ [table_scripts.output_dir s])%list in
  table_scripts.run s notes_data w
  = (Raise (table_abort (table_scripts.midi bad)),
     set_cwd dir
       (apply_effects
          (MkDir dir :: flat_map (table_note_effects s dir) (enumerate 1 pre))
          w)).
Proof.
  intros Hn Hall Hbad dir. unfold table_scripts.run.
  unfold mbind at 1, M_bind at 1. rewrite ensure_dir_effect.
  unfold mbind at 1, M_bind at 1, lift. rewrite Hn.
  unfold mbind at 1, M_bind at 1, os.getcwd.
  unfold mbind at 1, M_bind at 1, os.chdir.
  unfold mbind at 1, M_bind at 1.
  rewrite enumerate_app. cbn [enumerate].
  rewrite (for_each_aborts _ (fun c x => table_note_effects s c x) _ _ _
             (table_abort (table_scripts.midi bad))).
  2:{ intros [k n] w' Hx. apply In_enumerate in Hx.
      rewrite List.Forall_forall in Hall.
      apply write_note_effects. by apply Hall. }
  2:{ intros w'. by apply write_note_aborts. }
  cbn [cwd apply_effect resolve]. fold dir.
  change (MkDir dir :: ?l)%list with ([MkDir dir] ++ l)%list.
  rewrite apply_effects_app. cbn [apply_effects fold_left apply_effect].
  set (es := flat_map _ _).
  transitivity
    (@Raise () (table_abort (table_scripts.midi bad)),
     apply_effects es (set_cwd dir (apply_effect w (MkDir dir))));
    [reflexivity|].
  by rewrite apply_effects_set_cwd.
Qed.

(** ** A creation function that raises has changed nothing *)

Ltac split_results :=
  repeat match goal with
         | |- context [match ?r with Ok _ => _ | Raise _ => _ end] =>
             destruct r; cbn
         end.

(** X8: every function that writes a file validates first.  For a
    duration that a MIDI file can hold: when
    [create_note_midi_ableton_final], [create_note_midi_standard],
    [create_chord_triad_midi], the creation without track name of
    [generate_ableton_range] or the writing turn of a table script
    raises, no file has been written and no notice printed. *)
Theorem failed_creation_changes_nothing (e : exn) (w : world) :
  (forall name fn d bpm,
     valid_duration d ->
     (create_notes.create_note_midi_ableton_final name fn d bpm w).1 = Raise e ->
     (create_notes.create_note_midi_ableton_final name fn d bpm w).2 = w) /\
  (forall name fn d bpm,
     valid_duration d ->
     (create_notes.create_note_midi_standard name fn d bpm w).1 = Raise e ->
     (create_notes.create_note_midi_standard name fn d bpm w).2 = w) /\
  (forall root ty fn d bpm,
     valid_duration d ->
     (create_chords.create_chord_triad_midi root ty fn d bpm w).1 = Raise e ->
     (create_chords.create_chord_triad_midi root ty fn d bpm w).2 = w) /\
  (forall name m fn d,
     valid_duration d ->
     (create_notes.create_without_track_name name m fn d w).1 = Raise e ->
     (create_notes.create_without_track_name name m fn d w).2 = w) /\
  (forall s fn n,
     In s table_scripts.all_scripts ->
     (table_scripts.write_note s fn n w).1 = Raise e ->
     (table_scripts.write_note s fn n w).2 = w).
Proof.
  repeat split.
  - intros name fn d bpm _.
    unfold create_notes.create_note_midi_ableton_final. run_steps.
    split_results; done.
  - intros name fn d bpm _.
    unfold create_notes.create_note_midi_standard. run_steps.
    split_results; done.
  - intros root ty fn d bpm _.
    unfold create_chords.create_chord_triad_midi. run_steps.
    split_results; done.
  - intros name m fn d _.
    unfold create_notes.create_without_track_name. run_steps.
    split_results; done.
  - intros s fn n _.
    unfold table_scripts.write_note. run_steps.
    split_results; try done.
    destruct (table_scripts.parsing_of s); done.
Qed.

(** ** The working directory after a run *)

Lemma keeps_cwd_ret {A} (a : A) : keeps_cwd (mret a).
Proof. by intros w. Qed.

Lemma keeps_cwd_lift {A} (r : result A) : keeps_cwd (lift r).
Proof. by intros w. Qed.

Lemma keeps_cwd_print n : keeps_cwd (print n).
Proof. by intros w. Qed.

Lemma keeps_cwd_save mid filename : keeps_cwd (mido.save mid filename).
Proof. by intros w. Qed.

Lemma keeps_cwd_ensure_dir p : keeps_cwd (ensure_dir p).
Proof. intros w. by rewrite ensure_dir_effect. Qed.

Lemma keeps_cwd_bind {A B} (m : M A) (k : A -> M B) :
  keeps_cwd m -> (forall a, keeps_cwd (k a)) -> keeps_cwd (m ≫= k).
Proof.
  intros Hm Hk w. unfold mbind, M_bind. specialize (Hm w).
  destruct (m w) as [[a|e] w']; cbn in Hm |- *; [|done].
  by rewrite Hk.
Qed.

Lemma keeps_cwd_try_except {A} (m : M A) h :
  keeps_cwd m -> (forall e, keeps_cwd (h e)) -> keeps_cwd (try_except m h).
Proof.
  intros Hm Hh w. unfold try_except. specialize (Hm w).
  destruct (m w) as [[a|[e| | | |]] w']; cbn in Hm |- *; try done.
  by rewrite Hh.
Qed.

Lemma keeps_cwd_try_except_any {A} (m : M A) h :
  keeps_cwd m -> (forall e, keeps_cwd (h e)) ->
  keeps_cwd (try_except_any m h).
Proof.
  intros Hm Hh w. unfold try_except_any. specialize (Hm w).
  destruct (m w) as [[a|e] w']; cbn in Hm |- *; [done|].
  by rewrite Hh.
Qed.

Lemma keeps_cwd_for_fold {A S} (l : list A) (acc : S) body :
  (forall acc x, keeps_cwd (body acc x)) -> keeps_cwd (for_fold l acc body).
Proof.
  intros Hb. revert acc. induction l as [|x l IH]; intros acc.
  - apply keeps_cwd_ret.
  - cbn. apply keeps_cwd_bind; [apply Hb|]. intros a. apply IH.
Qed.

Lemma keeps_cwd_discard {A} (m : M A) : keeps_cwd m -> keeps_cwd (discard m).
Proof.
  intros Hm. apply keeps_cwd_bind; [exact Hm|]. intros a. apply keeps_cwd_ret.
Qed.

(** The pattern of the loops: go to the folder, work, come back. *)
Lemma keeps_cwd_in_dir {A B} dir (m : M A) (k : A -> M B) :
  returns m -> (forall a, keeps_cwd (k a)) ->
  keeps_cwd (original_dir ← os.getcwd; _ ← os.chdir dir; a ← m;
             _ ← os.chdir original_dir; k a).
Proof.
  intros Hm Hk w. unfold mbind, M_bind, os.getcwd, os.chdir.
  destruct (Hm (World (resolve (cwd w) dir) (dirs w) (files w) (console w)))
    as (a & w' & ->).
  by rewrite Hk.
Qed.

Lemma keeps_cwd_in_dir_with {A B C} dir (v : A) (m : A -> M B)
    (k : B -> M C) :
  returns (m v) -> (forall b, keeps_cwd (k b)) ->
  keeps_cwd (original_dir ← os.getcwd; _ ← os.chdir dir; x ← lift (Ok v);
             b ← m x; _ ← os.chdir original_dir; k b).
Proof.
  intros Hm Hk w. unfold mbind, M_bind, os.getcwd, os.chdir, lift.
  destruct (Hm (World (resolve (cwd w) dir) (dirs w) (files w) (console w)))
    as (a & w' & ->).
  by rewrite Hk.
Qed.

Lemma only_ValueError_ret {A} (a : A) : raises_only_ValueError (mret a).
Proof. by intros w. Qed.

Lemma only_ValueError_bind {A B} (m : M A) (k : A -> M B) :
  raises_only_ValueError m -> (forall a, raises_only_ValueError (k a)) ->
  raises_only_ValueError (m ≫= k).
Proof.
  intros Hm Hk w. unfold mbind, M_bind. specialize (Hm w).
  destruct (m w) as [[a|e] w']; cbn in Hm |- *; [apply Hk|done].
Qed.

Lemma only_ValueError_lift {A} (r : result A) :
  value_or_ValueError r -> raises_only_ValueError (lift r).
Proof. by intros Hr w. Qed.

Lemma only_ValueError_print n : raises_only_ValueError (print n).
Proof. by intros w. Qed.

Lemma only_ValueError_save mid filename :
  raises_only_ValueError (mido.save mid filename).
Proof. by intros w. Qed.

Lemma returns_try_except {A} (m : M A) h :
  raises_only_ValueError m -> (forall e, returns (h e)) ->
  returns (try_except m h).
Proof.
  intros Hm Hh w. unfold try_except. specialize (Hm w).
  destruct (m w) as [[a|[e| | | |]] w']; cbn in Hm; try done; [eauto|].
  apply Hh.
Qed.

Lemma returns_skip {A} label (a : A) e :
  returns (_ ← print (Skipping label e); mret a).
Proof. intros w. by eexists _, _. Qed.

Ltac keeps_cwd_leaf :=
  first
    [ apply keeps_cwd_ret | apply keeps_cwd_lift | apply keeps_cwd_print
    | apply keeps_cwd_save | apply keeps_cwd_ensure_dir ].

Ltac keeps_cwd_step :=
  first [ keeps_cwd_leaf | apply keeps_cwd_bind; [keeps_cwd_leaf|intros ?] ].

Lemma ableton_range_body_keeps_cwd dir names d count x :
  keeps_cwd (create_notes.ableton_range_body dir names d count x).
Proof.
  destruct x as [fn [name m]]. unfold create_notes.ableton_range_body.
  apply keeps_cwd_in_dir; [|intros a; apply keeps_cwd_ret].
  apply returns_try_except; [|intros e; apply returns_skip].
  apply only_ValueError_bind; [|intros ?; apply only_ValueError_ret].
  destruct names.
  - apply only_ValueError_bind; [|intros ?; apply only_ValueError_ret].
    intros w. apply create_ableton_value_or_ValueError.
  - unfold create_notes.create_without_track_name.
    apply only_ValueError_bind;
      [apply only_ValueError_lift, Message_note_on_value_or_ValueError|].
    intros on. apply only_ValueError_bind;
      [apply only_ValueError_lift, Message_note_off_value_or_ValueError|].
    intros off. apply only_ValueError_bind; [apply only_ValueError_save|].
    intros _. apply only_ValueError_print.
Qed.

Lemma standard_range_body_keeps_cwd dir d count x :
  keeps_cwd (create_notes.standard_range_body dir d count x).
Proof.
  destruct x as [fn [name m]]. unfold create_notes.standard_range_body.
  apply keeps_cwd_in_dir; [|intros a; apply keeps_cwd_ret].
  apply returns_try_except; [|intros e; apply returns_skip].
  apply only_ValueError_bind; [|intros ?; apply only_ValueError_ret].
  intros w. apply create_standard_value_or_ValueError.
Qed.

Lemma chord_body_keeps_cwd dir count x :
  keeps_cwd (create_chords.chord_body dir count x).
Proof.
  destruct x as [[fn root] ty]. unfold create_chords.chord_body.
  apply keeps_cwd_in_dir; [|intros a; apply keeps_cwd_ret].
  apply returns_try_except; [|intros e; apply returns_skip].
  apply only_ValueError_bind; [|intros ?; apply only_ValueError_ret].
  intros w. apply create_chord_value_or_ValueError.
Qed.

Lemma generate_key_chords_keeps_cwd k n :
  keeps_cwd (create_chords.generate_key_chords k n).
Proof.
  unfold create_chords.generate_key_chords.
  destruct (create_chords.dict_get _ _) as [[tonality chords]|]; [|apply keeps_cwd_lift].
  do 4 keeps_cwd_step.
  apply keeps_cwd_bind.
  - apply keeps_cwd_for_fold. intros acc x. apply chord_body_keeps_cwd.
  - intros c. repeat keeps_cwd_step.
Qed.

Lemma middle_c_notes :
  create_notes.notes_to_generate
  = Ok (map (fun m => (create_notes.ableton_display_of m, m)) (range 48 84)).
Proof. vm_compute. reflexivity. Qed.

(** X9: the generators of create_notes.py and create_chords.py end in
    the working directory they were started in, whatever their
    arguments and whether they return or raise: every change of
    directory in a loop is undone, because the work between the two
    changes raises nothing that is not caught. *)
Theorem generators_restore_working_directory :
  (forall s e names d, keeps_cwd (create_notes.generate_ableton_range s e names d)) /\
  (forall s e d, keeps_cwd (create_notes.generate_standard_range s e d)) /\
  (forall d, keeps_cwd (create_notes.generate_middle_c_range d)) /\
  (forall s e, keeps_cwd (create_chords.generate_chord_triads_range s e)) /\
  (forall k n, keeps_cwd (create_chords.generate_key_chords k n)) /\
  (forall n, keeps_cwd (create_chords.generate_all_key_chords n)).
Proof.
  repeat split.
  - intros s e names d. unfold create_notes.generate_ableton_range.
    do 2 keeps_cwd_step. apply keeps_cwd_bind; [|intros c; apply keeps_cwd_print].
    apply keeps_cwd_for_fold. intros acc x. apply ableton_range_body_keeps_cwd.
  - intros s e d. unfold create_notes.generate_standard_range.
    do 2 keeps_cwd_step. apply keeps_cwd_bind; [|intros c; apply keeps_cwd_print].
    apply keeps_cwd_for_fold. intros acc x. apply standard_range_body_keeps_cwd.
  - intros d. unfold create_notes.generate_middle_c_range.
    rewrite middle_c_notes. keeps_cwd_step.
    apply keeps_cwd_in_dir_with; [|intros c; apply keeps_cwd_print].
    intros w. apply for_fold_total. clear w. intros count [fn [name m]].
    apply returns_try_except; [|intros e; apply returns_skip].
    apply only_ValueError_bind; [by apply only_ValueError_lift|]. intros tempo.
    apply only_ValueError_bind;
      [apply only_ValueError_lift, Message_note_on_value_or_ValueError|].
    intros on. apply only_ValueError_bind;
      [apply only_ValueError_lift, Message_note_off_value_or_ValueError|].
    intros off. apply only_ValueError_bind; [apply only_ValueError_save|].
    intros _. repeat (apply only_ValueError_bind;
                      [apply only_ValueError_print|intros _]).
    apply only_ValueError_ret.
  - intros s e. unfold create_chords.generate_chord_triads_range.
    do 3 keeps_cwd_step. apply keeps_cwd_bind.
    + apply keeps_cwd_for_fold. intros acc x. apply chord_body_keeps_cwd.
    + intros c. repeat keeps_cwd_step.
  - apply generate_key_chords_keeps_cwd.
  - intros n. unfold create_chords.generate_all_key_chords.
    apply keeps_cwd_for_fold. intros acc key.
    apply keeps_cwd_try_except_any.
    + apply keeps_cwd_bind; [apply generate_key_chords_keeps_cwd|].
      intros c. apply keeps_cwd_ret.
    + intros e. repeat keeps_cwd_step.
Qed.

(** ** The key table *)

Lemma key_table_resolves :
  forallb (fun entry => key_resolves entry.2.2) create_chords.KEY_SIGNATURES
  = true.
Proof. vm_compute. reflexivity. Qed.

Lemma dict_get_In {V} (d : list (string * V)) k v :
  create_chords.dict_get d k = Some v -> In (k, v) d.
Proof.
  induction d as [|[k' v'] d IH]; [discriminate|]. cbn.
  destruct (String.eqb_spec k' k) as [->|Hne].
  - intros [= ->]. by left.
  - intros H. right. by apply IH.
Qed.

Lemma mapM_map {A B} (f : A -> result B) (g : A -> B) l :
  (forall x, In x l -> f x = Ok (g x)) -> mapM f l = Ok (map g l).
Proof.
  induction l as [|x l IH]; intros H; [done|].
  change (mapM f (x :: l)) with (b ← f x; k ← mapM f l; mret (b :: k)).
  rewrite (H x) by (by left). rewrite IH by (intros; apply H; by right).
  done.
Qed.

Lemma key_chords_list chord_data octaves :
  forallb chord_resolves chord_data = true ->
  create_chords.key_chords chord_data octaves
  = Ok (key_chord_list chord_data octaves).
Proof.
  intros Hall. unfold create_chords.key_chords, key_chord_list.
  rewrite (mapM_map _ (fun x : Z * (string * string) =>
             (x.2.1 +:+ str x.1, x.2.2, (x.1 + 2) * 12 + pitch_class x.2.1,
              x.1))).
  - unfold mbind, result_bind. rewrite enumerate_map, map_map.
    f_equal.
  - intros x Hin. apply in_flat_map in Hin as (o & _ & Hin).
    apply in_map_iff in Hin as ([root ty] & <- & Hc).
    rewrite forallb_forall in Hall. specialize (Hall _ Hc).
    unfold chord_resolves in Hall. apply andb_prop in Hall as [Hi _].
    cbn [fst snd] in *. unfold pitch_class.
    by destruct (create_chords.root_index_of root).
Qed.

Lemma chord_loop_returns dir l :
  returns (create_chords.chord_loop dir l).
Proof.
  intros w. apply for_fold_total. intros count x w'.
  apply chord_body_total.
Qed.

Lemma generate_key_chords_listed key tonality chords octaves w :
  create_chords.dict_get create_chords.KEY_SIGNATURES key
  = Some (tonality, chords) ->
  exists chord_data,
    create_chords.parse_chords None chords = Ok chord_data /\
    List.length chord_data = 7%nat /\
    forallb chord_resolves chord_data = true /\
    (create_chords.generate_key_chords key octaves w).1
    = Ok (key_chord_list chord_data octaves).
Proof.
  intros Hk. pose proof (dict_get_In _ _ _ Hk) as Hin.
  pose proof key_table_resolves as Ht. rewrite forallb_forall in Ht.
  specialize (Ht _ Hin). cbn [snd] in Ht. unfold key_resolves in Ht.
  destruct (create_chords.parse_chords None chords) as [chord_data|]
    eqn:Hp; [|discriminate].
  apply andb_prop in Ht as [Hlen Hall]. apply Nat.eqb_eq in Hlen.
  exists chord_data. split; [done|]. split; [done|]. split; [done|].
  unfold create_chords.generate_key_chords. rewrite Hk.
  unfold mbind at 1, M_bind at 1. rewrite ensure_dir_effect.
  unfold mbind at 1, M_bind at 1. rewrite ensure_dir_effect.
  unfold mbind at 1, M_bind at 1, lift. rewrite Hp.
  unfold mbind at 1, M_bind at 1. rewrite (key_chords_list _ _ Hall).
  unfold mbind at 1, M_bind at 1.
  match goal with
  | |- context [create_chords.chord_loop ?d ?l ?w0] =>
      destruct (chord_loop_returns d l w0) as (c & w' & ->)
  end.
  reflexivity.
Qed.

Lemma length_enumerate {A} k (l : list A) :
  List.length (enumerate k l) = List.length l.
Proof.
  revert k. induction l as [|x l IH]; intros k; [done|]. cbn. by rewrite IH.
Qed.

Lemma length_flat_map_const {A B} (f : A -> list B) n l :
  (forall x, List.length (f x) = n) ->
  List.length (flat_map f l) = (n * List.length l)%nat.
Proof.
  intros Hf. induction l as [|x l IH]; cbn; [lia|].
  rewrite length_app, Hf, IH. lia.
Qed.

Lemma length_key_chord_list chord_data octaves :
  List.length (key_chord_list chord_data octaves)
  = (List.length chord_data * Z.to_nat octaves)%nat.
Proof.
  unfold key_chord_list. rewrite length_map, length_enumerate.
  rewrite (length_flat_map_const _ (List.length chord_data))
    by (intros; apply length_map).
  rewrite length_range. f_equal. lia.
Qed.

(** X10: every key of [KEY_SIGNATURES] is usable: its seven chord names
    parse, flats included, each root has a position among the note
    names and each type is one the chord builder knows; so for a key of
    the table [generate_key_chords] returns, and its result lists seven
    chords per octave from octave 3, numbered from 1 in the order of
    the key, none when [octaves] is not positive.  For any other key it
    raises the invalid-key error and leaves the world as it was. *)
Theorem generate_key_chords_spec (key : string) (octaves : Z) (w : world) :
  match create_chords.dict_get create_chords.KEY_SIGNATURES key with
  | Some (_, chords) =>
      exists chord_data,
        create_chords.parse_chords None chords = Ok chord_data /\
        forallb chord_resolves chord_data = true /\
        (create_chords.generate_key_chords key octaves w).1
        = Ok (key_chord_list chord_data octaves) /\
        List.length (key_chord_list chord_data octaves)
        = (7 * Z.to_nat octaves)%nat
  | None =>
      create_chords.generate_key_chords key octaves w
      = (Raise (ValueError (InvalidKeySignature key)), w)
  end.
Proof.
  destruct (create_chords.dict_get _ _) as [[tonality chords]|] eqn:Hk.
  - destruct (generate_key_chords_listed key tonality chords octaves w Hk)
      as (chord_data & Hp & Hlen & Hall & Hrun).
    exists chord_data. split; [done|]. split; [done|]. split; [done|].
    by rewrite length_key_chord_list, Hlen.
  - unfold create_chords.generate_key_chords. by rewrite Hk.
Qed.

Lemma sorted_keys_listed :
  forallb (fun k =>
             match create_chords.dict_get create_chords.KEY_SIGNATURES k with
             | Some _ => true
             | None => false
             end) create_chords.sorted_keys = true.
Proof. vm_compute. reflexivity. Qed.

Lemma try_key_returns {A B} (m : M A) (k : A -> B) h w a w1 :
  m w = (Ok a, w1) ->
  try_except_any (x ← m; mret (k x)) h w = (Ok (k a), w1).
Proof.
  intros Hm. unfold try_except_any, mbind, M_bind. by rewrite Hm.
Qed.

Lemma all_keys_loop octaves keys :
  forallb (fun k =>
             match create_chords.dict_get create_chords.KEY_SIGNATURES k with
             | Some _ => true
             | None => false
             end) keys = true ->
  forall acc w,
    exists new w',
      for_fold keys acc (fun all_results key_signature =>
        try_except_any
          (chords ← create_chords.generate_key_chords key_signature octaves;
           mret ((all_results ++ [(key_signature, chords)])%list))
          (fun e => _ ← print (Failed key_signature e); mret all_results)) w
      = (Ok (acc ++ new)%list, w') /\
      map fst new = keys /\
      Forall (fun r => List.length r.2 = (7 * Z.to_nat octaves)%nat) new.
Proof.
  induction keys as [|key keys IH]; intros Hall acc w.
  - exists [], w. cbn. by rewrite app_nil_r.
  - cbn [forallb] in Hall. apply andb_prop in Hall as [Hk Hall].
    destruct (create_chords.dict_get _ key) as [[tonality chords]|] eqn:Hd;
      [|discriminate].
    destruct (generate_key_chords_listed key tonality chords octaves w Hd)
      as (chord_data & Hp & Hlen & Hres & Hrun).
    destruct (create_chords.generate_key_chords key octaves w)
      as [r w1] eqn:Hg. cbn [fst] in Hrun. subst r.
    cbn [for_fold]. unfold mbind at 1, M_bind at 1.
    rewrite (try_key_returns _
               (fun chords => (acc ++ [(key, chords)])%list) _ _ _ _ Hg).
    destruct (IH Hall (acc ++ [(key, key_chord_list chord_data octaves)])%list
                w1) as (new & w' & Hloop & Hkeys & Hlens).
    exists ((key, key_chord_list chord_data octaves) :: new), w'.
    split; [|split].
    + rewrite Hloop. by rewrite <- app_assoc.
    + cbn. by rewrite Hkeys.
    + constructor; [|done]. cbn. by rewrite length_key_chord_list, Hlen.
Qed.

(** X11: [generate_all_key_chords] returns for every number of octaves
    and from every world: no key of the table fails, so no failure
    notice replaces a result, and the results are those of the 24 keys
    in the alphabetical order of their names, each with seven chords
    per octave. *)
Theorem generate_all_key_chords_returns (octaves : Z) (w : world) :
  exists results,
    (create_chords.generate_all_key_chords octaves w).1 = Ok results /\
    map fst results = create_chords.sorted_keys /\
    List.length results = 24%nat /\
    Forall (fun r => List.length r.2 = (7 * Z.to_nat octaves)%nat) results.
Proof.
  unfold create_chords.generate_all_key_chords.
  destruct (all_keys_loop octaves create_chords.sorted_keys
              sorted_keys_listed [] w) as (new & w' & Hloop & Hkeys & Hlens).
  exists new. rewrite Hloop. split; [done|]. split; [done|]. split; [|done].
  by rewrite <- (length_map fst), Hkeys.
Qed.

(** ** Range names that do not parse *)

(** X12: when the start or the end name of a range does not parse, the
    three range drivers raise [ValueError] after making their folders
    and before they handle any entry: no file is written, no entry is
    reported and the working directory is the same.  (Of the prints,
    the model keeps the reports per entry and the summary; the header
    the drivers print before they parse the names is not among them.)
    [generate_chord_triads_range] has by then made, besides its main
    folder, a folder named after the two texts it could not read. *)
Theorem range_drivers_reject_unparsable_names (s e : string) (w : world) :
  (forall o i, parse_display_name s <> Ok (o, i)) \/
  (forall o i, parse_display_name e <> Ok (o, i)) ->
  (forall names d,
     valid_duration d ->
     exists err,
       create_notes.generate_ableton_range s e names d w
       = (Raise (ValueError err),
          apply_effect w
            (MkDir (cwd w ++ ["midi_files_ableton_sequential"])))) /\
  (forall d,
     valid_duration d ->
     exists err,
       create_notes.generate_standard_range s e d w
       = (Raise (ValueError err),
          apply_effect w
            (MkDir (cwd w ++ ["midi_files_standard_sequential"])))) /\
  (file_name_ok (replace "#" "sharp" ("range_" +:+ s +:+ "_to_" +:+ e))
   = true ->
   exists err w',
     create_chords.generate_chord_triads_range s e w
     = (Raise (ValueError err), w') /\
     cwd w' = cwd w /\ files w' = files w /\ console w' = console w /\
     (cwd w ++ ["midi_files_ableton_triads"])%list ∈ dirs w' /\
     (cwd w ++ ["midi_files_ableton_triads";
                replace "#" "sharp" ("range_" +:+ s +:+ "_to_" +:+ e)])%list
     ∈ dirs w').
Proof.
  intros Hbad. split; [|split].
  - intros names d _.
    destruct (all_notes_in_range_Raise 2 s e Hbad) as [err Herr].
    exists err. unfold create_notes.generate_ableton_range.
    unfold mbind at 1, M_bind at 1. rewrite ensure_dir_effect.
    unfold mbind at 1, M_bind at 1, lift. by rewrite Herr.
  - intros d _.
    destruct (all_notes_in_range_Raise 1 s e Hbad) as [err Herr].
    exists err. unfold create_notes.generate_standard_range.
    unfold mbind at 1, M_bind at 1. rewrite ensure_dir_effect.
    unfold mbind at 1, M_bind at 1, lift. by rewrite Herr.
  - intros _.
    destruct (all_notes_in_range_Raise 2 s e Hbad) as [err Herr].
    exists err. eexists. split.
    + unfold create_chords.generate_chord_triads_range.
      unfold mbind at 1, M_bind at 1. rewrite ensure_dir_effect.
      unfold mbind at 1, M_bind at 1. rewrite ensure_dir_effect.
      unfold mbind at 1, M_bind at 1, lift.
      unfold create_chords.triads_in_range. rewrite Herr.
      cbn. reflexivity.
    + cbn. repeat split.
      * apply elem_of_union_r, elem_of_union_l. by apply elem_of_singleton.
      * apply elem_of_union_l. by apply elem_of_singleton.
Qed.

(** ** File numbers in file names *)

Lemma str_nonneg_digits n :
  0 <= n -> all_digits (str n) = true /\ str n <> "".
Proof.
  intros Hn. unfold str.
  destruct n as [|p|p]; cbn [Z.to_int NilZero.string_of_int]; [done| |lia].
  destruct (to_uint_text p) as [-> Hne]. split; [apply uint_text_digits|done].
Qed.

Lemma all_digits_zeros k ds :
  all_digits (zeros k +:+ ds) = all_digits ds.
Proof.
  induction k as [|k IH]; [by rewrite append_nil|].
  cbn [zeros]. rewrite append_cons. cbn [all_digits]. by rewrite IH.
Qed.

Lemma int_digits_zeros k ds :
  int_digits 0 (zeros k +:+ ds) = int_digits 0 ds.
Proof.
  induction k as [|k IH]; [by rewrite append_nil|].
  cbn [zeros]. rewrite append_cons. cbn [int_digits]. exact IH.
Qed.

Lemma zeros_append_not_empty k ds : ds <> "" -> zeros k +:+ ds <> "".
Proof.
  intros Hne. destruct k; [by rewrite append_nil|].
  cbn [zeros]. by rewrite append_cons.
Qed.

Lemma zfill_digits k n :
  0 <= n ->
  all_digits (zfill k (str n)) = true /\ zfill k (str n) <> "" /\
  int_digits 0 (zfill k (str n)) = n.
Proof.
  intros Hn. destruct (str_nonneg_digits n Hn) as [Hd Hne].
  unfold zfill. rewrite all_digits_zeros, int_digits_zeros.
  split; [done|]. split; [by apply zeros_append_not_empty|].
  pose proof (int_str n) as Hi.
  rewrite int_of_digit_text in Hi by done. by injection Hi.
Qed.

Lemma format_0d_shape width n :
  is_octave_text (format_0d width n) = true /\ int (format_0d width n) = Ok n.
Proof.
  unfold format_0d. destruct (Z.ltb_spec n 0).
  - destruct (zfill_digits (width - 1) (- n)) as (Hd & Hne & Hv); [lia|].
    split.
    + apply octave_text_shape. exists "-", (zfill (width - 1) (str (- n))).
      by rewrite append_cons, append_nil; auto.
    + cbn [int]. rewrite Hd.
      destruct (String.eqb_spec (zfill (width - 1) (str (- n))) "");
        [done|].
      cbn. rewrite Hv. f_equal. lia.
  - destruct (zfill_digits width n) as (Hd & Hne & Hv); [lia|].
    split.
    + apply octave_text_shape. exists "", (zfill width (str n)).
      by rewrite append_nil; auto.
    + rewrite int_of_digit_text by done. by rewrite Hv.
Qed.

Lemma digit_is_not_space c : is_digit c = true -> Ascii.eqb c " " = false.
Proof. intros H. by destruct (Ascii.eqb_spec c " ") as [->|]. Qed.

Lemma split_at_space_digits ds s :
  all_digits ds = true ->
  create_chords.split_at_space (ds +:+ String " " s) = Some (ds, s).
Proof.
  intros Hd. induction ds as [|c ds IH].
  - by rewrite append_nil.
  - cbn in Hd. apply andb_prop in Hd as [Hc Hd].
    rewrite append_cons. cbn [create_chords.split_at_space].
    by rewrite (digit_is_not_space c Hc), (IH Hd).
Qed.

Lemma split_at_space_octave_text o s :
  is_octave_text o = true ->
  create_chords.split_at_space (o +:+ " " +:+ s) = Some (o, s).
Proof.
  intros Ho. apply octave_text_shape in Ho as (sign & ds & -> & Hs & Hd & _).
  rewrite (append_cons " " "" s), append_nil.
  destruct Hs as [->| ->].
  - rewrite !append_nil. by apply split_at_space_digits.
  - rewrite !append_cons, !append_nil. cbn [create_chords.split_at_space].
    change (Ascii.eqb "-" " ") with false. cbv iota.
    by rewrite split_at_space_digits.
Qed.

Lemma numbered_name_inj width width' a b s t :
  format_0d width a +:+ " " +:+ s = format_0d width' b +:+ " " +:+ t ->
  a = b /\ s = t.
Proof.
  intros H. apply (f_equal create_chords.split_at_space) in H.
  destruct (format_0d_shape width a) as [Ha Hia].
  destruct (format_0d_shape width' b) as [Hb Hib].
  rewrite !split_at_space_octave_text in H by done.
  injection H as Hf ->. split; [|done].
  rewrite Hf in Hia. rewrite Hia in Hib. by injection Hib.
Qed.

Lemma enumerate_lower {A} k (l : list A) x : In x (enumerate k l) -> k <= x.1.
Proof.
  revert k. induction l as [|y l IH]; intros k; [done|].
  intros [<-|H]; [cbn; lia|]. apply IH in H. lia.
Qed.

(** X13: the file number can be read back from a file name.  The text
    [f"{n:0Wd}"] converts back to [n] for every integer and every
    width, and a name made of it, a space and a label determines both
    the number and the label; so the names a loop builds from
    [enumerate] are pairwise different, and no entry of a batch
    overwrites the file of another. *)
Theorem numbered_file_names_are_distinct :
  (forall width n, int (format_0d width n) = Ok n) /\
  (forall width width' a b s t,
     format_0d width a +:+ " " +:+ s = format_0d width' b +:+ " " +:+ t ->
     a = b /\ s = t) /\
  (forall (A : Type) (label : A -> string) width start (l : list A),
     List.NoDup
       (map (fun x : Z * A => format_0d width x.1 +:+ " " +:+ label x.2)
            (enumerate start l))).
Proof.
  split; [intros; apply format_0d_shape|].
  split; [apply numbered_name_inj|].
  intros A label width start l. revert start.
  induction l as [|x l IH]; intros start; [constructor|].
  cbn [enumerate map]. constructor; [|apply IH].
  intros Hin. apply in_map_iff in Hin as (y & Hy & Hin).
  apply numbered_name_inj in Hy as [Hy _].
  apply enumerate_lower in Hin. cbn [fst] in Hy. lia.
Qed.

(** ** The anchored parse of the table scripts *)

Lemma match_note_anchored_spec s g1 g2 :
  re.match_note_anchored s = Some (g1, g2) <->
  exists tail,
    re.match_note s = Some (g1, g2, tail) /\ (tail = "" \/ tail = re.newline).
Proof.
  unfold re.match_note_anchored. split.
  - destruct (re.match_note s) as [[[h1 h2] rest]|]; [|discriminate].
    destruct (String.eqb_spec rest "") as [->|Hne]; cbn [orb].
    + intros [= <- <-]. exists "". auto.
    + destruct (String.eqb_spec rest re.newline) as [->|Hnl]; [|discriminate].
      intros [= <- <-]. exists re.newline. auto.
  - intros (tail & -> & [->| ->]); reflexivity.
Qed.

(** X14: the first loop of spotlight_notes.py and drumlab_notes.py
    accepts exactly the entries whose note is an entry of [note_names]
    followed by an octave text [-?\d+], alone or with one newline after
    it (which [$] lets pass), and it resolves them to
    [(octave + 2) * 12 + index]. *)
Theorem anchored_parse_spec
    (info : table_scripts.note_info) (n : table_scripts.note_with_midi) :
  table_scripts.with_midi table_scripts.ByRegex info = Ok n <->
  exists i o octave tail,
    0 <= i < 12 /\
    table_scripts.file_note info = nth_str NOTE_NAMES i +:+ o +:+ tail /\
    (tail = "" \/ tail = re.newline) /\
    int o = Ok octave /\
    n = table_scripts.NoteWithMidi (table_scripts.file_note info)
          (table_scripts.info_track_name info) ((octave + 2) * 12 + i)
          (nth_str NOTE_NAMES i) octave i.
Proof.
  unfold table_scripts.with_midi, table_scripts.parse_note,
    table_scripts.parse_by_regex, table_scripts.note_names.
  split.
  - destruct (re.match_note_anchored _) as [[g1 g2]|] eqn:E; [|discriminate].
    apply match_note_anchored_spec in E as (tail & E & Htail).
    apply match_note_sound in E as (Hs & Ho & Hr).
    unfold mbind, result_bind.
    destruct (int g2) as [octave|] eqn:Hi; [|discriminate].
    destruct (index NOTE_NAMES g1) as [i|] eqn:Hidx; [|discriminate].
    intros [= <-]. apply index_sound in Hidx as [Hrange <-].
    by exists i, g2, octave, tail.
  - intros (i & o & octave & tail & Hi & Hs & Htail & Ho & ->).
    assert (Hr : no_digit_ahead tail) by (by destruct Htail as [->| ->]).
    destruct (match_note_built i o tail Hi (int_octave_text _ _ Ho) Hr)
      as [Hm Hidx].
    rewrite <- Hs in Hm.
    assert (Ha : re.match_note_anchored (table_scripts.file_note info)
                 = Some (nth_str NOTE_NAMES i, o))
      by (apply match_note_anchored_spec; by exists tail).
    rewrite Ha. unfold mbind, result_bind. by rewrite Ho, Hidx.
Qed.

(** ** The range around middle C in closed form *)

Lemma middle_c_body_effects d count k m w :
  0 <= m <= 127 ->
  try_except
    (let name := "Note " +:+ create_notes.ableton_display_of m in
     tempo ← lift (mido.bpm2tempo 120);
     on ← lift (mido.Message_note_on m 64 0);
     off ← lift (mido.Message_note_off m 64 d);
     let mid := [create_notes.note_track name tempo on off] in
     let filename :=
       format_0d 2 k +:+ " " +:+ create_notes.ableton_display_of m
         +:+ ".mid" in
     _ ← mido.save mid filename;
     _ ← print (Created filename);
     _ ← print (Detail "Track name" name);
     _ ← print (Detail "Plays at" (create_notes.standard_name_of m));
     mret (count + 1))
    (fun e =>
       _ ← print (Skipping (create_notes.ableton_display_of m) e);
       mret count) w
  = (Ok (count + 1), apply_effects (middle_c_note_effects (cwd w) d (k, m)) w).
Proof.
  intros Hm. unfold try_except, middle_c_note_effects. run_steps.
  rewrite Message_note_on_in_range, Message_note_off_in_range by lia.
  cbn. by destruct w.
Qed.

Lemma filter_all {A} (l : list A) : List.filter (fun _ => true) l = l.
Proof. induction l as [|x l IH]; [done|]. cbn. by rewrite IH. Qed.

Lemma middle_c_run (d : Z) (w : world) :
  let dir := (cwd w ++ ["middle_c_range_sequential"])%list in
  create_notes.generate_middle_c_range d w
  = (Ok (),
     apply_effects
       (MkDir dir
        :: flat_map (middle_c_note_effects dir d) (enumerate 1 (range 48 84))
        ++ [Print (Summary 36)])%list w).
Proof.
  intros dir. unfold create_notes.generate_middle_c_range.
  rewrite middle_c_notes.
  unfold mbind at 1, M_bind at 1. rewrite ensure_dir_effect.
  unfold mbind at 1, M_bind at 1, os.getcwd.
  unfold mbind at 1, M_bind at 1, os.chdir.
  unfold mbind at 1, M_bind at 1, lift.
  rewrite enumerate_map.
  unfold mbind at 1, M_bind at 1.
  rewrite (for_fold_effects _ (fun _ => true)
             (fun c x => middle_c_note_effects c d (x.1, x.2.2))).
  2:{ intros count x w' Hx. apply in_map_iff in Hx as ([k m] & <- & Hin).
      apply In_enumerate, In_range in Hin. cbn [fst snd] in *.
      apply middle_c_body_effects. lia. }
  rewrite filter_all, length_map, length_enumerate, length_range.
  rewrite flat_map_map.
  cbn [fst snd cwd apply_effect resolve]. fold dir.
  rewrite (flat_map_ext _ (middle_c_note_effects dir d)) by (by intros [k m]).
  set (es := flat_map _ _).
  change (MkDir dir :: es ++ [Print (Summary 36)])%list
    with ([MkDir dir] ++ es ++ [Print (Summary 36)])%list.
  rewrite !apply_effects_app.
  transitivity
    (print (Summary 36)
       (set_cwd (cwd w)
          (apply_effects es (set_cwd dir (apply_effect w (MkDir dir))))));
    [reflexivity|].
  rewrite apply_effects_set_cwd, set_cwd_twice.
  pose proof (set_cwd_apply_effects es (apply_effect w (MkDir dir))) as H.
  change (cwd (apply_effect w (MkDir dir))) with (cwd w) in H.
  by rewrite H.
Qed.

(** ** The triads of a range *)




(** ** The sort keeps the order of the table among equal pitches *)

Section Stable.
Context {A : Type} (key : A -> Z) (k : Z).

Lemma filter_above l :
  Forall (fun z => k < key z) l -> List.filter (fun x => key x =? k) l = [].
Proof.
  induction 1 as [|z l Hz Hl IH]; [done|]. cbn.
  destruct (Z.eqb_spec (key z) k); [lia|exact IH].
Qed.

Lemma filter_insert_by x l :
  Sorted Z.le (map key l) ->
  List.filter (fun x => key x =? k) (insert_by key x l)
  = (List.filter (fun x => key x =? k) l
     ++ (if key x =? k then [x] else []))%list.
Proof.
  induction l as [|y l IH]; intros Hs; [by cbn; destruct (key x =? k)|].
  cbn [insert_by]. destruct (Z.ltb_spec (key x) (key y)) as [Hlt|Hge].
  - cbn [List.filter]. destruct (Z.eqb_spec (key x) k) as [Hx|Hx].
    + assert (Hall : Forall (fun z => k < key z) (y :: l)).
      { apply Sorted_StronglySorted in Hs;
          [|intros ? ? ?; apply Z.le_trans].
        cbn in Hs. apply StronglySorted_inv in Hs as [_ Hy].
        constructor; [lia|].
        rewrite List.Forall_forall in Hy. apply List.Forall_forall.
        intros z Hz. specialize (Hy (key z) (in_map key _ _ Hz)). lia. }
      pose proof (filter_above _ Hall) as Hf. cbn [List.filter] in Hf.
      by rewrite Hf.
    + by rewrite app_nil_r.
  - cbn [List.filter]. cbn in Hs. apply Sorted_inv in Hs as [Hs _].
    rewrite (IH Hs). by destruct (key y =? k).
Qed.

Lemma filter_fold_insert l acc :
  Sorted Z.le (map key acc) ->
  List.filter (fun x => key x =? k)
    (fold_left (fun acc x => insert_by key x acc) l acc)
  = (List.filter (fun x => key x =? k) acc
     ++ List.filter (fun x => key x =? k) l)%list.
Proof.
  revert acc. induction l as [|x l IH]; intros acc Hs; cbn [fold_left].
  - by rewrite app_nil_r.
  - rewrite IH by (by apply insert_by_sorted).
    rewrite filter_insert_by by done. rewrite <- app_assoc. f_equal.
    cbn [List.filter]. by destruct (key x =? k).
Qed.

Lemma sort_by_stable l :
  List.filter (fun x => key x =? k) (sort_by key l)
  = List.filter (fun x => key x =? k) l.
Proof. apply (filter_fold_insert l []). constructor. Qed.

End Stable.

Lemma with_midi_keeps_entry p info n :
  table_scripts.with_midi p info = Ok n ->
  table_scripts.nm_file_note n = table_scripts.file_note info /\
  table_scripts.nm_track_name n = table_scripts.info_track_name info.
Proof.
  unfold table_scripts.with_midi.
  destruct (table_scripts.parse_note p _) as [[note_name octave]|];
    [|discriminate].
  unfold mbind, result_bind.
  destruct (index _ _); [|discriminate]. by intros [= <-].
Qed.

(** X17: the sort of a table script is stable.  The sorted table is the
    parsed table rearranged in ascending order of MIDI number, and the
    entries that resolve to the same MIDI number stay in the order in
    which the table lists them, so among them the file numbers follow
    the table. *)
Theorem table_sort_keeps_table_order
    (p : table_scripts.parsing) (notes_data : list table_scripts.note_info)
    (notes : list table_scripts.note_with_midi) :
  table_scripts.notes_with_midi p notes_data = Ok notes ->
  exists parsed,
    mapM (table_scripts.with_midi p) notes_data = Ok parsed /\
    Forall2 (fun info n =>
               table_scripts.nm_file_note n = table_scripts.file_note info /\
               table_scripts.nm_track_name n
               = table_scripts.info_track_name info) notes_data parsed /\
    Permutation notes parsed /\
    Sorted Z.le (map table_scripts.midi notes) /\
    forall m,
      List.filter (fun n => table_scripts.midi n =? m) notes
      = List.filter (fun n => table_scripts.midi n =? m) parsed.
Proof.
  unfold table_scripts.notes_with_midi.
  destruct (mapM _ notes_data) as [parsed|] eqn:Hp; [|discriminate].
  intros [= <-]. exists parsed. split; [done|]. split.
  - apply mapM_Ok in Hp. eapply Forall2_impl; [exact Hp|].
    cbn. intros info n. apply with_midi_keeps_entry.
  - split; [apply sort_by_Permutation|].
    split; [apply sort_by_sorted|]. intros m. apply sort_by_stable.
Qed.

(** * The drivers in closed form *)

(** X4: [generate_ableton_range] between two names that parse, for a
    duration that a MIDI file can hold, in closed form.  It returns,
    leaves the working directory as it was, makes the output folder,
    handles the MIDI numbers from the start note to the end note in
    ascending order under the file numbers 1, 2, 3, ..., writes for each
    number in 0..127 the file of that number and name, whose one track
    is spelled out in [ableton_note_effects], and prints a skip notice
    for each other number (which keeps its file number), and reports as
    created the count of the numbers that lie in 0..127. *)
Theorem generate_ableton_range_outcome
    (s e : string) (names : bool) (d : Z) (w : world) (o1 i1 o2 i2 : Z) :
  parse_display_name s = Ok (o1, i1) ->
  parse_display_name e = Ok (o2, i2) ->
  valid_duration d ->
  let a := (o1 + 2) * 12 + i1 in
  let b := (o2 + 2) * 12 + i2 in
  let dir := (cwd w ++ ["midi_files_ableton_sequential"])%list in
  create_notes.generate_ableton_range s e names d w
  = (Ok (),
     apply_effects
       (MkDir dir
        :: flat_map (ableton_note_effects names dir d)
             (enumerate 1 (range a (b + 1)))
        ++ [Print (Summary (count_in_midi_range a b))])%list w).
Proof.
  intros Hs He _ a b dir.
  exact (ableton_range_run s e names d w o1 i1 o2 i2 Hs He).
Qed.

(** X5: [generate_standard_range] between two names that parse, for a
    duration that a MIDI file can hold, in closed form: as
    [generate_ableton_range], with the MIDI numbers of the standard
    convention ([(octave + 1) * 12 + index]), the standard names and
    the files [NN <name>_standard.mid], whose one track is spelled out
    in [standard_note_effects]. *)
Theorem generate_standard_range_outcome
    (s e : string) (d : Z) (w : world) (o1 i1 o2 i2 : Z) :
  parse_display_name s = Ok (o1, i1) ->
  parse_display_name e = Ok (o2, i2) ->
  valid_duration d ->
  let a := (o1 + 1) * 12 + i1 in
  let b := (o2 + 1) * 12 + i2 in
  let dir := (cwd w ++ ["midi_files_standard_sequential"])%list in
  create_notes.generate_standard_range s e d w
  = (Ok (),
     apply_effects
       (MkDir dir
        :: flat_map (standard_note_effects dir d)
             (enumerate 1 (range a (b + 1)))
        ++ [Print (Summary (count_in_midi_range a b))])%list w).
Proof.
  intros Hs He _ a b dir.
  exact (standard_range_run s e d w o1 i1 o2 i2 Hs He).
Qed.

(** X15: [generate_middle_c_range], in closed form, for every duration
    that a MIDI file can hold and from every world: it returns, leaves
    the working directory as it was, makes its folder and writes the 36
    files of the MIDI numbers 48 to 83 (C2 to B4 in the Ableton
    convention) under the file numbers 1 to 36, each with the one track
    spelled out in [middle_c_note_effects]; no entry is skipped. *)
Theorem generate_middle_c_range_outcome (d : Z) (w : world) :
  valid_duration d ->
  let dir := (cwd w ++ ["middle_c_range_sequential"])%list in
  create_notes.generate_middle_c_range d w
  = (Ok (),
     apply_effects
       (MkDir dir
        :: flat_map (middle_c_note_effects dir d) (enumerate 1 (range 48 84))
        ++ [Print (Summary 36)])%list w).
Proof.
  intros _ dir. exact (middle_c_run d w).
Qed.

(** X6: one of the eleven table scripts, run on a table whose entries
    all parse and all resolve to MIDI numbers in 0..127, with file
    names the folder can hold: it returns, leaves the working directory
    as it was, makes its folder and writes one file per entry in the
    order of the sorted table, under the file numbers 1, 2, 3, ...; the
    one track of each file is spelled out in [table_note_effects]:
    track name, tempo, time signature, note-on, note-off (the pair twice
    in subcraft_notes.py), end marker. *)
Theorem table_script_outcome
    (s : table_scripts.script) (notes_data : list table_scripts.note_info)
    (notes : list table_scripts.note_with_midi) (w : world) :
  In s table_scripts.all_scripts ->
  table_scripts.notes_with_midi (table_scripts.parsing_of s) notes_data
  = Ok notes ->
  Forall (fun n => in_midi_range (table_scripts.midi n) = true) notes ->
  Forall (fun x : Z * table_scripts.note_with_midi =>
            file_name_ok
              (format_0d 2 x.1 +:+ " "
               +:+ replace " " "_" (table_scripts.nm_track_name x.2)
               +:+ ".mid") = true) (enumerate 1 notes) ->
  let dir := (cwd w ++ [table_scripts.output_dir s])%list in
  table_scripts.run s notes_data w
  = (Ok (),
     apply_effects
       (MkDir dir :: flat_map (table_note_effects s dir) (enumerate 1 notes))
       w).
Proof.
  intros _ Hn Hall _ dir.
  exact (table_run_effects s notes_data notes w Hn Hall).
Qed.

(** X7: one of the eleven table scripts does not skip an entry whose
    MIDI number lies outside 0..127: it ends there in an exception that
    nothing catches, [ValueError] from the message constructor or
    [OverflowError] from the frequency, with the files of the entries
    before it written, the entries after it not handled, and the
    working directory left in the output folder.  (Below [- 2 ^ 1000]
    the frequency fails first on the other side; the statement is for
    the numbers above.) *)
Theorem table_script_aborts_out_of_range
    (s : table_scripts.script) (notes_data : list table_scripts.note_info)
    (pre post : list table_scripts.note_with_midi)
    (bad : table_scripts.note_with_midi) (w : world) :
  In s table_scripts.all_scripts ->
  table_scripts.notes_with_midi (table_scripts.parsing_of s) notes_data
  = Ok (pre ++ bad :: post)%list ->
  Forall (fun n => in_midi_range (table_scripts.midi n) = true) pre ->
  in_midi_range (table_scripts.midi bad) = false ->
  - 2 ^ 1000 < table_scripts.midi bad ->
  Forall (fun x : Z * table_scripts.note_with_midi =>
            file_name_ok
              (format_0d 2 x.1 +:+ " "
               +:+ replace " " "_" (table_scripts.nm_track_name x.2)
               +:+ ".mid") = true) (enumerate 1 pre) ->
  let dir := (cwd w ++ [table_scripts.output_dir s])%list in
  table_scripts.run s notes_data w
  = (Raise (table_abort (table_scripts.midi bad)),
     set_cwd dir
       (apply_effects
          (MkDir dir :: flat_map (table_note_effects s dir) (enumerate 1 pre))
          w)).
Proof.
  intros _ Hn Hall Hbad _ _ dir.
  exact (table_run_aborts s notes_data pre post bad w Hn Hall Hbad).
Qed.

(** * The order of the events, emitter by emitter *)






(** * Entries out of range, driver by driver *)




(** * Numbering by pitch, driver by driver *)



(** * Instances *)

Lemma parse_display_name_spec_witness :
  (0 <= 1 < 12 /\
   exists o rest,
     "C#-2x" = nth_str NOTE_NAMES 1 +:+ o +:+ rest /\
     int o = Ok (-2) /\ no_digit_ahead rest) /\
  parse_display_name "C#-2x" = Ok (-2, 1).
Proof.
  assert (H : 0 <= 1 < 12 /\
              exists o rest,
                "C#-2x" = nth_str NOTE_NAMES 1 +:+ o +:+ rest /\
                int o = Ok (-2) /\ no_digit_ahead rest).
  { split; [lia|]. exists "-2", "x". repeat split; reflexivity. }
  split; [exact H|].
  exact (proj2 (parse_display_name_spec "C#-2x" (-2) 1) H).
Defined.

Lemma failed_creation_changes_nothing_witness :
  valid_duration 3840 /\
  (create_notes.create_note_midi_ableton_final "H3" 1 3840 120
     (World ["home"] ∅ ∅ [])).1
  = Raise (ValueError (InvalidNoteFormat "H3")) /\
  (create_notes.create_note_midi_ableton_final "H3" 1 3840 120
     (World ["home"] ∅ ∅ [])).2
  = World ["home"] ∅ ∅ [].
Proof.
  assert (Hd : valid_duration 3840) by (unfold valid_duration, MAX_DELTA_TIME; lia).
  assert (H : (create_notes.create_note_midi_ableton_final "H3" 1 3840 120
                 (World ["home"] ∅ ∅ [])).1
              = Raise (ValueError (InvalidNoteFormat "H3"))) by reflexivity.
  split; [exact Hd|]. split; [exact H|].
  exact (proj1 (failed_creation_changes_nothing
                  (ValueError (InvalidNoteFormat "H3"))
                  (World ["home"] ∅ ∅ []))
           "H3" 1 3840 120 Hd H).
Defined.

Lemma range_drivers_reject_unparsable_names_witness :
  ((forall o i, parse_display_name "H1" <> Ok (o, i)) \/
   (forall o i, parse_display_name "C3" <> Ok (o, i))) /\
  valid_duration 3840 /\
  exists err,
    create_notes.generate_standard_range "H1" "C3" 3840
      (World ["home"] ∅ ∅ [])
    = (Raise (ValueError err),
       apply_effect (World ["home"] ∅ ∅ [])
         (MkDir (cwd (World ["home"] ∅ ∅ [])
                 ++ ["midi_files_standard_sequential"]))).
Proof.
  assert (H : (forall o i, parse_display_name "H1" <> Ok (o, i)) \/
              (forall o i, parse_display_name "C3" <> Ok (o, i)))
    by (left; intros o i; discriminate).
  assert (Hd : valid_duration 3840)
    by (unfold valid_duration, MAX_DELTA_TIME; lia).
  split; [exact H|]. split; [exact Hd|].
  exact (proj1 (proj2 (range_drivers_reject_unparsable_names "H1" "C3"
                         (World ["home"] ∅ ∅ []) H)) 3840 Hd).
Defined.

Lemma numbered_file_names_are_distinct_witness :
  format_0d 2 12 +:+ " " +:+ "C4.mid" = format_0d 1 12 +:+ " " +:+ "C4.mid" /\
  12 = 12 /\ "C4.mid" = "C4.mid".
Proof.
  assert (H : format_0d 2 12 +:+ " " +:+ "C4.mid"
              = format_0d 1 12 +:+ " " +:+ "C4.mid") by reflexivity.
  split; [exact H|].
  exact (proj1 (proj2 numbered_file_names_are_distinct) 2%nat 1%nat
           12 12 "C4.mid" "C4.mid" H).
Defined.

Lemma anchored_parse_spec_witness :
  (exists i o octave tail,
     0 <= i < 12 /\
     table_scripts.file_note
       (table_scripts.NoteInfo ("C#-1" +:+ re.newline) "Pattern")
     = nth_str NOTE_NAMES i +:+ o +:+ tail /\
     (tail = "" \/ tail = re.newline) /\
     int o = Ok octave /\
     table_scripts.NoteWithMidi ("C#-1" +:+ re.newline) "Pattern" 13 "C#"
       (-1) 1
     = table_scripts.NoteWithMidi
         (table_scripts.file_note
            (table_scripts.NoteInfo ("C#-1" +:+ re.newline) "Pattern"))
         (table_scripts.info_track_name
            (table_scripts.NoteInfo ("C#-1" +:+ re.newline) "Pattern"))
         ((octave + 2) * 12 + i) (nth_str NOTE_NAMES i) octave i) /\
  table_scripts.with_midi table_scripts.ByRegex
    (table_scripts.NoteInfo ("C#-1" +:+ re.newline) "Pattern")
  = Ok (table_scripts.NoteWithMidi ("C#-1" +:+ re.newline) "Pattern" 13 "C#"
          (-1) 1).
Proof.
  assert (H : exists i o octave tail,
     0 <= i < 12 /\
     table_scripts.file_note
       (table_scripts.NoteInfo ("C#-1" +:+ re.newline) "Pattern")
     = nth_str NOTE_NAMES i +:+ o +:+ tail /\
     (tail = "" \/ tail = re.newline) /\
     int o = Ok octave /\
     table_scripts.NoteWithMidi ("C#-1" +:+ re.newline) "Pattern" 13 "C#"
       (-1) 1
     = table_scripts.NoteWithMidi
         (table_scripts.file_note
            (table_scripts.NoteInfo ("C#-1" +:+ re.newline) "Pattern"))
         (table_scripts.info_track_name
            (table_scripts.NoteInfo ("C#-1" +:+ re.newline) "Pattern"))
         ((octave + 2) * 12 + i) (nth_str NOTE_NAMES i) octave i).
  { exists 1, "-1", (-1), re.newline.
    split; [lia|]. split; [reflexivity|]. split; [by right|].
    split; reflexivity. }
  split; [exact H|].
  exact (proj2 (anchored_parse_spec
                  (table_scripts.NoteInfo ("C#-1" +:+ re.newline) "Pattern")
                  (table_scripts.NoteWithMidi ("C#-1" +:+ re.newline)
                     "Pattern" 13 "C#" (-1) 1)) H).
Defined.


Lemma table_sort_keeps_table_order_witness :
  let notes_data :=
    [table_scripts.NoteInfo "D1" "Second"; table_scripts.NoteInfo "C1" "Low";
     table_scripts.NoteInfo "D1" "Third"] in
  let notes :=
    [table_scripts.NoteWithMidi "C1" "Low" 36 "C" 1 0;
     table_scripts.NoteWithMidi "D1" "Second" 38 "D" 1 2;
     table_scripts.NoteWithMidi "D1" "Third" 38 "D" 1 2] in
  table_scripts.notes_with_midi table_scripts.BySlice notes_data = Ok notes /\
  exists parsed,
    mapM (table_scripts.with_midi table_scripts.BySlice) notes_data
    = Ok parsed /\
    Forall2 (fun info n =>
               table_scripts.nm_file_note n = table_scripts.file_note info /\
               table_scripts.nm_track_name n
               = table_scripts.info_track_name info) notes_data parsed /\
    Permutation notes parsed /\
    Sorted Z.le (map table_scripts.midi notes) /\
    forall m,
      List.filter (fun n => table_scripts.midi n =? m) notes
      = List.filter (fun n => table_scripts.midi n =? m) parsed.
Proof.
  intros notes_data notes.
  assert (Hn : table_scripts.notes_with_midi table_scripts.BySlice notes_data
               = Ok notes) by reflexivity.
  split; [exact Hn|].
  exact (table_sort_keeps_table_order table_scripts.BySlice notes_data notes
           Hn).
Defined.

Lemma valid_duration_3840 : valid_duration 3840.
Proof. unfold valid_duration, MAX_DELTA_TIME. lia. Qed.

Lemma generate_ableton_range_outcome_witness :
  parse_display_name "A#-3" = Ok (-3, 10) /\
  parse_display_name "C#-2" = Ok (-2, 1) /\
  valid_duration 3840 /\
  create_notes.generate_ableton_range "A#-3" "C#-2" true 3840
    (World ["home"] ∅ ∅ [])
  = (Ok (),
     apply_effects
       (MkDir ["home"; "midi_files_ableton_sequential"]
        :: flat_map
             (ableton_note_effects true
                ["home"; "midi_files_ableton_sequential"] 3840)
             (enumerate 1 (range (-2) (1 + 1)))
        ++ [Print (Summary 2)])%list (World ["home"] ∅ ∅ [])).
Proof.
  split; [reflexivity|]. split; [reflexivity|].
  split; [exact valid_duration_3840|].
  exact (generate_ableton_range_outcome "A#-3" "C#-2" true 3840
           (World ["home"] ∅ ∅ []) (-3) 10 (-2) 1 eq_refl eq_refl
           valid_duration_3840).
Defined.

Lemma generate_standard_range_outcome_witness :
  parse_display_name "B-2" = Ok (-2, 11) /\
  parse_display_name "C#-1" = Ok (-1, 1) /\
  valid_duration 3840 /\
  create_notes.generate_standard_range "B-2" "C#-1" 3840
    (World ["home"] ∅ ∅ [])
  = (Ok (),
     apply_effects
       (MkDir ["home"; "midi_files_standard_sequential"]
        :: flat_map
             (standard_note_effects
                ["home"; "midi_files_standard_sequential"] 3840)
             (enumerate 1 (range (-1) (1 + 1)))
        ++ [Print (Summary 2)])%list (World ["home"] ∅ ∅ [])).
Proof.
  split; [reflexivity|]. split; [reflexivity|].
  split; [exact valid_duration_3840|].
  exact (generate_standard_range_outcome "B-2" "C#-1" 3840
           (World ["home"] ∅ ∅ []) (-2) 11 (-1) 1 eq_refl eq_refl
           valid_duration_3840).
Defined.

Lemma generate_middle_c_range_outcome_witness :
  valid_duration 3840 /\
  create_notes.generate_middle_c_range 3840 (World ["home"] ∅ ∅ [])
  = (Ok (),
     apply_effects
       (MkDir ["home"; "middle_c_range_sequential"]
        :: flat_map
             (middle_c_note_effects ["home"; "middle_c_range_sequential"]
                3840)
             (enumerate 1 (range 48 84))
        ++ [Print (Summary 36)])%list (World ["home"] ∅ ∅ [])).
Proof.
  split; [exact valid_duration_3840|].
  exact (generate_middle_c_range_outcome 3840 (World ["home"] ∅ ∅ [])
           valid_duration_3840).
Defined.

Lemma table_script_outcome_witness :
  let notes :=
    [table_scripts.NoteWithMidi "C1" "Phrase 1 C1" 36 "C" 1 0;
     table_scripts.NoteWithMidi "D1" "Phrase 2 D1" 38 "D" 1 2] in
  let notes_data :=
    [table_scripts.NoteInfo "D1" "Phrase 2 D1";
     table_scripts.NoteInfo "C1" "Phrase 1 C1"] in
  In table_scripts.pianist table_scripts.all_scripts /\
  table_scripts.notes_with_midi
    (table_scripts.parsing_of table_scripts.pianist) notes_data = Ok notes /\
  Forall (fun n => in_midi_range (table_scripts.midi n) = true) notes /\
  Forall (fun x : Z * table_scripts.note_with_midi =>
            file_name_ok
              (format_0d 2 x.1 +:+ " "
               +:+ replace " " "_" (table_scripts.nm_track_name x.2)
               +:+ ".mid") = true) (enumerate 1 notes) /\
  table_scripts.run table_scripts.pianist notes_data (World ["home"] ∅ ∅ [])
  = (Ok (),
     apply_effects
       (MkDir ["home"; "notes_pianist"]
        :: flat_map
             (table_note_effects table_scripts.pianist
                ["home"; "notes_pianist"])
             (enumerate 1 notes))
       (World ["home"] ∅ ∅ [])).
Proof.
  intros notes notes_data.
  assert (Hs : In table_scripts.pianist table_scripts.all_scripts)
    by (left; reflexivity).
  assert (Hn : table_scripts.notes_with_midi
                 (table_scripts.parsing_of table_scripts.pianist) notes_data
               = Ok notes) by reflexivity.
  assert (Hall : Forall (fun n => in_midi_range (table_scripts.midi n) = true)
                   notes) by (repeat constructor).
  assert (Hf : Forall (fun x : Z * table_scripts.note_with_midi =>
                  file_name_ok
                    (format_0d 2 x.1 +:+ " "
                     +:+ replace " " "_" (table_scripts.nm_track_name x.2)
                     +:+ ".mid") = true) (enumerate 1 notes))
    by (repeat constructor).
  split; [exact Hs|]. split; [exact Hn|]. split; [exact Hall|].
  split; [exact Hf|].
  exact (table_script_outcome table_scripts.pianist notes_data notes
           (World ["home"] ∅ ∅ []) Hs Hn Hall Hf).
Defined.

Lemma table_script_aborts_out_of_range_witness :
  let low := table_scripts.NoteWithMidi "C1" "Low C1" 36 "C" 1 0 in
  let high := table_scripts.NoteWithMidi "C9" "High C9" 132 "C" 9 0 in
  let notes_data :=
    [table_scripts.NoteInfo "C9" "High C9";
     table_scripts.NoteInfo "C1" "Low C1"] in
  In table_scripts.pianist table_scripts.all_scripts /\
  table_scripts.notes_with_midi
    (table_scripts.parsing_of table_scripts.pianist) notes_data
  = Ok ([low] ++ high :: [])%list /\
  Forall (fun n => in_midi_range (table_scripts.midi n) = true) [low] /\
  in_midi_range (table_scripts.midi high) = false /\
  - 2 ^ 1000 < table_scripts.midi high /\
  Forall (fun x : Z * table_scripts.note_with_midi =>
            file_name_ok
              (format_0d 2 x.1 +:+ " "
               +:+ replace " " "_" (table_scripts.nm_track_name x.2)
               +:+ ".mid") = true) (enumerate 1 [low]) /\
  table_scripts.run table_scripts.pianist notes_data (World ["home"] ∅ ∅ [])
  = (Raise (ValueError (DataByteOutOfRange 132)),
     set_cwd ["home"; "notes_pianist"]
       (apply_effects
          (MkDir ["home"; "notes_pianist"]
           :: flat_map
                (table_note_effects table_scripts.pianist
                   ["home"; "notes_pianist"])
                (enumerate 1 [low]))
          (World ["home"] ∅ ∅ []))).
Proof.
  intros low high notes_data.
  assert (Hs : In table_scripts.pianist table_scripts.all_scripts)
    by (left; reflexivity).
  assert (Hn : table_scripts.notes_with_midi
                 (table_scripts.parsing_of table_scripts.pianist) notes_data
               = Ok ([low] ++ high :: [])%list) by reflexivity.
  assert (Hall : Forall (fun n => in_midi_range (table_scripts.midi n) = true)
                   [low]) by (repeat constructor).
  assert (Hbad : in_midi_range (table_scripts.midi high) = false)
    by reflexivity.
  assert (Hlow : - 2 ^ 1000 < table_scripts.midi high) by reflexivity.
  assert (Hf : Forall (fun x : Z * table_scripts.note_with_midi =>
                  file_name_ok
                    (format_0d 2 x.1 +:+ " "
                     +:+ replace " " "_" (table_scripts.nm_track_name x.2)
                     +:+ ".mid") = true) (enumerate 1 [low]))
    by (repeat constructor).
  split; [exact Hs|]. split; [exact Hn|]. split; [exact Hall|].
  split; [exact Hbad|]. split; [exact Hlow|]. split; [exact Hf|].
  exact (table_script_aborts_out_of_range table_scripts.pianist notes_data
           [low] [] high (World ["home"] ∅ ∅ []) Hs Hn Hall Hbad Hlow Hf).
Defined.



